(** * svg-map-creator: the image-to-vector pipeline of [ImageConverter.js]

    A shallow embedding of the conversion pipeline of
    [src/js/services/ImageConverter.js] (threshold, Sobel edge detection,
    Moore-neighbour contour tracing, Douglas-Peucker simplification,
    smoothing, area filter and sort) and the properties the specification
    states about it.

    Numbers.  A JavaScript number is an IEEE 754 binary64 value; it is
    modelled by Rocq's primitive [float], whose operations are the same
    correctly rounded binary64 operations.  Pixel coordinates, array
    indices and channel bytes are integers well inside the exactly
    representable range and are modelled by [Z] and [nat]. *)

From Stdlib Require Import ZArith List Lia Bool Arith PeanoNat.
From Stdlib Require Import Permutation Sorted.
From Stdlib Require Import Floats.
Import ListNotations.

(* ================================================================== *)
(** * JavaScript numbers                                               *)
(* ================================================================== *)

Module JsNum.

(** The number an integer denotes (the nearest binary64 value; exact
    below 2^53). *)
Definition of_Z (z : Z) : float :=
  SF2Prim (binary_normalize prec emax z 0 false).

(** [a > b], [a >= b], [a < b], [a <= b] on numbers; all are false when
    an operand is NaN. *)
Definition gt (a b : float) : bool := (b <? a)%float.
Definition ge (a b : float) : bool := (b <=? a)%float.
Definition lt (a b : float) : bool := (a <? b)%float.
Definition le (a b : float) : bool := (a <=? b)%float.

(** The literals [2.55] and [0.5] as binary64 values. *)
Definition lit_2_55 : float := 0x1.4666666666666p+1%float.
Definition half : float := 0x1p-1%float.

(** [Math.min] and [Math.max]: NaN if an operand is NaN; [-0] is smaller
    than [+0]. *)
Definition min (a b : float) : float :=
  if is_nan a || is_nan b then nan
  else if (a <? b)%float then a
  else if (b <? a)%float then b
  else if get_sign a then a else b.

Definition max (a b : float) : float :=
  if is_nan a || is_nan b then nan
  else if (a <? b)%float then b
  else if (b <? a)%float then a
  else if get_sign a then b else a.

(** The integer part of a finite number, rounded towards minus infinity
    ([None] for NaN and the infinities). *)
Definition floorZ (x : float) : option Z :=
  match Prim2SF x with
  | S754_zero _ => Some 0%Z
  | S754_finite s m e =>
      let q := Z.shiftl (Zpos m) e in
      let exact := Z.eqb (Z.shiftl q (- e)) (Zpos m) in
      Some (if s then (if exact then - q else - q - 1) else q)%Z
  | _ => None
  end.

(** [Math.floor]. *)
Definition floor (x : float) : float :=
  match floorZ x with
  | Some z => if is_zero x then x else of_Z z
  | None => x
  end.

(** [Math.round]: the nearest integer, ties towards plus infinity. *)
Definition round (x : float) : float :=
  match floorZ x with
  | Some f =>
      if is_zero x then x
      else
        let r := if (x - of_Z f <? half)%float then f else (f + 1)%Z in
        if (r =? 0)%Z then (if (x <? 0)%float then neg_zero else zero)
        else of_Z r
  | None => x
  end.

(** The value of an integer-valued finite number ([None] otherwise). *)
Definition to_Z (x : float) : option Z :=
  match floorZ x with
  | Some z => if (of_Z z =? x)%float then Some z else None
  | None => None
  end.

(** Conversion of a number stored into a [Uint8ClampedArray]: NaN
    becomes 0, the value is clamped to [0, 255] and rounded to the
    nearest integer, ties to even. *)
Definition to_uint8_clamp (x : float) : Z :=
  if is_nan x then 0%Z
  else if (x <=? 0)%float then 0%Z
  else if (255 <=? x)%float then 255%Z
  else
    match floorZ x with
    | Some f =>
        if (of_Z f + half <? x)%float then (f + 1)%Z
        else if (x <? of_Z f + half)%float then f
        else if Z.even f then f else (f + 1)%Z
    | None => 0%Z
    end.

End JsNum.

(** [for (let v = lo; v < hi; v++)]: the values the loop visits. *)
Definition zrange (lo hi : Z) : list Z :=
  map (fun k => (lo + Z.of_nat k)%Z) (seq 0 (Z.to_nat (hi - lo))).

(* ================================================================== *)
(** * Typed arrays and image buffers                                   *)
(* ================================================================== *)

(** A [Uint8ClampedArray] or [Uint8Array]: a fixed-length sequence of
    bytes.  Reading outside the array yields [undefined] ([None]);
    writing outside the array is ignored. *)
Definition ByteArray := list Z.

Definition array_get (a : ByteArray) (i : Z) : option Z :=
  if (i <? 0)%Z then None else nth_error a (Z.to_nat i).

Fixpoint array_set_nat (a : ByteArray) (i : nat) (v : Z) : ByteArray :=
  match a, i with
  | [], _ => []
  | _ :: t, O => v :: t
  | h :: t, S i' => h :: array_set_nat t i' v
  end.

Definition array_set (a : ByteArray) (i : Z) (v : Z) : ByteArray :=
  if (i <? 0)%Z then a else array_set_nat a (Z.to_nat i) v.

(** [ImageData]: dimensions and the flat RGBA channel array. *)
Record ImageData : Type := mkImageData {
  width : Z;
  height : Z;
  data : ByteArray
}.

(** [for (let i = 0; i < n; i += 4)]: the indices the loop visits. *)
Definition stride4 (n : nat) : list nat :=
  map (fun k => 4 * k)%nat (seq 0 ((n + 3) / 4)).

(* ================================================================== *)
(** * Binarizer: [threshold]                                           *)
(* ================================================================== *)

(** [data[i] > thresh], where [data[i]] may be [undefined]. *)
Definition byte_gt (b : option Z) (thresh : float) : bool :=
  match b with
  | Some r => JsNum.gt (JsNum.of_Z r) thresh
  | None => false
  end.

(** [data[i] > thresh ? 255 : 0] for a red channel that reads [r]. *)
Definition binarized (thresh : float) (r : option Z) : Z :=
  if byte_gt r thresh then 255%Z else 0%Z.

(** One iteration of the loop body:
    [const value = data[i] > thresh ? 255 : 0;
     data[i] = data[i + 1] = data[i + 2] = value]. *)
Definition threshold_step (thresh : float) (d : ByteArray) (i : nat)
  : ByteArray :=
  let value := binarized thresh (nth_error d i) in
  array_set_nat
    (array_set_nat (array_set_nat d (i + 2) value) (i + 1) value) i value.

Definition threshold (imageData : ImageData) (level : float) : ImageData :=
  let d := data imageData in
  let thresh := (level * JsNum.lit_2_55)%float in
  mkImageData (width imageData) (height imageData)
    (fold_left (threshold_step thresh) (stride4 (length d)) d).

(* ================================================================== *)
(** * Edge detector: [detectEdges]                                     *)
(* ================================================================== *)

Definition sobelX : list (list Z) :=
  [[-1; 0; 1]; [-2; 0; 2]; [-1; 0; 1]]%Z.

Definition sobelY : list (list Z) :=
  [[-1; -2; -1]; [0; 0; 0]; [1; 2; 1]]%Z.

(** [kernel[dy + 1][dx + 1]] as a number. *)
Definition kernel_at (kernel : list (list Z)) (dy dx : Z) : float :=
  JsNum.of_Z (nth (Z.to_nat (dx + 1)) (nth (Z.to_nat (dy + 1)) kernel []) 0%Z).

(** A channel read used in arithmetic: [undefined] behaves as NaN. *)
Definition byte_num (b : option Z) : float :=
  match b with
  | Some v => JsNum.of_Z v
  | None => nan
  end.

(** The two nested loops over [dy] and [dx] accumulating [gx] and [gy]
    at pixel [(x, y)]. *)
Definition sobel_sums (imageData : ImageData) (x y : Z) : float * float :=
  fold_left
    (fun (g : float * float) (dy : Z) =>
       fold_left
         (fun (g : float * float) (dx : Z) =>
            let idx := (((y + dy) * width imageData + (x + dx)) * 4)%Z in
            let gray := byte_num (array_get (data imageData) idx) in
            ((fst g + gray * kernel_at sobelX dy dx)%float,
             (snd g + gray * kernel_at sobelY dy dx)%float))
         (zrange (-1) 2) g)
    (zrange (-1) 2) (zero, zero).

(** The pixels of the double loop [for y in 1 .. h-2, for x in 1 .. w-2],
    in the order the loop visits them. *)
Definition interior (w h : Z) : list (Z * Z) :=
  flat_map (fun y => map (fun x => (x, y)) (zrange 1 (w - 1))) (zrange 1 (h - 1)).

(** The byte stored for pixel [(x, y)]: [Math.min(255, magnitude)] with
    [magnitude = Math.sqrt(gx * gx + gy * gy)], converted as a
    [Uint8ClampedArray] converts it. *)
Definition edge_value (imageData : ImageData) (x y : Z) : Z :=
  let '(gx, gy) := sobel_sums imageData x y in
  let magnitude := sqrt (gx * gx + gy * gy)%float in
  JsNum.to_uint8_clamp (JsNum.min 255%float magnitude).

(** The body of the double loop: the three colour channels get the edge
    value and alpha gets 255. *)
Definition detectEdges_pixel (imageData : ImageData) (result : ByteArray)
  (xy : Z * Z) : ByteArray :=
  let '(x, y) := xy in
  let idx := ((y * width imageData + x) * 4)%Z in
  let v := edge_value imageData x y in
  let result := array_set result (idx + 2) v in
  let result := array_set result (idx + 1) v in
  let result := array_set result idx v in
  array_set result (idx + 3) 255%Z.

(** [detectEdges(imageData, radius = 1)]; an omitted radius is [None]. *)
Definition detectEdges (imageData : ImageData) (radius : option float)
  : ImageData :=
  let radius := match radius with Some r => r | None => 1%float end in
  let result := repeat 0%Z (length (data imageData)) in
  let result :=
    fold_left (detectEdges_pixel imageData)
      (interior (width imageData) (height imageData)) result in
  mkImageData (width imageData) (height imageData) result.

(* ================================================================== *)
(** * Contour tracer: [findContours]                                   *)
(* ================================================================== *)

(** A contour point [{ x, y }] in integer pixel coordinates. *)
Record Point : Type := mkPoint { pt_x : Z; pt_y : Z }.

Definition Contour := list Point.

(** [getPixel(x, y)]: 0 outside the image, otherwise the red channel of
    the pixel (which is [undefined] when the array is too short). *)
Definition getPixel (imageData : ImageData) (x y : Z) : option Z :=
  if ((x <? 0) || (width imageData <=? x) || (y <? 0)
      || (height imageData <=? y))%Z
  then Some 0%Z
  else array_get (data imageData) ((y * width imageData + x) * 4)%Z.

(** [v > 127] and [v <= 127] for a possibly undefined [v]: both are
    false on [undefined]. *)
Definition is_white (v : option Z) : bool :=
  match v with
  | Some b => (127 <? b)%Z
  | None => false
  end.

Definition is_black (v : option Z) : bool :=
  match v with
  | Some b => (b <=? 127)%Z
  | None => false
  end.

(** Truthiness of [visited[idx]]. *)
Definition is_marked (visited : ByteArray) (idx : Z) : bool :=
  match array_get visited idx with
  | Some b => negb (b =? 0)%Z
  | None => false
  end.

(** The Moore neighbourhood, clockwise from north. *)
Definition directions : list (Z * Z) :=
  [(0, -1); (1, -1); (1, 0); (1, 1); (0, 1); (-1, 1); (-1, 0); (-1, -1)]%Z.

(** The inner [for (let i = 0; i < 8; i++)] loop: the first white
    neighbour in direction order [(dir + i + 5) % 8], with its
    direction, or [None] when the loop ends with [found] still false. *)
Fixpoint find_next (imageData : ImageData) (x y dir : Z) (steps : list Z)
  : option (Z * Z * Z) :=
  match steps with
  | [] => None
  | i :: steps' =>
      let newDir := Z.rem (dir + i + 5) 8 in
      let d := nth (Z.to_nat newDir) directions (0, 0)%Z in
      let nx := (x + fst d)%Z in
      let ny := (y + snd d)%Z in
      if is_white (getPixel imageData nx ny) then Some (nx, ny, newDir)
      else find_next imageData x y dir steps'
  end.

(** Why the [do ... while] loop of [traceContour] was left. *)
Inductive TraceStop : Type :=
| StopNoNeighbour   (* [if (!found) break] *)
| StopBackAtStart   (* [x === startX && y === startY] *)
| StopIterationCap. (* [iter < maxIter] failed *)

(** The local variables of [traceContour] that the loop updates; the
    contour grows at its end and [visited] is the bitmap shared with the
    scan of [findContours]. *)
Record TraceState : Type := mkTraceState {
  ts_x : Z;
  ts_y : Z;
  ts_dir : Z;
  ts_firstPoint : bool;
  ts_iter : Z;
  ts_contour : Contour;
  ts_visited : ByteArray
}.

(** The [do ... while (iter < maxIter)] loop; [fuel] bounds the number
    of iterations the model may unfold, [None] meaning that it ran out. *)
Fixpoint trace_loop (fuel : nat) (imageData : ImageData) (startX startY : Z)
  (st : TraceState) : option (Contour * ByteArray * TraceStop) :=
  match fuel with
  | O => None
  | S fuel' =>
      let x := ts_x st in
      let y := ts_y st in
      let contour := ts_contour st ++ [mkPoint x y] in
      let visited :=
        array_set (ts_visited st) (y * width imageData + x) 1%Z in
      match find_next imageData x y (ts_dir st) (zrange 0 8) with
      | None => Some (contour, visited, StopNoNeighbour)
      | Some (nx, ny, newDir) =>
          let iter := (ts_iter st + 1)%Z in
          if negb (ts_firstPoint st) && (nx =? startX)%Z && (ny =? startY)%Z
          then Some (contour, visited, StopBackAtStart)
          else if (iter <? width imageData * height imageData)%Z
          then trace_loop fuel' imageData startX startY
                 (mkTraceState nx ny newDir false iter contour visited)
          else Some (contour, visited, StopIterationCap)
      end
  end.

(** The number of iterations the loop can make: at least one (it is a
    [do ... while]) and at most [maxIter = width * height]. *)
Definition trace_fuel (imageData : ImageData) : nat :=
  S (Z.to_nat (width imageData * height imageData)).

(** The state in which [traceContour(startX, startY)] enters its loop. *)
Definition trace_init (visited : ByteArray) (startX startY : Z) : TraceState :=
  mkTraceState startX startY 7 true 0 [] visited.

(** [traceContour(startX, startY)], with the bitmap it updates.  The
    loop always ends within [trace_fuel] iterations (lemma
    [trace_loop_total] below), so the last branch is never taken. *)
Definition traceContour (imageData : ImageData) (visited : ByteArray)
  (startX startY : Z) : Contour * ByteArray * TraceStop :=
  match trace_loop (trace_fuel imageData) imageData startX startY
          (trace_init visited startX startY) with
  | Some r => r
  | None => ([], visited, StopIterationCap)
  end.

(** One iteration of the scan of [findContours] at pixel [(x, y)]; the
    state is the bitmap and the contours found so far, in discovery
    order. *)
Definition scan_step (imageData : ImageData)
  (st : ByteArray * list Contour) (xy : Z * Z) : ByteArray * list Contour :=
  let '(visited, contours) := st in
  let '(x, y) := xy in
  let idx := (y * width imageData + x)%Z in
  if is_marked visited idx then (visited, contours)
  else if is_white (getPixel imageData x y) then
    let hasBlackNeighbor :=
      is_black (getPixel imageData (x - 1) y)
      || is_black (getPixel imageData (x + 1) y)
      || is_black (getPixel imageData x (y - 1))
      || is_black (getPixel imageData x (y + 1)) in
    if hasBlackNeighbor && negb (is_marked visited idx) then
      let '(contour, visited', _) := traceContour imageData visited x y in
      if (10 <=? length contour)%nat
      then (visited', contours ++ [contour])
      else (visited', contours)
    else (visited, contours)
  else (visited, contours).

(** The whole scan, returning the final bitmap as well. *)
Definition findContours_state (imageData : ImageData)
  : ByteArray * list Contour :=
  let visited :=
    repeat 0%Z (Z.to_nat (width imageData * height imageData)) in
  fold_left (scan_step imageData)
    (interior (width imageData) (height imageData))
    (visited, []).

(** [findContours(imageData)]. *)
Definition findContours (imageData : ImageData) : list Contour :=
  snd (findContours_state imageData).

(* ================================================================== *)
(** * Contour post-processor                                           *)
(* ================================================================== *)

(** A point object [{ x, y }] whose two fields are numbers. *)
Record JsPoint : Type := mkJsPoint { np_x : float; np_y : float }.

(** An element of a points array: a point object, or any value that
    fails the test [p && typeof p.x === 'number' && typeof p.y ===
    'number'] (null, undefined, an object without numeric fields). *)
Inductive Entry : Type :=
| Pt (p : JsPoint)
| NotPt.

(** [points.filter(p => p && typeof p.x === 'number' && ...)]. *)
Fixpoint valid_points (points : list Entry) : list JsPoint :=
  match points with
  | [] => []
  | Pt p :: rest => p :: valid_points rest
  | NotPt :: rest => valid_points rest
  end.

(** [v ** 2]. *)
Definition sq (v : float) : float := (v * v)%float.

(** [pointLineDistance(point, lineStart, lineEnd)]. *)
Definition pointLineDistance (point lineStart lineEnd : JsPoint) : float :=
  let dx := (np_x lineEnd - np_x lineStart)%float in
  let dy := (np_y lineEnd - np_y lineStart)%float in
  let lenSq := (dx * dx + dy * dy)%float in
  if (lenSq =? 0)%float then
    sqrt (sq (np_x point - np_x lineStart) + sq (np_y point - np_y lineStart))
  else
    let t :=
      (((np_x point - np_x lineStart) * dx
        + (np_y point - np_y lineStart) * dy) / lenSq)%float in
    let t := JsNum.max 0%float (JsNum.min 1%float t) in
    let nearestX := (np_x lineStart + t * dx)%float in
    let nearestY := (np_y lineStart + t * dy)%float in
    sqrt (sq (np_x point - nearestX) + sq (np_y point - nearestY)).

(** The loop [for (let i = 1; i < validPoints.length - 1; i++)] that
    looks for the farthest point; the result is [(maxDist, maxIdx)]. *)
Definition farthest_step (validPoints : list JsPoint) (start end_ : JsPoint)
  (acc : float * nat) (i : nat) : float * nat :=
  let dist := pointLineDistance (nth i validPoints start) start end_ in
  if JsNum.gt dist (fst acc) then (dist, i) else acc.

Definition farthest (validPoints : list JsPoint) (start end_ : JsPoint)
  : float * nat :=
  fold_left (farthest_step validPoints start end_)
    (seq 1 (length validPoints - 2)) (zero, 0%nat).

(** [simplifyContour(points, tolerance)] for an array [points] (the
    guard [!points] is for a missing array).  The function calls
    itself; [fuel] bounds the depth of the calls and [None] means
    that the depth was exceeded. *)
Fixpoint simplify_fuel (fuel : nat) (points : list Entry) (tolerance : float)
  : option (list Entry) :=
  match fuel with
  | O => None
  | S fuel' =>
      if (length points <=? 2)%nat then Some points
      else
        let validPoints := valid_points points in
        if (length validPoints <=? 2)%nat then Some (map Pt validPoints)
        else
          match validPoints with
          | [] => Some []
          | start :: _ =>
              let end_ := last validPoints start in
              let '(maxDist, maxIdx) := farthest validPoints start end_ in
              if JsNum.gt maxDist tolerance then
                match
                  simplify_fuel fuel'
                    (map Pt (firstn (maxIdx + 1) validPoints)) tolerance
                with
                | None => None
                | Some left_ =>
                    match
                      simplify_fuel fuel'
                        (map Pt (skipn maxIdx validPoints)) tolerance
                    with
                    | None => None
                    | Some right_ => Some (removelast left_ ++ right_)
                    end
                end
              else Some [Pt start; Pt end_]
          end
  end.

(** [simplifyContour]: every call that recurses does so on two strictly
    shorter arrays unless [maxIdx] is 0, in which case the second call
    repeats the first for ever; a depth of [length points + 1] is
    therefore enough whenever the JavaScript function returns, and
    [None] stands for a call that never returns (a stack overflow). *)
Definition simplifyContour (points : list Entry) (tolerance : float)
  : option (list Entry) :=
  simplify_fuel (S (length points)) points tolerance.

(** The values of [j] in [for (let j = -window; j <= window; j++)]:
    none when [window] is NaN; [None] when [window] is infinite (the
    first index is then NaN and the read of [.x] throws). *)
Definition window_range (window : float) : option (list Z) :=
  match JsNum.to_Z window with
  | Some w => Some (zrange (- w) (w + 1))
  | None => if is_nan window then Some [] else None
  end.

(** The body of the outer loop of [smoothContour] at index [i]: the
    averaged point, or [None] when [validPoints[idx]] is undefined and
    reading its field throws. *)
Definition smooth_point (validPoints : list JsPoint) (js : list Z) (i : nat)
  : option JsPoint :=
  let n := Z.of_nat (length validPoints) in
  let sums :=
    fold_left
      (fun (acc : option (float * float * float)) (j : Z) =>
         match acc with
         | None => None
         | Some (sumX, sumY, count) =>
             let idx := Z.rem (Z.of_nat i + j + n) n in
             if (idx <? 0)%Z then None
             else
               match nth_error validPoints (Z.to_nat idx) with
               | None => None
               | Some p =>
                   Some ((sumX + np_x p)%float, (sumY + np_y p)%float,
                         (count + 1)%float)
               end
         end)
      js (Some (zero, zero, zero)) in
  match sums with
  | None => None
  | Some (sumX, sumY, count) =>
      Some (mkJsPoint (JsNum.round (sumX / count)) (JsNum.round (sumY / count)))
  end.

(** Sequencing of computations that may throw. *)
Fixpoint mapM {A B : Type} (f : A -> option B) (l : list A)
  : option (list B) :=
  match l with
  | [] => Some []
  | a :: rest =>
      match f a with
      | None => None
      | Some b =>
          match mapM f rest with
          | None => None
          | Some bs => Some (b :: bs)
          end
      end
  end.

(** [smoothContour(points, factor)]; [None] when it throws. *)
Definition smoothContour (points : list Entry) (factor : float)
  : option (list Entry) :=
  if (length points <? 3)%nat then Some points
  else
    let validPoints := valid_points points in
    if (length validPoints <? 3)%nat then Some (map Pt validPoints)
    else
      let window := JsNum.max 1%float (JsNum.floor (factor * 3)%float) in
      match window_range window with
      | None => None
      | Some js =>
          option_map (map Pt)
            (mapM (smooth_point validPoints js) (seq 0 (length validPoints)))
      end.

(** The settings object. *)
Record Settings : Type := mkSettings {
  edgeThreshold : float;
  edgeRadius : float;
  grayscale : bool;
  invert : bool;
  blur : float;
  posterize : float;
  minRegionArea : float;
  simplifyTolerance : float;
  smoothing : float;
  strokeWidth : float;
  fillOpacity : float
}.

(** The defaults set by the constructor. *)
Definition default_settings : Settings :=
  mkSettings 50%float 2%float true true 1%float 0%float 100%float 2%float
    0x1p-1%float 1%float 0x1.999999999999ap-4%float.

(** A region object built by [processContours]. *)
Record Region : Type := mkRegion {
  points : list Entry;
  area : float;
  originalLength : nat;
  simplifiedLength : nat
}.

(** The number fields of a traced point. *)
Definition num_point (p : Point) : JsPoint :=
  mkJsPoint (JsNum.of_Z (pt_x p)) (JsNum.of_Z (pt_y p)).

(** The shoelace loop of [processContours] and [Math.abs(area / 2)]. *)
Definition shoelace_step (contour : list JsPoint) (area : float) (i : nat)
  : float :=
  let j := ((i + 1) mod (length contour))%nat in
  let pi := nth i contour (mkJsPoint nan nan) in
  let pj := nth j contour (mkJsPoint nan nan) in
  ((area + np_x pi * np_y pj) - np_x pj * np_y pi)%float.

Definition contour_area (contour : list JsPoint) : float :=
  let area :=
    fold_left (shoelace_step contour) (seq 0 (length contour)) zero in
  abs (area / 2)%float.

(** The callback of [contours.map]: the region of one contour, or
    [None] when simplification or smoothing does not return. *)
Definition make_region (settings : Settings) (contour : Contour)
  : option Region :=
  let pts := map num_point contour in
  let area := contour_area pts in
  match simplifyContour (map Pt pts) (simplifyTolerance settings) with
  | None => None
  | Some simplified =>
      let smoothed :=
        if JsNum.gt (smoothing settings) 0%float
        then smoothContour simplified (smoothing settings)
        else Some simplified in
      match smoothed with
      | None => None
      | Some smoothed =>
          Some (mkRegion smoothed area (length contour) (length smoothed))
      end
  end.

(** [Array.prototype.sort(comparefn)]: the language requires a stable
    sort that places [b] before [a] when [comparefn(a, b) > 0]; for a
    consistent comparator every such sort returns the same array, here
    computed by insertion.  [sort_insert x sorted] places [x], which
    precedes every element of [sorted] in the input, after the elements
    it compares greater than. *)
Fixpoint sort_insert {A : Type} (comparefn : A -> A -> float) (x : A)
  (sorted : list A) : list A :=
  match sorted with
  | [] => [x]
  | y :: rest =>
      if JsNum.gt (comparefn x y) 0%float
      then y :: sort_insert comparefn x rest
      else x :: sorted
  end.

Definition js_sort {A : Type} (comparefn : A -> A -> float) (l : list A)
  : list A :=
  fold_right (sort_insert comparefn) [] l.

(** The comparator [(a, b) => b.area - a.area]. *)
Definition by_area_desc (a b : Region) : float := (area b - area a)%float.

(** The filter predicate [region.area >= this.settings.minRegionArea]. *)
Definition keeps (settings : Settings) (region : Region) : bool :=
  JsNum.ge (area region) (minRegionArea settings).

(** [processContours(contours)]. *)
Definition processContours (settings : Settings) (contours : list Contour)
  : option (list Region) :=
  match mapM (make_region settings) contours with
  | None => None
  | Some regions =>
      Some (js_sort by_area_desc (filter (keeps settings) regions))
  end.

(* ================================================================== *)
(** * Preprocessor and inversion                                       *)
(* ================================================================== *)

(** The stage functions live in a module of their own: [posterize] is
    also the name of a settings field. *)
Module Stage.

(** The literals [0.299], [0.587] and [0.114] as binary64 values. *)
Definition lit_0_299 : float := 0x1.322d0e5604189p-2%float.
Definition lit_0_587 : float := 0x1.2c8b439581062p-1%float.
Definition lit_0_114 : float := 0x1.d2f1a9fbe76c9p-4%float.

(** [0.299 * r + 0.587 * g + 0.114 * b] for three channel reads. *)
Definition luminosity (r g b : option Z) : float :=
  (lit_0_299 * byte_num r + lit_0_587 * byte_num g
   + lit_0_114 * byte_num b)%float.

(** The body of the loop of [toGrayscale]:
    [data[i] = data[i + 1] = data[i + 2] = gray]. *)
Definition toGrayscale_step (d : ByteArray) (i : nat) : ByteArray :=
  let gray :=
    luminosity (nth_error d i) (nth_error d (i + 1)) (nth_error d (i + 2)) in
  let v := JsNum.to_uint8_clamp gray in
  array_set_nat (array_set_nat (array_set_nat d (i + 2) v) (i + 1) v) i v.

Definition toGrayscale (imageData : ImageData) : ImageData :=
  let d := data imageData in
  mkImageData (width imageData) (height imageData)
    (fold_left toGrayscale_step (stride4 (length d)) d).

(** [255 - data[k]], stored back into the array. *)
Definition inverted (b : option Z) : Z :=
  JsNum.to_uint8_clamp (255 - byte_num b)%float.

(** The body of the loop of [invertImage]: three assignments in turn. *)
Definition invertImage_step (d : ByteArray) (i : nat) : ByteArray :=
  let d := array_set_nat d i (inverted (nth_error d i)) in
  let d := array_set_nat d (i + 1) (inverted (nth_error d (i + 1))) in
  array_set_nat d (i + 2) (inverted (nth_error d (i + 2))).

Definition invertImage (imageData : ImageData) : ImageData :=
  let d := data imageData in
  mkImageData (width imageData) (height imageData)
    (fold_left invertImage_step (stride4 (length d)) d).

(** [Math.round(data[k] / step) * step], stored back into the array. *)
Definition quantized (step : float) (b : option Z) : Z :=
  JsNum.to_uint8_clamp (JsNum.round (byte_num b / step) * step)%float.

(** The body of the loop of [posterize]: three assignments in turn. *)
Definition posterize_step (step : float) (d : ByteArray) (i : nat)
  : ByteArray :=
  let d := array_set_nat d i (quantized step (nth_error d i)) in
  let d := array_set_nat d (i + 1) (quantized step (nth_error d (i + 1))) in
  array_set_nat d (i + 2) (quantized step (nth_error d (i + 2))).

Definition posterize (imageData : ImageData) (levels : float) : ImageData :=
  let d := data imageData in
  let step := (255 / levels)%float in
  mkImageData (width imageData) (height imageData)
    (fold_left (posterize_step step) (stride4 (length d)) d).

(** The pixels of the double loop of [applyBlur],
    [for y in radius .. height - radius - 1, for x in radius .. width -
    radius - 1], in the order the loop visits them. *)
Definition blur_pixels (w h radius : Z) : list (Z * Z) :=
  flat_map (fun y => map (fun x => (x, y)) (zrange radius (w - radius)))
    (zrange radius (h - radius)).

(** The two inner loops of [applyBlur] at pixel [(x, y)]: the sums
    [(r, g, b)] of the three colour channels over the window. *)
Definition blur_sums (imageData : ImageData) (radius x y : Z)
  : float * float * float :=
  fold_left
    (fun (s : float * float * float) (dy : Z) =>
       fold_left
         (fun (s : float * float * float) (dx : Z) =>
            let idx := (((y + dy) * width imageData + (x + dx)) * 4)%Z in
            let d := data imageData in
            let '(r, g, b) := s in
            ((r + byte_num (array_get d idx))%float,
             (g + byte_num (array_get d (idx + 1)))%float,
             (b + byte_num (array_get d (idx + 2)))%float))
         (zrange (- radius) (radius + 1)) s)
    (zrange (- radius) (radius + 1)) (zero, zero, zero).

(** The body of the double loop of [applyBlur]: the three means are
    stored into [result]; the sums are read from the untouched [data]. *)
Definition applyBlur_pixel (imageData : ImageData) (radius : Z)
  (result : ByteArray) (xy : Z * Z) : ByteArray :=
  let '(x, y) := xy in
  let size := (JsNum.of_Z radius * 2 + 1)%float in
  let area := (size * size)%float in
  let '(r, g, b) := blur_sums imageData radius x y in
  let idx := ((y * width imageData + x) * 4)%Z in
  let result := array_set result idx (JsNum.to_uint8_clamp (r / area)) in
  let result :=
    array_set result (idx + 1) (JsNum.to_uint8_clamp (g / area)) in
  array_set result (idx + 2) (JsNum.to_uint8_clamp (b / area)).

(** [applyBlur(imageData, radius)] for a whole radius above [-2^53],
    where the counters of the loops are exact (the settings form passes
    [parseInt] of a slider value): [result] starts as a copy of [data]
    and replaces it at the end. *)
Definition applyBlur (imageData : ImageData) (radius : Z) : ImageData :=
  let result := data imageData in
  let result :=
    fold_left (applyBlur_pixel imageData radius)
      (blur_pixels (width imageData) (height imageData) radius) result in
  mkImageData (width imageData) (height imageData) result.

(** [cloneImageData(imageData)]: a buffer of its own with the same
    content. *)
Definition cloneImageData (imageData : ImageData) : ImageData :=
  mkImageData (width imageData) (height imageData) (data imageData).

End Stage.

(* ================================================================== *)
(** * The pipeline: [processImage]                                     *)
(* ================================================================== *)

(** The names of the entries of [steps]: ['Grayscale'], ['Blur'],
    ['Posterize'], ['Edges'], ['Invert'], ['Threshold'] and
    ['Contours']. *)
Inductive StepName : Type :=
| SGrayscale
| SBlur
| SPosterize
| SEdges
| SInvert
| SThreshold
| SContours.

(** An entry of [steps]: [{ name, data }] with a clone of the image as
    it is after the stage, or [{ name, count }]. *)
Inductive Step : Type :=
| Snapshot (name : StepName) (data : ImageData)
| Count (name : StepName) (count : nat).

(** The object [processImage] resolves to, without its [svg] string. *)
Record Conversion : Type := mkConversion {
  conv_regions : list Region;
  conv_steps : list Step;
  conv_dimensions : Z * Z
}.

(** [processImage], from the image data read off the canvas, for the
    merged settings.  [None] stands for a call that does not return
    normally, and also for a positive blur radius that is not a whole
    number: the model of [applyBlur] covers whole radii, which is what
    the settings form passes ([parseInt]). *)
Definition processImage (settings : Settings) (imageData : ImageData)
  : option Conversion :=
  let dimensions := (width imageData, height imageData) in
  let steps : list Step := [] in
  let '(imageData, steps) :=
    if grayscale settings then
      let imageData := Stage.toGrayscale imageData in
      (imageData,
       steps ++ [Snapshot SGrayscale (Stage.cloneImageData imageData)])
    else (imageData, steps) in
  match
    (if JsNum.gt (blur settings) 0%float then
       match JsNum.to_Z (blur settings) with
       | Some radius =>
           let imageData := Stage.applyBlur imageData radius in
           Some (imageData,
                 steps ++ [Snapshot SBlur (Stage.cloneImageData imageData)])
       | None => None
       end
     else Some (imageData, steps))
  with
  | None => None
  | Some (imageData, steps) =>
      let '(imageData, steps) :=
        if JsNum.gt (posterize settings) 0%float then
          let imageData := Stage.posterize imageData (posterize settings) in
          (imageData,
           steps ++ [Snapshot SPosterize (Stage.cloneImageData imageData)])
        else (imageData, steps) in
      let imageData := detectEdges imageData (Some (edgeRadius settings)) in
      let steps :=
        steps ++ [Snapshot SEdges (Stage.cloneImageData imageData)] in
      let '(imageData, steps) :=
        if invert settings then
          let imageData := Stage.invertImage imageData in
          (imageData,
           steps ++ [Snapshot SInvert (Stage.cloneImageData imageData)])
        else (imageData, steps) in
      let imageData := threshold imageData (edgeThreshold settings) in
      let steps :=
        steps ++ [Snapshot SThreshold (Stage.cloneImageData imageData)] in
      let contours := findContours imageData in
      let steps := steps ++ [Count SContours (length contours)] in
      match processContours settings contours with
      | None => None
      | Some regions => Some (mkConversion regions steps dimensions)
      end
  end.

(** [steps.filter((s) => s.data).pop()] of [showProcessedPreview]: the
    last entry that carries an image, if there is one. *)
Definition has_data (s : Step) : bool :=
  match s with
  | Snapshot _ _ => true
  | Count _ _ => false
  end.

Definition lastImageStep (steps : list Step) : option Step :=
  last (map Some (filter has_data steps)) None.

(* ================================================================== *)
(** * Vocabulary of the statements                                     *)
(* ================================================================== *)

(** ** Contour tracer *)

(** A point lies inside the image. *)
Definition in_bounds (imageData : ImageData) (p : Point) : Prop :=
  (0 <= pt_x p < width imageData /\ 0 <= pt_y p < height imageData)%Z.

(** A point of the ring [1 <= x <= width - 2], [1 <= y <= height - 2]. *)
Definition in_ring (imageData : ImageData) (p : Point) : Prop :=
  (1 <= pt_x p <= width imageData - 2 /\
   1 <= pt_y p <= height imageData - 2)%Z.

(** The index [y * width + x] of a point in the visited bitmap. *)
Definition pixel_index (imageData : ImageData) (p : Point) : Z :=
  (pt_y p * width imageData + pt_x p)%Z.

(** The point is marked in the bitmap. *)
Definition marked (imageData : ImageData) (visited : ByteArray) (p : Point)
  : Prop :=
  is_marked visited (pixel_index imageData p) = true.

(** The number of iterations the loop of [traceContour] can still make
    from a state: the one it is in, plus what the cap leaves after it. *)
Definition iterations_left (imageData : ImageData) (st : TraceState) : nat :=
  S (Z.to_nat (width imageData * height imageData - ts_iter st - 1)).

(** The first point of the later contour [c2] does not lie on the
    earlier contour [c1]. *)
Definition seed_fresh (c1 c2 : Contour) : Prop :=
  forall s, hd_error c2 = Some s -> ~ In s c1.

(** The invariant of the scan of [findContours]: the bitmap keeps its
    size, every point of a contour found so far is inside the image and
    marked, every contour starts at a seed of the ring, and no seed lies
    on a contour found before it. *)
Definition scan_inv (imageData : ImageData)
  (st : ByteArray * list Contour) : Prop :=
  length (fst st) = Z.to_nat (width imageData * height imageData) /\
  (forall c p, In c (snd st) -> In p c ->
     in_bounds imageData p /\ marked imageData (fst st) p) /\
  (forall c, In c (snd st) ->
     exists s, hd_error c = Some s /\ in_ring imageData s) /\
  ForallOrdPairs seed_fresh (snd st).

(** ** Post-processor *)

(** The array element is a point object. *)
Definition is_point (e : Entry) : Prop :=
  match e with
  | Pt _ => True
  | NotPt => False
  end.

(** The order of the sorted output: areas do not increase. *)
Definition area_desc (a b : Region) : Prop :=
  JsNum.ge (area a) (area b) = true.

(** The region has area [v]. *)
Definition same_area (v : float) (r : Region) : bool :=
  (area r =? v)%float.

(** ** The order of numbers

    Numbers other than NaN are totally ordered; [order_key] places a
    binary64 value in the lexicographic order of integer triples (sign
    class, exponent, mantissa), both zeros at the same place. *)
Definition order_key (f : spec_float) : option (Z * Z * Z) :=
  match f with
  | S754_nan => None
  | S754_zero _ => Some (0, 0, 0)%Z
  | S754_infinity false => Some (2, 0, 0)%Z
  | S754_infinity true => Some (-2, 0, 0)%Z
  | S754_finite false m e => Some (1, e, Zpos m)%Z
  | S754_finite true m e => Some (-1, - e, Zneg m)%Z
  end.

Definition key_compare (a b : Z * Z * Z) : comparison :=
  match Z.compare (fst (fst a)) (fst (fst b)) with
  | Eq =>
      match Z.compare (snd (fst a)) (snd (fst b)) with
      | Eq => Z.compare (snd a) (snd b)
      | c => c
      end
  | c => c
  end.

(** The place of a number in the order ([None] for NaN). *)
Definition num_key (x : float) : option (Z * Z * Z) :=
  order_key (Prim2SF x).

(** Whether a binary64 value is strictly positive. *)
Definition SFpos (f : spec_float) : bool :=
  SFltb (S754_zero false) f.

(** ** Sample inputs *)

(** A black-and-white buffer given by its rows (1 is white), as
    [threshold] leaves it. *)
Definition bw_image (rows : list (list Z)) : ImageData :=
  mkImageData (Z.of_nat (length (hd [] rows))) (Z.of_nat (length rows))
    (flat_map (fun b => let v := (255 * b)%Z in [v; v; v; 255%Z])
       (concat rows)).

(** A one-pixel-wide diagonal stroke with a one-pixel spur at its top. *)
Definition spur_image : ImageData :=
  bw_image
    [[0; 0; 0; 0; 0; 0; 0; 0; 0];
     [0; 0; 0; 0; 0; 0; 1; 0; 0];
     [0; 0; 0; 0; 0; 1; 0; 1; 0];
     [0; 0; 0; 0; 1; 0; 0; 0; 0];
     [0; 0; 0; 1; 0; 0; 0; 0; 0];
     [0; 0; 1; 0; 0; 0; 0; 0; 0];
     [0; 1; 0; 0; 0; 0; 0; 0; 0];
     [0; 0; 0; 0; 0; 0; 0; 0; 0]]%Z.

(** A buffer on which the walk from the seed (1, 1) never comes back to
    the seed. *)
Definition runaway_image : ImageData :=
  bw_image
    [[1; 1; 1];
     [1; 1; 1];
     [1; 0; 1];
     [1; 0; 1];
     [1; 0; 1]]%Z.

(** A zigzag of five points. *)
Definition zigzag : list Entry :=
  map (fun xy => Pt (num_point (mkPoint (fst xy) (snd xy))))
    [(0, 0); (1, 1); (2, 0); (3, 5); (4, 0)]%Z.

(** Squares as traced contours, for the examples. *)
Definition square (x y side : Z) : Contour :=
  [mkPoint x y; mkPoint (x + side) y; mkPoint (x + side) (y + side);
   mkPoint x (y + side)].

Definition sample_contours : list Contour :=
  [square 0 0 5; square 0 0 10; square 1 1 20; square 5 5 10;
   square 0 0 30].

(** The regions of [sample_contours] under the default settings, in
    discovery order, and the one whose area equals [minRegionArea]. *)
Definition sample_regions : list Region :=
  Eval vm_compute in
    match mapM (make_region default_settings) sample_contours with
    | Some regions => regions
    | None => []
    end.

Definition sample_region : Region :=
  Eval vm_compute in nth 1 sample_regions (mkRegion [] nan 0 0).

(** ** Buffers *)

(** The values a [Uint8ClampedArray] holds. *)
Definition is_byte (b : Z) : Prop := (0 <= b <= 255)%Z.

Definition byte_buffer (d : ByteArray) : Prop := Forall is_byte d.

(** All 256 bytes, for properties decided by enumeration. *)
Definition all_bytes : list Z := map Z.of_nat (seq 0 256).

(** The bytes of pixel number [p] that a stride-4 loop reads. *)
Definition red_of (d : ByteArray) (p : nat) : option Z := nth_error d (4 * p).
Definition green_of (d : ByteArray) (p : nat) : option Z :=
  nth_error d (4 * p + 1).
Definition blue_of (d : ByteArray) (p : nat) : option Z :=
  nth_error d (4 * p + 2).

(** The read of colour channel [c] among the three reads of a pixel. *)
Definition channel (r g b : option Z) (c : nat) : option Z :=
  match c with
  | O => r
  | S O => g
  | _ => b
  end.

(** The byte [toGrayscale] stores into the colour channels of pixel [p]. *)
Definition gray_of (d : ByteArray) (p : nat) : Z :=
  JsNum.to_uint8_clamp
    (Stage.luminosity (red_of d p) (green_of d p) (blue_of d p)).

(** A small colour image of two pixels. *)
Definition two_pixels : ImageData :=
  mkImageData 2 1 [10; 200; 30; 255; 0; 255; 128; 7]%Z.

(** The byte [applyBlur] stores into colour channel [c] of the pixel
    [(x, y)] of its loops. *)
Definition blur_value (imageData : ImageData) (radius x y c : Z) : Z :=
  let size := (JsNum.of_Z radius * 2 + 1)%float in
  let area := (size * size)%float in
  let '(r, g, b) := Stage.blur_sums imageData radius x y in
  JsNum.to_uint8_clamp
    ((if (c =? 0)%Z then r else if (c =? 1)%Z then g else b) / area).

(** The sum the window loops of [applyBlur] accumulate when every read
    of the channel gives the byte [v]. *)
Definition flat_sum (radius v : Z) : float :=
  fold_left
    (fun (s : float) (_ : Z) =>
       fold_left (fun (s : float) (_ : Z) => (s + JsNum.of_Z v)%float)
         (zrange (- radius) (radius + 1)) s)
    (zrange (- radius) (radius + 1)) zero.

(** A uniformly coloured image of 5 by 5 pixels. *)
Definition flat_image : ImageData :=
  mkImageData 5 5 (concat (repeat [40; 80; 120; 255]%Z 25)).

(** ** Shape of a contour *)

(** The point is a white pixel of the image. *)
Definition white (imageData : ImageData) (p : Point) : Prop :=
  is_white (getPixel imageData (pt_x p) (pt_y p)) = true.

(** [hasBlackNeighbor] as the scan of [findContours] computes it at
    [(x, y)]: one of the four direct neighbours reads at most 127. *)
Definition has_black_neighbour (imageData : ImageData) (x y : Z) : bool :=
  is_black (getPixel imageData (x - 1) y)
  || is_black (getPixel imageData (x + 1) y)
  || is_black (getPixel imageData x (y - 1))
  || is_black (getPixel imageData x (y + 1)).

(** Two points are neighbours in the Moore sense: distinct, and at most
    one pixel apart in each coordinate. *)
Definition adjacent (p q : Point) : Prop :=
  Z.max (Z.abs (pt_x q - pt_x p)) (Z.abs (pt_y q - pt_y p)) = 1%Z.

(** Each point of the list is a neighbour of the one after it. *)
Fixpoint chained (c : Contour) : Prop :=
  match c with
  | p :: rest =>
      match rest with
      | q :: _ => adjacent p q /\ chained rest
      | [] => True
      end
  | [] => True
  end.


(** The first contour found on [spur_image]. *)
Definition spur_contour : Contour :=
  Eval vm_compute in nth 0 (findContours spur_image) [].

(** ** Shape of a simplified contour *)

(** [l] is [m] with some elements left out, the order kept. *)
Inductive subsequence {A : Type} : list A -> list A -> Prop :=
| sub_nil : subsequence [] []
| sub_keep (x : A) (l m : list A) :
    subsequence l m -> subsequence (x :: l) (x :: m)
| sub_drop (x : A) (l m : list A) :
    subsequence l m -> subsequence l (x :: m).

(** The window [Math.max(1, Math.floor(factor * 3))] of [smoothContour]. *)
Definition smoothing_window (factor : float) : float :=
  JsNum.max 1%float (JsNum.floor (factor * 3)%float).

(** A triangle, as a simplified contour. *)
Definition triangle : list Entry :=
  map (fun xy => Pt (num_point (mkPoint (fst xy) (snd xy))))
    [(0, 0); (9, 0); (0, 9)]%Z.

(** ** Images of the pipeline *)

(** [b] has the dimensions and the buffer length of [a], and its
    buffer holds bytes. *)
Definition same_shape (a b : ImageData) : Prop :=
  width b = width a /\ height b = height a /\
  length (data b) = length (data a) /\ byte_buffer (data b).

(** The pixel [(x, y)] lies on the one-pixel frame of the image. *)
Definition on_frame (imageData : ImageData) (x y : Z) : Prop :=
  (0 <= x < width imageData /\ 0 <= y < height imageData /\
   (x = 0 \/ x = width imageData - 1 \/
    y = 0 \/ y = height imageData - 1))%Z.

(** The byte stored for [k * step] with [step = 255 / levels]: the
    colour value number [k] of a posterized image. *)
Definition level_value (levels k : Z) : Z :=
  JsNum.to_uint8_clamp (JsNum.of_Z k * (255 / JsNum.of_Z levels)).

(** The cutoff [level * 2.55] of [threshold] for a whole level. *)
Definition cutoff (level : Z) : float :=
  (JsNum.of_Z level * JsNum.lit_2_55)%float.

(** Two images of 3 by 3 pixels with the same red channel and different
    green, blue and alpha channels. *)
Definition red_twin_a : ImageData :=
  mkImageData 3 3
    (flat_map (fun r => [r; 0; 0; 255]%Z)
       [10; 20; 30; 40; 50; 60; 70; 80; 200]%Z).

Definition red_twin_b : ImageData :=
  mkImageData 3 3
    (flat_map (fun r => [r; 255; 90; 7]%Z)
       [10; 20; 30; 40; 50; 60; 70; 80; 200]%Z).

(* ================================================================== *)
(** * Properties                                                       *)
(* ================================================================== *)

(** ** Typed arrays *)

Lemma array_set_nat_length (a : ByteArray) (i : nat) (v : Z) :
  length (array_set_nat a i v) = length a.
Proof.
  revert i; induction a as [|h t IH]; intros [|i]; simpl; auto.
Qed.

Lemma array_set_nat_same (a : ByteArray) (i : nat) (v : Z) :
  (i < length a)%nat -> nth_error (array_set_nat a i v) i = Some v.
Proof.
  revert i; induction a as [|h t IH]; intros [|i] Hi; simpl in *;
    try lia; auto.
  apply IH; lia.
Qed.

Lemma array_set_nat_other (a : ByteArray) (i j : nat) (v : Z) :
  i <> j -> nth_error (array_set_nat a i v) j = nth_error a j.
Proof.
  revert i j; induction a as [|h t IH]; intros [|i] [|j] Hij; simpl;
    try congruence; auto.
Qed.

Lemma array_set_nat_beyond (a : ByteArray) (i : nat) (v : Z) :
  (length a <= i)%nat -> array_set_nat a i v = a.
Proof.
  revert i; induction a as [|h t IH]; intros [|i] Hi; simpl in *;
    try lia; auto.
  f_equal; apply IH; lia.
Qed.

Lemma array_set_length (a : ByteArray) (i v : Z) :
  length (array_set a i v) = length a.
Proof.
  unfold array_set; destruct (i <? 0)%Z; auto using array_set_nat_length.
Qed.

Lemma array_get_set (v : ByteArray) (i j b : Z) :
  array_get (array_set v i b) j =
    if ((j =? i) && (0 <=? i) && (i <? Z.of_nat (length v)))%Z
    then Some b else array_get v j.
Proof.
  unfold array_get, array_set.
  destruct (Z.ltb_spec i 0) as [Hi|Hi].
  { replace (0 <=? i)%Z with false by (symmetry; apply Z.leb_gt; lia).
    now rewrite Bool.andb_false_r. }
  replace (0 <=? i)%Z with true by (symmetry; apply Z.leb_le; lia).
  rewrite Bool.andb_true_r.
  destruct (Z.eqb_spec j i) as [->|Hji]; cbn [andb].
  - destruct (Z.ltb_spec i 0); [lia|].
    destruct (Z.ltb_spec i (Z.of_nat (length v))) as [Hlt|Hge].
    + apply array_set_nat_same; lia.
    + rewrite array_set_nat_beyond by lia. reflexivity.
  - destruct (Z.ltb_spec j 0); [reflexivity|].
    apply array_set_nat_other; lia.
Qed.

(** ** Loop ranges *)

Lemma in_zrange (lo hi v : Z) :
  In v (zrange lo hi) <-> (lo <= v < hi)%Z.
Proof.
  unfold zrange; rewrite in_map_iff; split.
  - intros (k & <- & Hk); apply in_seq in Hk; lia.
  - intros Hv; exists (Z.to_nat (v - lo)); split; [lia|].
    apply in_seq; lia.
Qed.

Lemma in_interior (w h x y : Z) :
  In (x, y) (interior w h) <-> (1 <= x < w - 1 /\ 1 <= y < h - 1)%Z.
Proof.
  unfold interior; rewrite in_flat_map; split.
  - intros (y' & Hy & Hx); apply in_map_iff in Hx.
    destruct Hx as (x' & Heq & Hx); inversion Heq; subst.
    apply in_zrange in Hy, Hx; lia.
  - intros [Hx Hy]; exists y; split; [now apply in_zrange|].
    apply in_map_iff; exists x; split; [reflexivity|now apply in_zrange].
Qed.

(** ** Binarizer *)

Section Threshold.

Variable thresh : float.

Lemma threshold_step_length (d : ByteArray) (i : nat) :
  length (threshold_step thresh d i) = length d.
Proof.
  unfold threshold_step; now rewrite !array_set_nat_length.
Qed.

Lemma threshold_step_spec (d : ByteArray) (i j : nat) :
  nth_error (threshold_step thresh d i) j =
    if ((i <=? j) && (j <=? i + 2) && (j <? length d))%nat
    then Some (binarized thresh (nth_error d i))
    else nth_error d j.
Proof.
  unfold threshold_step.
  set (value := binarized thresh (nth_error d i)).
  destruct (Nat.ltb_spec j (length d)) as [Hj|Hj].
  - rewrite Bool.andb_true_r.
    destruct (Nat.eq_dec j i) as [->|Hi].
    { rewrite Nat.leb_refl; simpl.
      replace (i <=? i + 2)%nat with true by (symmetry; apply Nat.leb_le; lia).
      apply array_set_nat_same; now rewrite !array_set_nat_length. }
    rewrite array_set_nat_other by congruence.
    destruct (Nat.eq_dec j (i + 1)) as [->|Hi1].
    { replace (i <=? i + 1)%nat with true by (symmetry; apply Nat.leb_le; lia).
      replace (i + 1 <=? i + 2)%nat with true
        by (symmetry; apply Nat.leb_le; lia).
      apply array_set_nat_same; now rewrite !array_set_nat_length. }
    rewrite array_set_nat_other by congruence.
    destruct (Nat.eq_dec j (i + 2)) as [->|Hi2].
    { replace (i <=? i + 2)%nat with true by (symmetry; apply Nat.leb_le; lia).
      rewrite Nat.leb_refl.
      now apply array_set_nat_same. }
    rewrite array_set_nat_other by congruence.
    destruct (Nat.leb_spec i j), (Nat.leb_spec j (i + 2)); simpl; auto; lia.
  - rewrite Bool.andb_false_r.
    assert (Hnone : forall a : ByteArray,
               length a = length d -> nth_error a j = None).
    { intros a Ha; apply nth_error_None; lia. }
    rewrite Hnone; [symmetry; now apply Hnone|].
    now rewrite !array_set_nat_length.
Qed.

(** The state of the array after the first [k] iterations: the colour
    channels of the first [k] pixels are binarized from the red channel
    the pixel had in the input, everything else is untouched. *)
Lemma threshold_prefix (d : ByteArray) (k : nat) :
  let d' := fold_left (threshold_step thresh)
              (map (fun q => 4 * q)%nat (seq 0 k)) d in
  length d' = length d /\
  forall j,
    nth_error d' j =
      if ((j / 4 <? k) && (j mod 4 <? 3) && (j <? length d))%nat
      then Some (binarized thresh (nth_error d (4 * (j / 4))))
      else nth_error d j.
Proof.
  induction k as [|k IH]; cbv zeta in *.
  - simpl; split; auto.
  - rewrite seq_S, map_app, fold_left_app; cbn [map fold_left Nat.add].
    destruct IH as [Hlen IH].
    set (d' := fold_left (threshold_step thresh)
                 (map (fun q => (4 * q)%nat) (seq 0 k)) d) in *.
    split; [now rewrite threshold_step_length|].
    intro j.
    rewrite threshold_step_spec, Hlen.
    assert (Hred : nth_error d' (4 * k) = nth_error d (4 * k)).
    { rewrite IH.
      replace (4 * k / 4)%nat with k
        by (rewrite Nat.mul_comm; symmetry; apply Nat.div_mul; lia).
      now rewrite Nat.ltb_irrefl. }
    rewrite Hred, IH.
    pose proof (Nat.div_mod_eq j 4) as Hdm.
    pose proof (Nat.mod_upper_bound j 4 ltac:(lia)) as Hm.
    destruct (Nat.ltb_spec j (length d)) as [Hj|Hj];
      rewrite ?Bool.andb_true_r, ?Bool.andb_false_r; auto.
    destruct (Nat.leb_spec (4 * k) j) as [H1|H1];
      destruct (Nat.leb_spec j (4 * k + 2)) as [H2|H2];
      destruct (Nat.ltb_spec (j / 4) (S k)) as [H3|H3];
      destruct (Nat.ltb_spec (j / 4) k) as [H4|H4];
      destruct (Nat.ltb_spec (j mod 4) 3) as [H5|H5];
      cbn [andb]; auto; try lia.
    replace (j / 4)%nat with k by lia. reflexivity.
Qed.

End Threshold.

(** After [threshold], a colour channel of a pixel holds the value
    binarized from the red channel that pixel had before. *)
Lemma threshold_channel (imageData : ImageData) (level : float) (p c : nat) :
  (c < 3)%nat ->
  (4 * p + c < length (data imageData))%nat ->
  nth_error (data (threshold imageData level)) (4 * p + c) =
    Some (binarized (level * JsNum.lit_2_55)
            (nth_error (data imageData) (4 * p))).
Proof.
  intros Hc Hlen.
  unfold threshold, stride4; cbn [data].
  destruct (threshold_prefix (level * JsNum.lit_2_55) (data imageData)
              ((length (data imageData) + 3) / 4)) as [_ H].
  rewrite H; clear H.
  assert (Hdiv : ((4 * p + c) / 4 = p)%nat).
  { symmetry; apply Nat.div_unique with c; lia. }
  assert (Hmod : ((4 * p + c) mod 4 = c)%nat).
  { symmetry; apply Nat.mod_unique with p; lia. }
  rewrite Hdiv, Hmod.
  assert (Hp : (p < (length (data imageData) + 3) / 4)%nat).
  { pose proof (Nat.div_mod_eq (length (data imageData) + 3) 4) as Hq.
    pose proof (Nat.mod_upper_bound (length (data imageData) + 3) 4
                  ltac:(lia)) as Hr.
    lia. }
  apply Nat.ltb_lt in Hp, Hc, Hlen.
  now rewrite Hp, Hc, Hlen.
Qed.

(** The alpha channel is copied unchanged. *)
Lemma threshold_alpha (imageData : ImageData) (level : float) (p : nat) :
  nth_error (data (threshold imageData level)) (4 * p + 3) =
    nth_error (data imageData) (4 * p + 3).
Proof.
  unfold threshold, stride4; cbn [data].
  destruct (threshold_prefix (level * JsNum.lit_2_55) (data imageData)
              ((length (data imageData) + 3) / 4)) as [_ H].
  rewrite H; clear H.
  assert (Hmod : ((4 * p + 3) mod 4 = 3)%nat).
  { symmetry; apply Nat.mod_unique with p; lia. }
  rewrite Hmod, Nat.ltb_irrefl, Bool.andb_false_r. reflexivity.
Qed.

Lemma threshold_length (imageData : ImageData) (level : float) :
  length (data (threshold imageData level)) = length (data imageData).
Proof.
  unfold threshold, stride4; cbn [data].
  apply (threshold_prefix (level * JsNum.lit_2_55) (data imageData)).
Qed.

(** C3.  After [threshold(level)], every colour channel (R, G, B) of
    every pixel is exactly 0 or exactly 255, and it is 255 exactly when
    the value the code reads for the pixel (its red channel [r]) is
    strictly greater than the cutoff [level * 2.55].  Nothing is claimed
    of the alpha channel. *)
Theorem threshold_binary_output
  (imageData : ImageData) (level : float) (p c : nat) :
  (c < 3)%nat ->
  (4 * p + c < length (data imageData))%nat ->
  exists r v : Z,
    nth_error (data imageData) (4 * p) = Some r /\
    nth_error (data (threshold imageData level)) (4 * p + c) = Some v /\
    (v = 0%Z \/ v = 255%Z) /\
    (v = 255%Z <->
     JsNum.gt (JsNum.of_Z r) (level * JsNum.lit_2_55) = true).
Proof.
  intros Hc Hlen.
  destruct (nth_error (data imageData) (4 * p)) as [r|] eqn:Hr.
  2:{ apply nth_error_None in Hr; lia. }
  exists r, (binarized (level * JsNum.lit_2_55) (Some r)).
  split; [reflexivity|].
  split; [rewrite <- Hr; now apply threshold_channel|].
  unfold binarized, byte_gt.
  destruct (JsNum.gt (JsNum.of_Z r) (level * JsNum.lit_2_55)); split;
    auto; split; intro; congruence.
Qed.

Lemma threshold_binary_output_witness :
  let img := mkImageData 1 1 [200; 3; 4; 7]%Z in
  (1 < 3)%nat /\ (4 * 0 + 1 < length (data img))%nat /\
  exists r v : Z,
    nth_error (data img) (4 * 0) = Some r /\
    nth_error (data (threshold img 50%float)) (4 * 0 + 1) = Some v /\
    (v = 0%Z \/ v = 255%Z) /\
    (v = 255%Z <->
     JsNum.gt (JsNum.of_Z r) (50 * JsNum.lit_2_55) = true).
Proof.
  cbv zeta.
  split; [lia|]. split; [simpl; lia|].
  apply (threshold_binary_output (mkImageData 1 1 [200; 3; 4; 7]%Z)
           50%float 0 1); simpl; lia.
Defined.

(** C10.  The decision of [threshold] reads the red channel only: two
    buffers of the same dimensions that agree on the red byte of every
    pixel get identical R, G and B output channels, whatever their green
    and blue bytes are. *)
Theorem threshold_reads_red_only
  (img1 img2 : ImageData) (level : float) :
  width img1 = width img2 ->
  height img1 = height img2 ->
  length (data img1) = length (data img2) ->
  (forall p, nth_error (data img1) (4 * p) = nth_error (data img2) (4 * p)) ->
  forall p c, (c < 3)%nat ->
    nth_error (data (threshold img1 level)) (4 * p + c) =
    nth_error (data (threshold img2 level)) (4 * p + c).
Proof.
  intros _ _ Hlen Hred p c Hc.
  destruct (Nat.lt_ge_cases (4 * p + c) (length (data img1))) as [Hin|Hout].
  - rewrite !threshold_channel by (auto; lia).
    now rewrite Hred.
  - transitivity (@None Z); [|symmetry];
      apply nth_error_None; rewrite threshold_length; lia.
Qed.

Lemma threshold_reads_red_only_witness :
  let img1 := mkImageData 1 2 [200; 3; 4; 7; 90; 250; 0; 255]%Z in
  let img2 := mkImageData 1 2 [200; 99; 0; 1; 90; 0; 251; 0]%Z in
  width img1 = width img2 /\
  height img1 = height img2 /\
  length (data img1) = length (data img2) /\
  (forall p, nth_error (data img1) (4 * p) = nth_error (data img2) (4 * p)) /\
  nth_error (data (threshold img1 50%float)) (4 * 1 + 2) =
  nth_error (data (threshold img2 50%float)) (4 * 1 + 2).
Proof.
  cbv zeta.
  assert (Hred : forall p,
    nth_error (data (mkImageData 1 2 [200; 3; 4; 7; 90; 250; 0; 255]%Z)) (4 * p)
    = nth_error (data (mkImageData 1 2 [200; 99; 0; 1; 90; 0; 251; 0]%Z)) (4 * p)).
  { intros [|[|p]]; try reflexivity.
    replace (4 * S (S p))%nat with (8 + 4 * p)%nat by lia. reflexivity. }
  split; [reflexivity|]. split; [reflexivity|]. split; [reflexivity|].
  split; [exact Hred|].
  apply (threshold_reads_red_only
           (mkImageData 1 2 [200; 3; 4; 7; 90; 250; 0; 255]%Z)
           (mkImageData 1 2 [200; 99; 0; 1; 90; 0; 251; 0]%Z)
           50%float eq_refl eq_refl eq_refl Hred 1%nat 2%nat).
  lia.
Defined.

(** ** Edge detector *)

Section DetectEdges.

Variable imageData : ImageData.

Let w : Z := width imageData.

(** The loop body writes the four bytes of its pixel and nothing else. *)
Lemma detectEdges_pixel_length (a : ByteArray) (xy : Z * Z) :
  length (detectEdges_pixel imageData a xy) = length a.
Proof.
  destruct xy as [x y]; unfold detectEdges_pixel.
  now rewrite !array_set_length.
Qed.

Lemma detectEdges_pixel_other (a : ByteArray) (x y k : Z) :
  (k < (y * w + x) * 4 \/ (y * w + x) * 4 + 3 < k)%Z ->
  array_get (detectEdges_pixel imageData a (x, y)) k = array_get a k.
Proof.
  intros Hk; unfold detectEdges_pixel; fold w.
  rewrite !array_get_set.
  repeat match goal with
         | |- context [(k =? ?i)%Z] => destruct (Z.eqb_spec k i); [lia|]
         end.
  reflexivity.
Qed.

Lemma detectEdges_pixel_own (a : ByteArray) (x y c : Z) :
  (0 <= (y * w + x) * 4)%Z ->
  ((y * w + x) * 4 + 3 < Z.of_nat (length a))%Z ->
  (0 <= c <= 3)%Z ->
  array_get (detectEdges_pixel imageData a (x, y)) ((y * w + x) * 4 + c)
  = Some (if (c <? 3)%Z then edge_value imageData x y else 255%Z).
Proof.
  intros Hlo Hhi Hc; unfold detectEdges_pixel; fold w.
  set (idx := ((y * w + x) * 4)%Z) in *.
  rewrite !array_get_set, !array_set_length.
  assert (Hcases : (c = 0 \/ c = 1 \/ c = 2 \/ c = 3)%Z) by lia.
  destruct Hcases as [Hc0|[Hc1|[Hc2|Hc3]]]; subst c;
    repeat match goal with
           | |- context [(?a =? ?b)%Z] =>
               first [ replace (a =? b)%Z with true
                         by (symmetry; apply Z.eqb_eq; lia)
                     | replace (a =? b)%Z with false
                         by (symmetry; apply Z.eqb_neq; lia) ]
           | |- context [(?a <=? ?b)%Z] =>
               replace (a <=? b)%Z with true
                 by (symmetry; apply Z.leb_le; lia)
           | |- context [(?a <? ?b)%Z] =>
               replace (a <? b)%Z with true
                 by (symmetry; apply Z.ltb_lt; lia)
           end; reflexivity.
Qed.

(** Pixels whose bytes do not contain index [k] leave it alone. *)
Lemma detectEdges_fold_other (l : list (Z * Z)) (a : ByteArray) (k : Z) :
  (forall x y, In (x, y) l ->
     k < (y * w + x) * 4 \/ (y * w + x) * 4 + 3 < k)%Z ->
  array_get (fold_left (detectEdges_pixel imageData) l a) k = array_get a k.
Proof.
  revert a; induction l as [|[x y] l IH]; intros a Hl; cbn [fold_left]; auto.
  rewrite IH by (intros; apply Hl; now right).
  apply detectEdges_pixel_other, Hl. now left.
Qed.

(** A pixel of the loop whose bytes no other pixel of the loop shares
    ends with the bytes its own iteration wrote. *)
Lemma detectEdges_fold_own (l : list (Z * Z)) (a : ByteArray) (x y c : Z) :
  In (x, y) l ->
  (forall x' y', In (x', y') l -> (x', y') <> (x, y) ->
     (y' * w + x') * 4 + 3 < (y * w + x) * 4 \/
     (y * w + x) * 4 + 3 < (y' * w + x') * 4)%Z ->
  (0 <= (y * w + x) * 4)%Z ->
  ((y * w + x) * 4 + 3 < Z.of_nat (length a))%Z ->
  (0 <= c <= 3)%Z ->
  array_get (fold_left (detectEdges_pixel imageData) l a)
    ((y * w + x) * 4 + c)
  = Some (if (c <? 3)%Z then edge_value imageData x y else 255%Z).
Proof.
  revert a; induction l as [|[x' y'] l IH]; intros a Hin Hsep Hlo Hhi Hc;
    [destruct Hin|].
  cbn [fold_left].
  assert (Hdec : {In (x, y) l} + {~ In (x, y) l}).
  { apply in_dec. decide equality; apply Z.eq_dec. }
  destruct Hdec as [Hl|Hl].
  - apply IH; auto.
    + intros; apply Hsep; auto. now right.
    + now rewrite detectEdges_pixel_length.
  - destruct Hin as [Heq|Hin]; [|contradiction].
    inversion Heq; subst x' y'.
    rewrite detectEdges_fold_other.
    + now apply detectEdges_pixel_own.
    + intros x' y' Hin'.
      assert (Hne : (x', y') <> (x, y)) by (intros Heq'; congruence).
      specialize (Hsep x' y' (or_intror Hin') Hne). lia.
Qed.

(** On a buffer of the declared size, the output of [detectEdges] holds,
    at every pixel of the interior, the edge value in its three colour
    channels and 255 in alpha. *)
Lemma detectEdges_interior (radius : option float) (x y c : Z) :
  length (data imageData) = Z.to_nat (4 * w * height imageData) ->
  In (x, y) (interior w (height imageData)) ->
  (0 <= c <= 3)%Z ->
  array_get (data (detectEdges imageData radius)) ((y * w + x) * 4 + c)
  = Some (if (c <? 3)%Z then edge_value imageData x y else 255%Z).
Proof.
  intros Hlen Hin Hc. unfold detectEdges; cbn [data]. fold w.
  pose proof (proj1 (in_interior _ _ _ _) Hin) as [Hx Hy].
  apply detectEdges_fold_own; auto.
  - intros x' y' Hin' Hne.
    apply in_interior in Hin'. destruct Hin' as [Hx' Hy'].
    destruct (Z.eq_dec y' y) as [->|Hyy].
    + assert (x' <> x) by congruence. lia.
    + nia.
  - nia.
  - rewrite repeat_length, Hlen. nia.
Qed.

End DetectEdges.

(** C8.  The output of [detectEdges] does not depend on the radius: the
    function never reads its [radius] argument, the Sobel kernels being
    fixed 3x3 tables. *)
Theorem detectEdges_radius_independent
  (imageData : ImageData) (r1 r2 : option float) :
  detectEdges imageData r1 = detectEdges imageData r2.
Proof.
  reflexivity.
Qed.

(** ** Contour tracer *)

(** A loop invariant holds after a [fold_left] when every iteration
    preserves it. *)
Lemma fold_left_invariant {S X : Type} (P : S -> Prop) (f : S -> X -> S)
  (l : list X) (s : S) :
  P s -> (forall s x, In x l -> P s -> P (f s x)) -> P (fold_left f l s).
Proof.
  revert s; induction l as [|x l IH]; intros s Hs Hstep; simpl; auto.
  apply IH; [apply Hstep; simpl; auto|].
  intros s' x' Hin; apply Hstep; simpl; auto.
Qed.

(** Only pixels inside the image read as white. *)
Lemma white_in_bounds (imageData : ImageData) (x y : Z) :
  is_white (getPixel imageData x y) = true ->
  in_bounds imageData (mkPoint x y).
Proof.
  unfold getPixel, in_bounds; simpl.
  destruct (Z.ltb_spec x 0); [discriminate|].
  destruct (Z.leb_spec (width imageData) x); [discriminate|].
  destruct (Z.ltb_spec y 0); [discriminate|].
  destruct (Z.leb_spec (height imageData) y); [discriminate|].
  simpl; lia.
Qed.

Lemma find_next_white (imageData : ImageData) (x y dir : Z) (steps : list Z)
  (nx ny newDir : Z) :
  find_next imageData x y dir steps = Some (nx, ny, newDir) ->
  is_white (getPixel imageData nx ny) = true.
Proof.
  induction steps as [|i steps IH]; cbn [find_next]; [discriminate|].
  set (d := nth (Z.to_nat (Z.rem (dir + i + 5) 8)) directions (0, 0)%Z).
  destruct (is_white (getPixel imageData (x + fst d) (y + snd d))) eqn:Hw;
    auto.
  intros Heq; inversion Heq; subst; exact Hw.
Qed.

Lemma is_marked_set_same (v : ByteArray) (i : Z) :
  (0 <= i < Z.of_nat (length v))%Z ->
  is_marked (array_set v i 1) i = true.
Proof.
  intros Hi; unfold is_marked; rewrite array_get_set, Z.eqb_refl.
  replace (0 <=? i)%Z with true by (symmetry; apply Z.leb_le; lia).
  replace (i <? Z.of_nat (length v))%Z with true
    by (symmetry; apply Z.ltb_lt; lia).
  reflexivity.
Qed.

Lemma is_marked_set_mono (v : ByteArray) (i j : Z) :
  is_marked v j = true -> is_marked (array_set v i 1) j = true.
Proof.
  unfold is_marked; rewrite array_get_set.
  destruct ((j =? i) && (0 <=? i) && (i <? Z.of_nat (length v)))%Z; auto.
Qed.

Lemma pixel_index_range (imageData : ImageData) (p : Point) :
  in_bounds imageData p ->
  (0 <= pixel_index imageData p < width imageData * height imageData)%Z.
Proof.
  unfold in_bounds, pixel_index; intros [Hx Hy]; nia.
Qed.

Section TraceLoop.

Variable imageData : ImageData.
Variables startX startY : Z.


(** The loop ends within [iterations_left] iterations, each of which
    pushes one point; it is left at the cap only after all of them. *)
Lemma trace_loop_total (fuel : nat) (st : TraceState) :
  (iterations_left imageData st <= fuel)%nat ->
  exists contour visited stop,
    trace_loop fuel imageData startX startY st
      = Some (contour, visited, stop) /\
    (length (ts_contour st) < length contour
     <= length (ts_contour st) + iterations_left imageData st)%nat /\
    (stop = StopIterationCap ->
     length contour
       = (length (ts_contour st) + iterations_left imageData st)%nat).
Proof.
  revert st; induction fuel as [|fuel IH]; intros st Hfuel.
  { unfold iterations_left in Hfuel; lia. }
  cbn [trace_loop].
  destruct (find_next imageData (ts_x st) (ts_y st) (ts_dir st) (zrange 0 8))
    as [[[nx ny] newDir]|].
  2:{ do 3 eexists; split; [reflexivity|].
      rewrite length_app; cbn [length]; unfold iterations_left.
      split; [lia|discriminate]. }
  destruct (negb (ts_firstPoint st) && (nx =? startX)%Z && (ny =? startY)%Z).
  { do 3 eexists; split; [reflexivity|].
    rewrite length_app; cbn [length]; unfold iterations_left.
    split; [lia|discriminate]. }
  destruct (Z.ltb_spec (ts_iter st + 1) (width imageData * height imageData))
    as [Hlt|Hge].
  - set (st' := mkTraceState nx ny newDir false (ts_iter st + 1)
                  (ts_contour st ++ [mkPoint (ts_x st) (ts_y st)])
                  (array_set (ts_visited st)
                     (ts_y st * width imageData + ts_x st) 1)).
    assert (Hleft : iterations_left imageData st
                    = S (iterations_left imageData st')).
    { unfold iterations_left, st'; cbn [ts_iter]; lia. }
    destruct (IH st') as (c & v & s & Heq & Hlen & Hcap); [lia|].
    exists c, v, s; split; [exact Heq|].
    unfold st' in Hlen, Hcap; cbn [ts_contour] in Hlen, Hcap.
    rewrite length_app in Hlen, Hcap; cbn [length] in Hlen, Hcap.
    fold st' in Hlen, Hcap.
    split; [lia|]. intros Hs; specialize (Hcap Hs); lia.
  - do 3 eexists; split; [reflexivity|].
    rewrite length_app; cbn [length]; unfold iterations_left.
    split; [lia|]. intros _; lia.
Qed.

(** A rule for invariants of the loop: [Inv] relates the current
    position with the contour and the bitmap at the start of an
    iteration, [Post] is what the pushed point establishes. *)
Lemma trace_loop_rule
  (Inv : Z -> Z -> Contour -> ByteArray -> Prop)
  (Post : Contour -> ByteArray -> Prop) :
  (forall x y c v, Inv x y c v ->
     Post (c ++ [mkPoint x y])
          (array_set v (y * width imageData + x) 1)) ->
  (forall x y c v dir nx ny newDir, Inv x y c v ->
     find_next imageData x y dir (zrange 0 8) = Some (nx, ny, newDir) ->
     Inv nx ny (c ++ [mkPoint x y])
         (array_set v (y * width imageData + x) 1)) ->
  forall fuel st contour visited stop,
    Inv (ts_x st) (ts_y st) (ts_contour st) (ts_visited st) ->
    trace_loop fuel imageData startX startY st
      = Some (contour, visited, stop) ->
    Post contour visited.
Proof.
  intros Hpost Hstep fuel.
  induction fuel as [|fuel IH]; intros st contour visited stop Hinv;
    [discriminate|].
  cbn [trace_loop].
  destruct (find_next imageData (ts_x st) (ts_y st) (ts_dir st) (zrange 0 8))
    as [[[nx ny] newDir]|] eqn:Hnext.
  2:{ intros Heq; inversion Heq; subst; now apply Hpost. }
  destruct (negb (ts_firstPoint st) && (nx =? startX)%Z && (ny =? startY)%Z).
  { intros Heq; inversion Heq; subst; now apply Hpost. }
  destruct (ts_iter st + 1 <? width imageData * height imageData)%Z.
  - apply IH; cbn [ts_x ts_y ts_contour ts_visited].
    eapply Hstep; eauto.
  - intros Heq; inversion Heq; subst; now apply Hpost.
Qed.

End TraceLoop.

Lemma hd_error_app_nonempty {X : Type} (l l' : list X) (a : X) :
  hd_error (l ++ [a] ++ l') = hd_error (l ++ [a]).
Proof.
  destruct l; reflexivity.
Qed.

Section TraceContour.

Variable imageData : ImageData.
Variable visited0 : ByteArray.
Variables startX startY : Z.

Hypothesis visited0_length :
  length visited0 = Z.to_nat (width imageData * height imageData).
Hypothesis start_in_bounds : in_bounds imageData (mkPoint startX startY).

(** [traceContour] is the result of its loop. *)
Lemma traceContour_loop :
  trace_loop (trace_fuel imageData) imageData startX startY
    (trace_init visited0 startX startY)
  = Some (traceContour imageData visited0 startX startY).
Proof.
  unfold traceContour.
  destruct (trace_loop_total imageData startX startY (trace_fuel imageData)
              (trace_init visited0 startX startY))
    as (c & v & s & Heq & _).
  { unfold iterations_left, trace_fuel, trace_init; cbn [ts_iter]; lia. }
  now rewrite Heq.
Qed.

(** What a trace from a point inside the image establishes: the contour
    starts at the seed and stays inside the image, each of its points is
    marked, and no mark is removed. *)
Lemma traceContour_post :
  let '(contour, visited, _) :=
    traceContour imageData visited0 startX startY in
  Forall (in_bounds imageData) contour /\
  length visited = length visited0 /\
  (forall p, In p contour -> marked imageData visited p) /\
  (forall p, marked imageData visited0 p -> marked imageData visited p) /\
  hd_error contour = Some (mkPoint startX startY).
Proof.
  pose proof traceContour_loop as Hloop.
  destruct (traceContour imageData visited0 startX startY)
    as [[contour visited] stop].
  pose (Post := fun (c : Contour) (v : ByteArray) =>
    Forall (in_bounds imageData) c /\
    length v = length visited0 /\
    (forall p, In p c -> marked imageData v p) /\
    (forall p, marked imageData visited0 p -> marked imageData v p) /\
    hd_error c = Some (mkPoint startX startY)).
  pose (Inv := fun (x y : Z) (c : Contour) (v : ByteArray) =>
    in_bounds imageData (mkPoint x y) /\
    Forall (in_bounds imageData) c /\
    length v = length visited0 /\
    (forall p, In p c -> marked imageData v p) /\
    (forall p, marked imageData visited0 p -> marked imageData v p) /\
    hd_error (c ++ [mkPoint x y]) = Some (mkPoint startX startY)).
  assert (Hpush : forall x y c v, Inv x y c v ->
            Post (c ++ [mkPoint x y])
                 (array_set v (y * width imageData + x) 1)).
  { intros x y c v (Hxy & Hc & Hlen & Hmk & Hmono & Hhd).
    repeat split; auto.
    - apply Forall_app; split; auto.
    - now rewrite array_set_length.
    - intros p Hp; apply in_app_or in Hp; destruct Hp as [Hp|[<-|[]]].
      + apply is_marked_set_mono; now apply Hmk.
      + apply is_marked_set_same.
        pose proof (pixel_index_range imageData (mkPoint x y) Hxy) as Hr.
        unfold pixel_index in *; cbn [pt_x pt_y] in *.
        rewrite Hlen, visited0_length; lia.
    - intros p Hp; apply is_marked_set_mono; now apply Hmono. }
  apply (trace_loop_rule imageData startX startY Inv Post Hpush)
    with (fuel := trace_fuel imageData)
         (st := trace_init visited0 startX startY) (stop := stop); auto.
  - intros x y c v dir nx ny newDir Hinv Hnext.
    destruct (Hpush x y c v Hinv) as (Hc & Hlen & Hmk & Hmono & Hhd).
    refine (conj _ (conj Hc (conj Hlen (conj Hmk (conj Hmono _))))).
    + apply (white_in_bounds imageData nx ny).
      eapply find_next_white; eauto.
    + rewrite <- app_assoc, hd_error_app_nonempty; exact Hhd.
  - unfold trace_init; cbn [ts_x ts_y ts_contour ts_visited].
    refine (conj start_in_bounds
              (conj (Forall_nil _) (conj eq_refl (conj _ (conj _ eq_refl))))).
    + intros p [].
    + auto.
Qed.

End TraceContour.

(** Pairs in list order. *)
Lemma ForallOrdPairs_snoc {X : Type} (R : X -> X -> Prop) (l : list X) (x : X) :
  ForallOrdPairs R l -> Forall (fun y => R y x) l ->
  ForallOrdPairs R (l ++ [x]).
Proof.
  induction 1 as [|a l Ha Hl IH]; intros Hx; simpl.
  - constructor; constructor.
  - inversion Hx; subst. constructor; auto.
    apply Forall_app; split; auto.
Qed.


Section Scan.

Variable imageData : ImageData.

Lemma scan_step_inv (st : ByteArray * list Contour) (x y : Z) :
  In (x, y) (interior (width imageData) (height imageData)) ->
  scan_inv imageData st -> scan_inv imageData (scan_step imageData st (x, y)).
Proof.
  intros Hxy Hinv.
  destruct st as [visited contours].
  unfold scan_step.
  destruct (is_marked visited (y * width imageData + x)) eqn:Hseed; auto.
  destruct (is_white (getPixel imageData x y)); auto.
  destruct (_ || _ || _ || _); cbn [andb negb]; auto.
  destruct Hinv as (Hlen & Hpts & Hseeds & Hfresh); cbn [fst snd] in *.
  apply in_interior in Hxy.
  assert (Hin : in_bounds imageData (mkPoint x y)).
  { unfold in_bounds; cbn [pt_x pt_y]; lia. }
  pose proof (traceContour_post imageData visited x y Hlen Hin) as Hpost.
  destruct (traceContour imageData visited x y) as [[contour visited'] stop].
  destruct Hpost as (Hc & Hlen' & Hmk & Hmono & Hhd).
  assert (Hold : forall c p, In c contours -> In p c ->
            in_bounds imageData p /\ marked imageData visited' p).
  { intros c p Hc' Hp; destruct (Hpts c p Hc' Hp); split; auto. }
  destruct (10 <=? length contour)%nat; unfold scan_inv; cbn [fst snd].
  - split; [congruence|]. split; [|split].
    + intros c p Hc' Hp; apply in_app_or in Hc'.
      destruct Hc' as [Hc'|[<-|[]]]; [now apply (Hold c)|].
      split; auto. rewrite Forall_forall in Hc; auto.
    + intros c Hc'; apply in_app_or in Hc'.
      destruct Hc' as [Hc'|[<-|[]]]; [now apply Hseeds|].
      exists (mkPoint x y); split; auto.
      unfold in_ring; cbn [pt_x pt_y]; lia.
    + apply ForallOrdPairs_snoc; auto.
      apply Forall_forall; intros c Hc' s Hs Hsc.
      rewrite Hhd in Hs; inversion Hs; subst s.
      destruct (Hpts c _ Hc' Hsc) as [_ Hm].
      unfold marked, pixel_index in Hm; cbn [pt_x pt_y] in Hm.
      congruence.
  - split; [congruence|]. split; [|split]; auto.
Qed.

Lemma findContours_state_inv :
  scan_inv imageData (findContours_state imageData).
Proof.
  unfold findContours_state.
  apply fold_left_invariant.
  - unfold scan_inv; cbn [fst snd].
    split; [apply repeat_length|].
    split; [intros c p []|]. split; [intros c []|constructor].
  - intros st [x y] Hin Hst; now apply scan_step_inv.
Qed.

End Scan.

Lemma find_next_adjacent (imageData : ImageData) (x y dir : Z)
  (steps : list Z) (nx ny newDir : Z) :
  find_next imageData x y dir steps = Some (nx, ny, newDir) ->
  adjacent (mkPoint x y) (mkPoint nx ny).
Proof.
  induction steps as [|i steps IH]; cbn [find_next]; [discriminate|].
  set (k := Z.to_nat (Z.rem (dir + i + 5) 8)).
  assert (Hk : (k < 8)%nat).
  { unfold k. pose proof (Z.rem_bound_abs (dir + i + 5) 8 ltac:(lia)). lia. }
  destruct (is_white (getPixel imageData
                        (x + fst (nth k directions (0, 0)%Z))
                        (y + snd (nth k directions (0, 0)%Z)))); auto.
  intros Heq; inversion Heq; subst nx ny.
  unfold adjacent; cbn [pt_x pt_y].
  do 8 (destruct k as [|k]; [cbn; lia|]). lia.
Qed.





Section TraceWalk.

Variable imageData : ImageData.
Variables startX startY : Z.


End TraceWalk.


(** The cap is reached on [runaway_image]: the walk from (1, 1) is cut
    after [3 * 5] points and returned. *)
Example traceContour_runaway :
  let '(contour, _, stop) :=
    traceContour runaway_image (repeat 0%Z 15) 1 1 in
  stop = StopIterationCap /\ length contour = 15%nat.
Proof.
  vm_compute. split; reflexivity.
Qed.

(** C9.  Every point of every contour returned by [findContours] lies
    inside the image, and every contour starts at a seed of the ring
    [1 <= x <= width - 2], [1 <= y <= height - 2]: the walk only steps on
    pixels that read as white, and a read outside the image is 0. *)
Theorem findContours_in_bounds
  (imageData : ImageData) (contour : Contour) (p : Point) :
  In contour (findContours imageData) ->
  In p contour ->
  (0 <= pt_x p < width imageData /\ 0 <= pt_y p < height imageData)%Z /\
  exists seed, hd_error contour = Some seed /\ in_ring imageData seed.
Proof.
  intros Hc Hp.
  destruct (findContours_state_inv imageData) as (_ & Hpts & Hseeds & _).
  split.
  - exact (proj1 (Hpts contour p Hc Hp)).
  - now apply Hseeds.
Qed.

Lemma findContours_in_bounds_witness :
  let contour :=
    map (fun xy => mkPoint (fst xy) (snd xy))
      [(6, 1); (5, 2); (4, 3); (3, 4); (2, 5); (1, 6); (2, 5); (3, 4);
       (4, 3); (5, 2)]%Z in
  In contour (findContours spur_image) /\
  In (mkPoint 1 6) contour /\
  (0 <= 1 < width spur_image /\ 0 <= 6 < height spur_image)%Z /\
  exists seed, hd_error contour = Some seed /\ in_ring spur_image seed.
Proof.
  cbv zeta.
  assert (Hc : In
    (map (fun xy => mkPoint (fst xy) (snd xy))
      [(6, 1); (5, 2); (4, 3); (3, 4); (2, 5); (1, 6); (2, 5); (3, 4);
       (4, 3); (5, 2)]%Z) (findContours spur_image)).
  { vm_compute; left; reflexivity. }
  assert (Hp : In (mkPoint 1 6)
    (map (fun xy => mkPoint (fst xy) (snd xy))
      [(6, 1); (5, 2); (4, 3); (3, 4); (2, 5); (1, 6); (2, 5); (3, 4);
       (4, 3); (5, 2)]%Z)).
  { vm_compute; tauto. }
  split; [exact Hc|]. split; [exact Hp|].
  exact (findContours_in_bounds spur_image _ (mkPoint 1 6) Hc Hp).
Defined.




(** ** The order of numbers *)

Lemma SFcompare_key (a b : spec_float) :
  SFcompare a b =
    match order_key a, order_key b with
    | Some ka, Some kb => Some (key_compare ka kb)
    | _, _ => None
    end.
Proof.
  destruct a as [sa|sa| |sa ma ea], b as [sb|sb| |sb mb eb];
    try destruct sa; try destruct sb; try reflexivity.
  unfold key_compare; cbn [SFcompare order_key fst snd].
  change (-1 ?= -1)%Z with Eq; cbv iota.
  rewrite Z.compare_opp, (Z.compare_antisym ea eb).
  destruct (Z.compare ea eb); reflexivity.
Qed.

Lemma ltb_key (x y : float) :
  (x <? y)%float =
    match num_key x, num_key y with
    | Some a, Some b =>
        match key_compare a b with Lt => true | _ => false end
    | _, _ => false
    end.
Proof.
  rewrite ltb_spec; unfold SFltb, num_key; rewrite SFcompare_key.
  destruct (order_key (Prim2SF x)), (order_key (Prim2SF y)); reflexivity.
Qed.

Lemma leb_key (x y : float) :
  (x <=? y)%float =
    match num_key x, num_key y with
    | Some a, Some b =>
        match key_compare a b with Gt => false | _ => true end
    | _, _ => false
    end.
Proof.
  rewrite leb_spec; unfold SFleb, num_key; rewrite SFcompare_key.
  destruct (order_key (Prim2SF x)) as [p|], (order_key (Prim2SF y)) as [q|];
    try reflexivity; try (destruct (key_compare p q); reflexivity).
Qed.

Lemma eqb_key (x y : float) :
  (x =? y)%float =
    match num_key x, num_key y with
    | Some a, Some b =>
        match key_compare a b with Eq => true | _ => false end
    | _, _ => false
    end.
Proof.
  rewrite eqb_spec; unfold SFeqb, num_key; rewrite SFcompare_key.
  destruct (order_key (Prim2SF x)), (order_key (Prim2SF y)); reflexivity.
Qed.

(** Comparisons of numbers, decided on their keys. *)
Ltac key_order :=
  unfold JsNum.gt, JsNum.ge, JsNum.lt, JsNum.le in *;
  rewrite ?ltb_key, ?leb_key, ?eqb_key in *;
  repeat match goal with
         | H : context [num_key ?x] |- _ =>
             destruct (num_key x) as [[[? ?] ?]|]
         | |- context [num_key ?x] =>
             destruct (num_key x) as [[[? ?] ?]|]
         end;
  unfold key_compare in *; cbn [fst snd] in *;
  repeat match goal with
         | H : context [Z.compare ?a ?b] |- _ =>
             destruct (Z.compare_spec a b)
         | |- context [Z.compare ?a ?b] =>
             destruct (Z.compare_spec a b)
         end;
  subst; try congruence; try lia.

Lemma num_le_lt_trans (a b c : float) :
  JsNum.le a b = true -> JsNum.lt b c = true -> JsNum.lt a c = true.
Proof. intros; key_order. Qed.

Lemma num_le_trans (a b c : float) :
  JsNum.le a b = true -> JsNum.le b c = true -> JsNum.le a c = true.
Proof. intros; key_order. Qed.

Lemma num_lt_not_le (a b : float) :
  JsNum.lt a b = true -> JsNum.le b a = false.
Proof. intros; key_order. Qed.

(** ** The sign of a difference

    The difference [y - x] of two numbers is strictly positive exactly
    when [x < y]: the rounded difference of two binary64 values has the
    sign of the exact difference, and is never rounded to zero. *)

Section SubtractionSign.

Local Open Scope Z_scope.

Lemma digits2_pos_bounds (m : positive) :
  2 ^ (Zpos (digits2_pos m) - 1) <= Zpos m < 2 ^ Zpos (digits2_pos m).
Proof.
  induction m as [m IH|m IH|]; cbn [digits2_pos].
  - rewrite Pos2Z.inj_succ.
    replace (Z.succ (Zpos (digits2_pos m)) - 1) with (Z.succ (Zpos (digits2_pos m) - 1)) by lia.
    rewrite !Z.pow_succ_r by lia. lia.
  - rewrite Pos2Z.inj_succ.
    replace (Z.succ (Zpos (digits2_pos m)) - 1) with (Z.succ (Zpos (digits2_pos m) - 1)) by lia.
    rewrite !Z.pow_succ_r by lia. lia.
  - simpl. lia.
Qed.

Lemma shr_1_m (r : shr_record) :
  0 <= shr_m r -> shr_m (shr_1 r) = shr_m r / 2.
Proof.
  destruct r as [m r s]; cbn [shr_m]; intros Hm.
  rewrite <- Z.div2_div.
  destruct m as [|[p|p|]|p]; try reflexivity; lia.
Qed.

Lemma iter_shr_1_m (p : positive) (r : shr_record) :
  0 <= shr_m r ->
  shr_m (iter_pos shr_1 p r) = shr_m r / 2 ^ Zpos p.
Proof.
  revert r; induction p as [p IH|p IH|]; intros r Hr; cbn [iter_pos].
  - assert (H1 : 0 <= shr_m (shr_1 r)).
    { rewrite shr_1_m by auto. apply Z.div_pos; lia. }
    assert (H2 : 0 <= shr_m (iter_pos shr_1 p (shr_1 r))).
    { rewrite IH by auto. apply Z.div_pos; auto. apply Z.pow_pos_nonneg; lia. }
    rewrite IH, IH, shr_1_m by auto.
    rewrite !Z.div_div by (try apply Z.pow_pos_nonneg; lia).
    f_equal.
    replace (Zpos p~1) with (1 + (Zpos p + Zpos p)) by lia.
    rewrite !Z.pow_add_r by lia. rewrite Z.pow_1_r. lia.
  - assert (H2 : 0 <= shr_m (iter_pos shr_1 p r)).
    { rewrite IH by auto. apply Z.div_pos; auto. apply Z.pow_pos_nonneg; lia. }
    rewrite IH, IH by auto.
    rewrite !Z.div_div by (try apply Z.pow_pos_nonneg; lia).
    f_equal.
    replace (Zpos p~0) with (Zpos p + Zpos p) by lia.
    rewrite Z.pow_add_r by lia. reflexivity.
  - rewrite shr_1_m by auto. reflexivity.
Qed.

Lemma shr_record_of_loc_m (m : Z) (l : location) :
  shr_m (shr_record_of_loc m l) = m.
Proof.
  destruct l as [|[]]; reflexivity.
Qed.

Lemma shr_fexp_pos (m e : Z) (l : location) :
  0 < m -> emin <= e ->
  0 < shr_m (fst (shr_fexp prec emax m e l)) /\
  emin <= snd (shr_fexp prec emax m e l).
Proof.
  intros Hm He.
  unfold shr_fexp, shr.
  destruct m as [|p|p]; try lia.
  cbn [Zdigits2].
  pose proof (digits2_pos_bounds p) as Hd.
  set (d := Zpos (digits2_pos p)) in *.
  assert (Hd1 : 1 <= d) by (unfold d; lia).
  unfold fexp, SpecFloat.emin, prec, emax in *.
  destruct (Z.max (d + e - 53) (3 - 1024 - 53) - e) as [|n|n] eqn:Hn;
    cbn [fst snd]; rewrite ?shr_record_of_loc_m; try lia.
  rewrite iter_shr_1_m by (rewrite shr_record_of_loc_m; lia).
  rewrite shr_record_of_loc_m.
  split; [|lia].
  apply Z.div_str_pos. split; [apply Z.pow_pos_nonneg; lia|].
  apply Z.le_trans with (2 ^ (d - 1)); [|lia].
  apply Z.pow_le_mono_r; lia.
Qed.

Lemma round_nearest_even_pos (m : Z) (l : location) :
  0 < m -> 0 < round_nearest_even m l.
Proof.
  intros Hm; destruct l as [|[]]; cbn [round_nearest_even]; try lia.
  destruct (Z.even m); lia.
Qed.

Lemma binary_round_aux_pos (m e : Z) (l : location) :
  0 < m -> emin <= e ->
  SFpos (binary_round_aux prec emax false m e l) = true.
Proof.
  intros Hm He. unfold binary_round_aux.
  destruct (shr_fexp_pos m e l Hm He) as [H1 H2].
  destruct (shr_fexp prec emax m e l) as [mrs' e']; cbn [fst snd] in *.
  pose proof (round_nearest_even_pos (shr_m mrs') (loc_of_shr_record mrs') H1) as H3.
  destruct (shr_fexp_pos _ e' loc_Exact H3 H2) as [H4 _].
  destruct (shr_fexp prec emax _ e' loc_Exact) as [mrs'' e'']; cbn [fst snd] in *.
  destruct (shr_m mrs''); try lia.
  destruct (e'' <=? emax - prec); reflexivity.
Qed.

Lemma binary_round_aux_neg (m e : Z) (l : location) :
  SFpos (binary_round_aux prec emax true m e l) = false.
Proof.
  unfold binary_round_aux.
  destruct (shr_fexp prec emax m e l) as [mrs' e'].
  destruct (shr_fexp prec emax _ e' loc_Exact) as [mrs'' e''].
  destruct (shr_m mrs''); try reflexivity.
  destruct (e'' <=? emax - prec); reflexivity.
Qed.

Lemma binary_normalize_pos (m e : Z) :
  emin <= e ->
  SFpos (binary_normalize prec emax m e false) = (0 <? m).
Proof.
  intros He. unfold binary_normalize, binary_round.
  destruct m as [|p|p]; try reflexivity.
  - destruct (shl_align p e _) as [mz ez] eqn:Hal.
    rewrite binary_round_aux_pos; [reflexivity|lia|].
    unfold shl_align in Hal.
    destruct (fexp prec emax (Zpos (digits2_pos p) + e) - e) eqn:Hd;
      inversion Hal; subst; try lia.
    unfold fexp; lia.
  - destruct (shl_align p e _) as [mz ez].
    apply binary_round_aux_neg.
Qed.

Lemma shl_align_value (m : positive) (e ez : Z) :
  ez <= e -> Zpos (fst (shl_align m e ez)) = Zpos m * 2 ^ (e - ez).
Proof.
  intros He. unfold shl_align.
  destruct (ez - e) as [|d|d] eqn:Hd; cbn [fst]; try lia.
  - replace (e - ez) with 0 by lia. lia.
  - replace (e - ez) with (Zpos d) by lia.
    clear. induction d as [|d IH] using Pos.peano_ind.
    + cbn [Pos.iter]. rewrite Pos2Z.inj_xO, Z.pow_1_r. lia.
    + rewrite Pos.iter_succ, Pos2Z.inj_succ, Z.pow_succ_r by lia.
      rewrite Pos2Z.inj_xO, IH. lia.
Qed.

Lemma canonical_digits (m : positive) (e : Z) :
  bounded prec emax m e = true ->
  emin <= e /\ Zpos (digits2_pos m) <= prec /\
  (emin < e -> Zpos (digits2_pos m) = prec).
Proof.
  unfold bounded, canonical_mantissa, fexp, SpecFloat.emin, prec, emax.
  intros H; apply andb_prop in H; destruct H as [H _].
  apply Z.eqb_eq in H. lia.
Qed.

(** Scaled mantissas of two canonical numbers compare as exponent, then mantissa. *)
Lemma aligned_compare (mx my : positive) (ex ey : Z) :
  bounded prec emax mx ex = true ->
  bounded prec emax my ey = true ->
  let ez := Z.min ey ex in
  (Zpos mx * 2 ^ (ex - ez) ?= Zpos my * 2 ^ (ey - ez)) =
    match ex ?= ey with
    | Eq => Pos.compare mx my
    | c => c
    end.
Proof.
  intros Hx Hy ez.
  destruct (canonical_digits mx ex Hx) as (Hex & Hdx & Hnx).
  destruct (canonical_digits my ey Hy) as (Hey & Hdy & Hny).
  pose proof (digits2_pos_bounds mx) as Bx.
  pose proof (digits2_pos_bounds my) as By.
  unfold prec in *.
  destruct (Z.compare_spec ex ey) as [Heq|Hlt|Hgt].
  - subst ey. unfold ez. rewrite Z.min_id, Z.sub_diag. simpl (2 ^ 0).
    rewrite !Z.mul_1_r. reflexivity.
  - unfold ez. rewrite Z.min_r by lia. rewrite Z.sub_diag. simpl (2 ^ 0).
    rewrite Z.mul_1_r. apply Z.compare_lt_iff.
    rewrite Hny in By by lia.
    assert (H2 : 2 ^ 1 <= 2 ^ (ey - ex)) by (apply Z.pow_le_mono_r; lia).
    assert (H3 : 2 ^ Zpos (digits2_pos mx) <= 2 ^ 53)
      by (apply Z.pow_le_mono_r; lia).
    change (2 ^ 53) with (2 * 2 ^ (53 - 1)) in H3.
    change (2 ^ 1) with 2 in H2. nia.
  - unfold ez. rewrite Z.min_l by lia. rewrite Z.sub_diag. simpl (2 ^ 0).
    rewrite Z.mul_1_r. apply Z.compare_gt_iff.
    rewrite Hnx in Bx by lia.
    assert (H2 : 2 ^ 1 <= 2 ^ (ex - ey)) by (apply Z.pow_le_mono_r; lia).
    assert (H3 : 2 ^ Zpos (digits2_pos my) <= 2 ^ 53)
      by (apply Z.pow_le_mono_r; lia).
    change (2 ^ 53) with (2 * 2 ^ (53 - 1)) in H3.
    change (2 ^ 1) with 2 in H2. nia.
Qed.

Lemma SFsub_pos (x y : spec_float) :
  valid_binary x = true -> valid_binary y = true ->
  SFpos (SFsub prec emax y x) = SFltb x y.
Proof.
  intros Hx Hy.
  destruct x as [sx|sx| |sx mx ex], y as [sy|sy| |sy my ey];
    try reflexivity;
    try (destruct sx; try destruct sy; reflexivity);
    try (destruct sy; reflexivity).
  cbn [valid_binary] in Hx, Hy.
  cbn [SFsub].
  destruct (canonical_digits mx ex Hx) as (Hex & _).
  destruct (canonical_digits my ey Hy) as (Hey & _).
  rewrite binary_normalize_pos by lia.
  rewrite !shl_align_value by lia.
  pose proof (aligned_compare mx my ex ey Hx Hy) as Hc; cbv zeta in Hc.
  set (a := Zpos mx * 2 ^ (ex - Z.min ey ex)) in *.
  set (b := Zpos my * 2 ^ (ey - Z.min ey ex)) in *.
  assert (Ha : 0 < a) by (unfold a; apply Z.mul_pos_pos; [lia|apply Z.pow_pos_nonneg; lia]).
  assert (Hb : 0 < b) by (unfold b; apply Z.mul_pos_pos; [lia|apply Z.pow_pos_nonneg; lia]).
  unfold SFltb; cbn [SFcompare].
  change (Pos.compare_cont Eq mx my) with (Pos.compare mx my).
  destruct sx, sy; cbn [cond_Zopp].
  - (* both negative *)
    replace (0 <? - b - - a) with (b <? a) by (destruct (Z.ltb_spec b a), (Z.ltb_spec 0 (- b - - a)); lia).
    rewrite Z.ltb_compare, Z.compare_antisym, Hc.
    destruct (ex ?= ey); try reflexivity;
      destruct (Pos.compare mx my); reflexivity.
  - replace (0 <? b - - a) with true by (symmetry; apply Z.ltb_lt; lia). reflexivity.
  - replace (0 <? - b - a) with false by (symmetry; apply Z.ltb_ge; lia). reflexivity.
  - replace (0 <? b - a) with (a <? b) by (destruct (Z.ltb_spec a b), (Z.ltb_spec 0 (b - a)); lia).
    rewrite Z.ltb_compare, Hc.
    destruct (ex ?= ey); try reflexivity;
      destruct (Pos.compare mx my); reflexivity.
Qed.

Lemma sub_pos (x y : float) :
  (0 <? y - x)%float = (x <? y)%float.
Proof.
  rewrite !ltb_spec, sub_spec.
  change (Prim2SF 0) with (S754_zero false).
  apply (SFsub_pos (Prim2SF x) (Prim2SF y)); apply Prim2SF_valid.
Qed.

End SubtractionSign.

(** ** Douglas-Peucker simplification *)

Lemma valid_points_map_Pt (pts : list JsPoint) :
  valid_points (map Pt pts) = pts.
Proof.
  induction pts as [|p pts IH]; simpl; congruence.
Qed.

Lemma valid_points_length (points : list Entry) :
  (length (valid_points points) <= length points)%nat.
Proof.
  induction points as [|[p|] points IH]; simpl; lia.
Qed.

Lemma all_points_valid (points : list Entry) :
  Forall is_point points -> map Pt (valid_points points) = points.
Proof.
  induction 1 as [|[p|] points Hp _ IH]; simpl; try congruence.
  destruct Hp.
Qed.

Lemma length_removelast {X : Type} (l : list X) :
  length (removelast l) = pred (length l).
Proof.
  rewrite removelast_firstn_len, length_firstn; lia.
Qed.

Lemma hd_error_removelast_app {X : Type} (l r : list X) :
  (2 <= length l)%nat -> hd_error (removelast l ++ r) = hd_error l.
Proof.
  destruct l as [|a [|b l]]; simpl; intros; try lia; reflexivity.
Qed.

Lemma last_app_nonempty {X : Type} (l r : list X) (d : X) :
  r <> [] -> last (l ++ r) d = last r d.
Proof.
  intros Hr; induction l as [|a l IH]; simpl; auto.
  rewrite IH. destruct (l ++ r) eqn:Heq; auto.
  apply app_eq_nil in Heq; tauto.
Qed.

Lemma last_default {X : Type} (l : list X) (d d' : X) :
  l <> [] -> last l d = last l d'.
Proof.
  induction l as [|a [|b l] IH]; intros Hl; simpl in *; try congruence.
  apply IH; discriminate.
Qed.

Lemma last_map_Pt (pts : list JsPoint) (p : JsPoint) (d : Entry) :
  pts <> [] -> last (map Pt pts) d = Pt (last pts p).
Proof.
  induction pts as [|a [|b pts] IH]; intros Hl; simpl in *; try congruence.
  apply IH; discriminate.
Qed.

Lemma last_skipn {X : Type} (l : list X) (k : nat) (d : X) :
  (k < length l)%nat -> last (skipn k l) d = last l d.
Proof.
  intros Hk.
  rewrite <- (firstn_skipn k l) at 2.
  rewrite last_app_nonempty; auto.
  intros Heq; apply (f_equal (@length X)) in Heq.
  rewrite length_skipn in Heq; simpl in Heq; lia.
Qed.

(** The farthest-point loop either never updates [(maxDist, maxIdx)],
    which stays [(0, 0)], or leaves in [maxIdx] an interior index. *)
Lemma farthest_range (pts : list JsPoint) (s e : JsPoint) :
  farthest pts s e = (zero, 0%nat) \/
  (1 <= snd (farthest pts s e) /\
   snd (farthest pts s e) + 2 <= length pts)%nat.
Proof.
  unfold farthest.
  apply fold_left_invariant with
    (P := fun acc : float * nat =>
            acc = (zero, 0%nat) \/
            (1 <= snd acc /\ snd acc + 2 <= length pts)%nat); auto.
  intros acc i Hi Hacc; apply in_seq in Hi.
  unfold farthest_step.
  destruct (JsNum.gt _ (fst acc)); auto.
  right; cbn [snd]; lia.
Qed.

(** With a tolerance that is at least 0, a farthest distance above the
    tolerance comes with an interior split index. *)
Lemma farthest_split (pts : list JsPoint) (s e : JsPoint) (tol : float) :
  JsNum.le 0%float tol = true ->
  JsNum.gt (fst (farthest pts s e)) tol = true ->
  (1 <= snd (farthest pts s e) /\
   snd (farthest pts s e) + 2 <= length pts)%nat.
Proof.
  intros Htol Hgt.
  destruct (farthest_range pts s e) as [Heq|H]; auto.
  rewrite Heq in Hgt; cbn [fst] in Hgt.
  apply num_lt_not_le in Hgt. change zero with 0%float in Hgt. congruence.
Qed.

(** One call on an array of more than two points. *)
Lemma simplify_fuel_unfold (fuel : nat) (start : JsPoint)
  (rest : list JsPoint) (tol : float) :
  let pts := start :: rest in
  (2 < length pts)%nat ->
  simplify_fuel (S fuel) (map Pt pts) tol =
    let end_ := last pts start in
    let maxDist := fst (farthest pts start end_) in
    let maxIdx := snd (farthest pts start end_) in
    if JsNum.gt maxDist tol then
      match simplify_fuel fuel (map Pt (firstn (maxIdx + 1) pts)) tol with
      | None => None
      | Some left_ =>
          match simplify_fuel fuel (map Pt (skipn maxIdx pts)) tol with
          | None => None
          | Some right_ => Some (removelast left_ ++ right_)
          end
      end
    else Some [Pt start; Pt end_].
Proof.
  intros pts Hlen.
  cbn [simplify_fuel].
  rewrite valid_points_map_Pt, length_map.
  destruct (Nat.leb_spec (length pts) 2); [lia|].
  subst pts; cbv beta iota zeta.
  destruct (farthest (start :: rest) start (last (start :: rest) start));
    reflexivity.
Qed.

Section Simplify.

Variable tol : float.
Hypothesis tol_nonneg : JsNum.le 0%float tol = true.

(** On an array of points and with enough depth, [simplifyContour]
    returns; the result is no longer than the input, keeps at least two
    points of an input that has two, and keeps the first and the last
    point. *)
Lemma simplify_fuel_valid (fuel : nat) (pts : list JsPoint) :
  (length pts < fuel)%nat ->
  exists r,
    simplify_fuel fuel (map Pt pts) tol = Some r /\
    (length r <= length pts)%nat /\
    (2 <= length pts -> 2 <= length r)%nat /\
    hd_error r = hd_error (map Pt pts) /\
    (forall d, last r d = last (map Pt pts) d) /\
    ((length pts <= 2)%nat -> r = map Pt pts).
Proof.
  revert pts; induction fuel as [|fuel IH]; intros pts Hfuel; [lia|].
  destruct (Nat.leb_spec (length pts) 2) as [Hshort|Hlong].
  { exists (map Pt pts); cbn [simplify_fuel]; rewrite length_map.
    destruct (Nat.leb_spec (length pts) 2); [|lia].
    rewrite ?length_map; repeat split; auto. }
  destruct pts as [|start rest]; [simpl in Hlong; lia|].
  rewrite simplify_fuel_unfold by exact Hlong; cbv zeta.
  set (pts := start :: rest) in *.
  set (end_ := last pts start).
  destruct (JsNum.gt (fst (farthest pts start end_)) tol) eqn:Hgt.
  - destruct (farthest_split pts start end_ tol tol_nonneg Hgt) as [Hi1 Hi2].
    set (maxIdx := snd (farthest pts start end_)) in *.
    destruct (IH (firstn (maxIdx + 1) pts))
      as (l & Hl & Hl_le & Hl_ge & Hl_hd & _).
    { rewrite length_firstn; lia. }
    destruct (IH (skipn maxIdx pts))
      as (r & Hr & Hr_le & Hr_ge & _ & Hr_last & _).
    { rewrite length_skipn; lia. }
    rewrite length_firstn in Hl_le, Hl_ge.
    rewrite length_skipn in Hr_le, Hr_ge.
    rewrite Hl, Hr.
    exists (removelast l ++ r).
    split; [reflexivity|].
    assert (Hlen : length (removelast l ++ r)
                   = (pred (length l) + length r)%nat).
    { now rewrite length_app, length_removelast. }
    split; [lia|]. split; [lia|]. split; [|split].
    + rewrite hd_error_removelast_app by lia.
      rewrite Hl_hd. replace (maxIdx + 1)%nat with (S maxIdx) by lia.
      reflexivity.
    + intros d. rewrite last_app_nonempty.
      * rewrite Hr_last, <- skipn_map. apply last_skipn.
        rewrite length_map; lia.
      * assert (Hr2 : (2 <= length r)%nat) by lia.
        intros ->; cbn [length] in Hr2; lia.
    + intros; lia.
  - exists [Pt start; Pt end_].
    split; [reflexivity|]. cbn [length].
    split; [lia|]. split; [lia|]. split; [reflexivity|]. split; [|lia].
    intros d. unfold end_.
    rewrite (last_map_Pt pts start d) by discriminate. reflexivity.
Qed.

(** The same for any array, through the filter of valid points. *)
Lemma simplifyContour_returns (points : list Entry) :
  exists r,
    simplifyContour points tol = Some r /\
    (length r <= length points)%nat /\
    ((length points <= 2)%nat -> r = points) /\
    (Forall is_point points ->
     hd_error r = hd_error points /\ forall d, last r d = last points d).
Proof.
  unfold simplifyContour.
  destruct (Nat.leb_spec (length points) 2) as [Hshort|Hlong].
  { exists points; cbn [simplify_fuel].
    destruct (Nat.leb_spec (length points) 2); [|lia].
    repeat split; auto. }
  pose proof (valid_points_length points) as Hvalid.
  destruct (simplify_fuel_valid (S (length points)) (valid_points points))
    as (r & Hr & Hlen & _ & Hhd & Hlast & Hsame); [lia|].
  assert (Heq : simplify_fuel (S (length points)) points tol
                = simplify_fuel (S (length points))
                    (map Pt (valid_points points)) tol).
  { cbn [simplify_fuel].
    rewrite valid_points_map_Pt, length_map.
    destruct (Nat.leb_spec (length points) 2); [lia|].
    destruct (Nat.leb_spec (length (valid_points points)) 2); reflexivity. }
  exists r. rewrite Heq.
  split; [exact Hr|]. split; [lia|]. split; [lia|].
  intros Hall. rewrite (all_points_valid points Hall) in Hhd, Hlast.
  split; assumption.
Qed.

End Simplify.

Section SimplifyMonotone.

Variables t1 t2 : float.
Hypothesis t1_nonneg : JsNum.le 0%float t1 = true.
Hypothesis t1_le_t2 : JsNum.le t1 t2 = true.

(** A larger tolerance never keeps more points. *)
Lemma simplify_fuel_monotone (fuel : nat) (pts : list JsPoint) :
  (length pts < fuel)%nat ->
  exists r1 r2,
    simplify_fuel fuel (map Pt pts) t1 = Some r1 /\
    simplify_fuel fuel (map Pt pts) t2 = Some r2 /\
    (length r2 <= length r1)%nat.
Proof.
  assert (t2_nonneg : JsNum.le 0%float t2 = true)
    by (eapply num_le_trans; eauto).
  revert pts; induction fuel as [|fuel IH]; intros pts Hfuel; [lia|].
  destruct (Nat.leb_spec (length pts) 2) as [Hshort|Hlong].
  { exists (map Pt pts), (map Pt pts); cbn [simplify_fuel].
    rewrite length_map.
    destruct (Nat.leb_spec (length pts) 2); [|lia]. auto. }
  destruct pts as [|start rest]; [simpl in Hlong; lia|].
  rewrite !simplify_fuel_unfold by exact Hlong; cbv zeta.
  set (pts := start :: rest) in *.
  set (end_ := last pts start).
  set (maxIdx := snd (farthest pts start end_)).
  destruct (JsNum.gt (fst (farthest pts start end_)) t1) eqn:Hgt1.
  - destruct (farthest_split pts start end_ t1 t1_nonneg Hgt1) as [Hi1 Hi2].
    fold maxIdx in Hi1, Hi2.
    assert (Hleft : (length (firstn (maxIdx + 1) pts) < fuel)%nat)
      by (rewrite length_firstn; lia).
    assert (Hright : (length (skipn maxIdx pts) < fuel)%nat)
      by (rewrite length_skipn; lia).
    destruct (IH _ Hleft) as (l1 & l2 & Hl1 & Hl2 & Hl).
    destruct (IH _ Hright) as (r1 & r2 & Hr1 & Hr2 & Hr).
    destruct (simplify_fuel_valid t1 t1_nonneg fuel _ Hleft)
      as (l1' & Hl1' & _ & Hl1_ge & _).
    destruct (simplify_fuel_valid t1 t1_nonneg fuel _ Hright)
      as (r1' & Hr1' & _ & Hr1_ge & _).
    destruct (simplify_fuel_valid t2 t2_nonneg fuel _ Hleft)
      as (l2' & Hl2' & _ & Hl2_ge & _).
    rewrite Hl1 in Hl1'; inversion Hl1'; subst l1'.
    rewrite Hr1 in Hr1'; inversion Hr1'; subst r1'.
    rewrite Hl2 in Hl2'; inversion Hl2'; subst l2'.
    rewrite length_firstn in Hl1_ge, Hl2_ge.
    rewrite length_skipn in Hr1_ge.
    rewrite Hl1, Hr1, Hl2, Hr2.
    destruct (JsNum.gt (fst (farthest pts start end_)) t2).
    + do 2 eexists; split; [reflexivity|]. split; [reflexivity|].
      rewrite !length_app, !length_removelast; lia.
    + do 2 eexists; split; [reflexivity|]. split; [reflexivity|].
      rewrite !length_app, !length_removelast; cbn [length]; lia.
  - assert (Hgt2 : JsNum.gt (fst (farthest pts start end_)) t2 = false).
    { destruct (JsNum.gt (fst (farthest pts start end_)) t2) eqn:Hgt2; auto.
      rewrite <- Hgt1. symmetry.
      apply (num_le_lt_trans t1 t2 _ t1_le_t2 Hgt2). }
    rewrite Hgt2. do 2 eexists; split; [reflexivity|]. split; auto.
Qed.

End SimplifyMonotone.

(** C1.  Douglas-Peucker simplification never increases the point count,
    and the point count does not increase with the tolerance: for
    tolerances [0 <= t1 <= t2], [simplifyContour] returns on both and
    [length (simplifyContour c t2) <= length (simplifyContour c t1)
     <= length c]. *)
Theorem simplifyContour_monotone (c : list Entry) (t1 t2 : float) :
  JsNum.le 0%float t1 = true ->
  JsNum.le t1 t2 = true ->
  exists r1 r2,
    simplifyContour c t1 = Some r1 /\
    simplifyContour c t2 = Some r2 /\
    (length r2 <= length r1 <= length c)%nat.
Proof.
  intros H1 H12.
  destruct (simplifyContour_returns t1 H1 c) as (r1 & Hr1 & Hlen1 & _).
  exists r1.
  unfold simplifyContour in *.
  destruct (Nat.leb_spec (length c) 2) as [Hshort|Hlong].
  { exists c. cbn [simplify_fuel] in *.
    destruct (Nat.leb_spec (length c) 2); [|lia].
    inversion Hr1; subst r1. auto. }
  pose proof (valid_points_length c) as Hvalid.
  destruct (simplify_fuel_monotone t1 t2 H1 H12 (S (length c))
              (valid_points c)) as (r1' & r2 & Hr1' & Hr2 & Hle); [lia|].
  assert (Heq : forall t,
    simplify_fuel (S (length c)) c t
    = if (length (valid_points c) <=? 2)%nat
      then Some (map Pt (valid_points c))
      else simplify_fuel (S (length c)) (map Pt (valid_points c)) t).
  { intros t; cbn [simplify_fuel].
    rewrite valid_points_map_Pt, length_map.
    destruct (Nat.leb_spec (length c) 2); [lia|].
    destruct (Nat.leb_spec (length (valid_points c)) 2); reflexivity. }
  rewrite Heq in Hr1. rewrite !Heq.
  destruct (Nat.leb_spec (length (valid_points c)) 2).
  - exists (map Pt (valid_points c)).
    inversion Hr1; subst r1. repeat split; auto.
  - exists r2. rewrite Hr1' in Hr1; inversion Hr1; subst r1'.
    repeat split; auto.
Qed.

Lemma simplifyContour_monotone_witness :
  JsNum.le 0%float 0%float = true /\
  JsNum.le 0%float 2%float = true /\
  exists r1 r2,
    simplifyContour zigzag 0%float = Some r1 /\
    simplifyContour zigzag 2%float = Some r2 /\
    (length r2 <= length r1 <= length zigzag)%nat.
Proof.
  split; [reflexivity|]. split; [reflexivity|].
  exact (simplifyContour_monotone zigzag 0%float 2%float eq_refl eq_refl).
Defined.

(** On the zigzag the two tolerances keep 5 and 3 points. *)
Example simplifyContour_zigzag :
  option_map (@length Entry) (simplifyContour zigzag 0%float) = Some 5%nat /\
  option_map (@length Entry) (simplifyContour zigzag 2%float) = Some 3%nat.
Proof.
  split; vm_compute; reflexivity.
Qed.

(** C6.  Simplification preserves endpoints: for a tolerance that is at
    least 0, [simplifyContour] returns, an array of at most two elements
    is returned unchanged, and on a contour (an array of points) the
    first and the last point of the result are the first and the last
    point of the input. *)
Theorem simplifyContour_endpoints (c : list Entry) (tol : float) :
  JsNum.le 0%float tol = true ->
  exists r,
    simplifyContour c tol = Some r /\
    ((length c <= 2)%nat -> r = c) /\
    (Forall is_point c ->
     hd_error r = hd_error c /\ forall d, last r d = last c d).
Proof.
  intros Htol.
  destruct (simplifyContour_returns tol Htol c) as (r & Hr & _ & Hshort & Hends).
  exists r; auto.
Qed.

Lemma simplifyContour_endpoints_witness :
  JsNum.le 0%float 2%float = true /\
  exists r,
    simplifyContour zigzag 2%float = Some r /\
    ((length zigzag <= 2)%nat -> r = zigzag) /\
    (Forall is_point zigzag ->
     hd_error r = hd_error zigzag /\ forall d, last r d = last zigzag d).
Proof.
  split; [reflexivity|].
  exact (simplifyContour_endpoints zigzag 2%float eq_refl).
Defined.

(** A negative tolerance can send [simplifyContour] into a recursion
    that never ends: on collinear points the farthest distance is 0,
    [maxIdx] stays 0 and the second recursive call repeats the call. *)
Example simplifyContour_negative_tolerance :
  simplifyContour
    (map (fun x => Pt (num_point (mkPoint x 0))) [0; 1; 2; 3; 4]%Z)
    (-1)%float = None.
Proof.
  vm_compute; reflexivity.
Qed.

(** ** Area filter and sort *)

Lemma sort_insert_perm {A : Type} (comparefn : A -> A -> float) (x : A)
  (l : list A) :
  Permutation (sort_insert comparefn x l) (x :: l).
Proof.
  induction l as [|y l IH]; cbn [sort_insert]; auto.
  destruct (JsNum.gt (comparefn x y) 0); auto.
  rewrite IH. apply perm_swap.
Qed.

(** The sort returns the elements it was given. *)
Lemma js_sort_perm {A : Type} (comparefn : A -> A -> float) (l : list A) :
  Permutation (js_sort comparefn l) l.
Proof.
  induction l as [|x l IH]; cbn [js_sort fold_right]; auto.
  fold (js_sort comparefn l).
  rewrite sort_insert_perm. now constructor.
Qed.

(** The comparator is positive exactly when the first region is the
    smaller one. *)
Lemma by_area_desc_after (x y : Region) :
  JsNum.gt (by_area_desc x y) 0 = JsNum.lt (area x) (area y).
Proof.
  unfold JsNum.gt, JsNum.lt, by_area_desc. apply sub_pos.
Qed.

Lemma area_desc_trans (a b c : Region) :
  area_desc a b -> area_desc b c -> area_desc a c.
Proof.
  unfold area_desc, JsNum.ge; intros Hab Hbc.
  exact (num_le_trans (area c) (area b) (area a) Hbc Hab).
Qed.

Lemma num_lt_le (a b : float) :
  JsNum.lt a b = true -> JsNum.le a b = true.
Proof. intros; key_order. Qed.

(** Two numbers that are both at least some [m] are comparable. *)
Lemma num_not_lt_ge (m a b : float) :
  JsNum.le m a = true -> JsNum.le m b = true ->
  JsNum.lt a b = false -> JsNum.le b a = true.
Proof. intros; key_order. Qed.

Lemma num_lt_not_both_eq (a b v : float) :
  JsNum.lt a b = true -> (a =? v)%float = true -> (b =? v)%float = false.
Proof. intros; key_order. Qed.

Lemma num_eq_ge (a m : float) :
  (a =? m)%float = true -> JsNum.ge a m = true.
Proof. intros; key_order. Qed.

Section SortByArea.

Variable settings : Settings.

Lemma sort_insert_sorted (x : Region) (l : list Region) :
  keeps settings x = true ->
  Forall (fun r => keeps settings r = true) l ->
  StronglySorted area_desc l ->
  StronglySorted area_desc (sort_insert by_area_desc x l).
Proof.
  intros Hx Hl Hs; induction Hs as [|y l Hs IH Hy]; cbn [sort_insert].
  - constructor; constructor.
  - inversion Hl as [|? ? Hky Hkl]; subst.
    rewrite by_area_desc_after.
    destruct (JsNum.lt (area x) (area y)) eqn:Hlt.
    + constructor; [apply IH; assumption|].
      eapply Permutation_Forall; [symmetry; apply sort_insert_perm|].
      constructor; [|assumption].
      unfold area_desc, JsNum.ge. now apply num_lt_le.
    + assert (Hxy : area_desc x y).
      { unfold area_desc, JsNum.ge, keeps, JsNum.ge in *.
        eapply num_not_lt_ge; eauto. }
      constructor; [constructor; assumption|].
      constructor; [assumption|].
      eapply Forall_impl; [|exact Hy].
      intros z Hz; eapply area_desc_trans; eauto.
Qed.

(** The sorted output lists the kept regions by non-increasing area. *)
Lemma js_sort_sorted (l : list Region) :
  Forall (fun r => keeps settings r = true) l ->
  StronglySorted area_desc (js_sort by_area_desc l).
Proof.
  induction 1 as [|x l Hx Hl IH]; cbn [js_sort fold_right].
  - constructor.
  - fold (js_sort by_area_desc l).
    apply sort_insert_sorted; auto.
    eapply Permutation_Forall; [symmetry; apply js_sort_perm|assumption].
Qed.

End SortByArea.

Lemma sort_insert_stable (v : float) (x : Region) (l : list Region) :
  filter (same_area v) (sort_insert by_area_desc x l)
  = filter (same_area v) (x :: l).
Proof.
  induction l as [|y l IH]; cbn [sort_insert]; auto.
  rewrite by_area_desc_after.
  destruct (JsNum.lt (area x) (area y)) eqn:Hlt; [|reflexivity].
  cbn [filter]. rewrite IH. cbn [filter].
  unfold same_area.
  destruct (area x =? v)%float eqn:Hxv; destruct (area y =? v)%float eqn:Hyv;
    try reflexivity.
  rewrite (num_lt_not_both_eq (area x) (area y) v Hlt Hxv) in Hyv.
  discriminate.
Qed.

(** The sort is stable: regions of one area keep their input order. *)
Lemma js_sort_stable (v : float) (l : list Region) :
  filter (same_area v) (js_sort by_area_desc l) = filter (same_area v) l.
Proof.
  induction l as [|x l IH]; cbn [js_sort fold_right]; auto.
  fold (js_sort by_area_desc l).
  rewrite sort_insert_stable. cbn [filter]. now rewrite IH.
Qed.

(** C4.  The area filter is inclusive.  When [processContours] returns,
    a processed region is in the output exactly when its area is at
    least [minRegionArea]; one whose area equals [minRegionArea] is
    kept and one whose area is below it is dropped. *)
Theorem processContours_area_filter
  (settings : Settings) (contours : list Contour) (regions : list Region)
  (r : Region) :
  mapM (make_region settings) contours = Some regions ->
  In r regions ->
  exists out,
    processContours settings contours = Some out /\
    (In r out <-> JsNum.ge (area r) (minRegionArea settings) = true) /\
    ((area r =? minRegionArea settings)%float = true -> In r out) /\
    (JsNum.lt (area r) (minRegionArea settings) = true -> ~ In r out).
Proof.
  intros Hmap Hr.
  unfold processContours; rewrite Hmap.
  eexists; split; [reflexivity|].
  assert (Hiff : In r (js_sort by_area_desc (filter (keeps settings) regions))
                 <-> JsNum.ge (area r) (minRegionArea settings) = true).
  { split.
    - intros Hin.
      apply (Permutation_in _ (js_sort_perm by_area_desc _)) in Hin.
      apply filter_In in Hin. exact (proj2 Hin).
    - intros Hge.
      apply (Permutation_in _ (Permutation_sym (js_sort_perm by_area_desc _))).
      apply filter_In. split; assumption. }
  split; [exact Hiff|]. split.
  - intros Heq; apply Hiff. now apply num_eq_ge.
  - intros Hlt Hin. apply Hiff in Hin.
    apply num_lt_not_le in Hlt. unfold JsNum.ge, JsNum.le in *. congruence.
Qed.

(** C5.  When [processContours] returns, its output is sorted by
    non-increasing area and the sort is stable: the regions of any one
    area appear in the output in the order in which their contours were
    discovered. *)
Theorem processContours_sorted_stable
  (settings : Settings) (contours : list Contour) (regions : list Region) :
  mapM (make_region settings) contours = Some regions ->
  exists out,
    processContours settings contours = Some out /\
    StronglySorted area_desc out /\
    forall v,
      filter (same_area v) out
      = filter (same_area v) (filter (keeps settings) regions).
Proof.
  intros Hmap.
  unfold processContours; rewrite Hmap.
  eexists; split; [reflexivity|]. split.
  - apply js_sort_sorted with (settings := settings).
    apply Forall_forall; intros r Hr.
    apply filter_In in Hr. exact (proj2 Hr).
  - intros v; apply js_sort_stable.
Qed.

Lemma processContours_area_filter_witness :
  mapM (make_region default_settings) sample_contours = Some sample_regions /\
  In sample_region sample_regions /\
  exists out,
    processContours default_settings sample_contours = Some out /\
    (In sample_region out <->
     JsNum.ge (area sample_region) (minRegionArea default_settings) = true) /\
    ((area sample_region =? minRegionArea default_settings)%float = true ->
     In sample_region out) /\
    (JsNum.lt (area sample_region) (minRegionArea default_settings) = true ->
     ~ In sample_region out).
Proof.
  assert (Hmap : mapM (make_region default_settings) sample_contours
                 = Some sample_regions) by (vm_compute; reflexivity).
  assert (Hin : In sample_region sample_regions)
    by (right; left; reflexivity).
  split; [exact Hmap|]. split; [exact Hin|].
  exact (processContours_area_filter default_settings sample_contours
           sample_regions sample_region Hmap Hin).
Defined.

Lemma processContours_sorted_stable_witness :
  mapM (make_region default_settings) sample_contours = Some sample_regions /\
  exists out,
    processContours default_settings sample_contours = Some out /\
    StronglySorted area_desc out /\
    forall v,
      filter (same_area v) out
      = filter (same_area v) (filter (keeps default_settings) sample_regions).
Proof.
  assert (Hmap : mapM (make_region default_settings) sample_contours
                 = Some sample_regions) by (vm_compute; reflexivity).
  split; [exact Hmap|].
  exact (processContours_sorted_stable default_settings sample_contours
           sample_regions Hmap).
Defined.

(** On the sample, the region of area 25 is dropped, the two regions of
    area 100 (equal to [minRegionArea]) are kept, and the output lists
    the areas 900, 400, 100, 100, the two squares of side 10 in the
    order of their discovery. *)
Example processContours_sample :
  option_map (map (fun r => (area r, hd_error (points r))))
    (processContours default_settings sample_contours)
  = Some [(900%float, Some (Pt (mkJsPoint 10 10)));
          (400%float, Some (Pt (mkJsPoint 8 8)));
          (100%float, Some (Pt (mkJsPoint 3 3)));
          (100%float, Some (Pt (mkJsPoint 8 8)))].
Proof.
  vm_compute. reflexivity.
Qed.

(** ** When [processContours] returns *)

Lemma mapM_total {A B : Type} (f : A -> option B) (l : list A) :
  (forall a, In a l -> exists b, f a = Some b) ->
  exists bs, mapM f l = Some bs.
Proof.
  induction l as [|a l IH]; intros Hf; cbn [mapM].
  - now exists [].
  - destruct (Hf a (or_introl eq_refl)) as [b ->].
    destruct IH as [bs ->]; [intros; apply Hf; now right|].
    now exists (b :: bs).
Qed.

(** The regions are listed in the order of their contours. *)
Lemma mapM_nth {A B : Type} (f : A -> option B) (l : list A) (bs : list B) :
  mapM f l = Some bs ->
  length bs = length l /\
  forall i a, nth_error l i = Some a ->
    exists b, f a = Some b /\ nth_error bs i = Some b.
Proof.
  revert bs; induction l as [|a l IH]; intros bs; cbn [mapM].
  - intros Heq; inversion Heq; subst. split; [reflexivity|].
    intros [|i] a'; discriminate.
  - destruct (f a) as [b|] eqn:Hb; [|discriminate].
    destruct (mapM f l) as [bs'|]; [|discriminate].
    intros Heq; inversion Heq; subst.
    destruct (IH bs' eq_refl) as [Hlen Hnth].
    split; [cbn [length]; congruence|].
    intros [|i] a'; cbn [nth_error].
    + intros Ha; inversion Ha; subst. now exists b.
    + apply Hnth.
Qed.

(** With a window of at most 3, every index [(i + j + n) % n] of the
    smoothing loop falls inside an array of at least 3 points. *)
Lemma smooth_point_returns (pts : list JsPoint) (js : list Z) (i : nat) :
  (3 <= length pts)%nat ->
  Forall (fun j => (-3 <= j)%Z) js ->
  exists p, smooth_point pts js i = Some p.
Proof.
  intros Hn Hjs. unfold smooth_point.
  set (step := fun (acc : option (float * float * float)) (j : Z) => _).
  assert (Hsome : exists s, fold_left step js (Some (zero, zero, zero)) = Some s).
  { apply fold_left_invariant with
      (P := fun acc : option (float * float * float) => exists s, acc = Some s).
    - now eexists.
    - intros acc j Hj [[[sx sy] cnt] ->].
      rewrite Forall_forall in Hjs; specialize (Hjs j Hj).
      unfold step.
      set (n := Z.of_nat (length pts)).
      assert (Hrem : (0 <= Z.rem (Z.of_nat i + j + n) n < n)%Z).
      { apply Z.rem_bound_pos; unfold n; lia. }
      set (k := Z.rem (Z.of_nat i + j + n) n) in *.
      destruct (Z.ltb_spec k 0); [lia|].
      destruct (nth_error pts (Z.to_nat k)) eqn:Hnth; [now eexists|].
      apply nth_error_None in Hnth. unfold n in *. lia. }
  destruct Hsome as [[[sx sy] cnt] ->]. now eexists.
Qed.

Lemma smoothContour_returns (pts : list Entry) (factor : float) (js : list Z) :
  window_range (JsNum.max 1%float (JsNum.floor (factor * 3)%float)) = Some js ->
  Forall (fun j => (-3 <= j)%Z) js ->
  exists r, smoothContour pts factor = Some r.
Proof.
  intros Hwin Hjs. unfold smoothContour.
  destruct (length pts <? 3)%nat; [now eexists|].
  destruct (Nat.ltb_spec (length (valid_points pts)) 3); [now eexists|].
  rewrite Hwin.
  destruct (mapM_total (smooth_point (valid_points pts) js)
              (seq 0 (length (valid_points pts)))) as [ps ->].
  { intros i _. now apply smooth_point_returns. }
  now eexists.
Qed.

(** [processContours] returns when the tolerance is at least 0 and the
    smoothing window, if smoothing is on, is at most 3. *)
Lemma processContours_returns (settings : Settings) (contours : list Contour) :
  JsNum.le 0%float (simplifyTolerance settings) = true ->
  (JsNum.gt (smoothing settings) 0%float = true ->
   exists js,
     window_range
       (JsNum.max 1%float (JsNum.floor (smoothing settings * 3)%float))
     = Some js /\
     Forall (fun j => (-3 <= j)%Z) js) ->
  exists regions out,
    mapM (make_region settings) contours = Some regions /\
    processContours settings contours = Some out.
Proof.
  intros Htol Hsmooth.
  destruct (mapM_total (make_region settings) contours) as [regions Hmap].
  { intros contour _. unfold make_region.
    destruct (simplifyContour_returns _ Htol
                (map Pt (map num_point contour))) as (simplified & -> & _).
    destruct (JsNum.gt (smoothing settings) 0) eqn:Hgt; [|now eexists].
    destruct (Hsmooth eq_refl) as (js & Hwin & Hjs).
    destruct (smoothContour_returns simplified (smoothing settings) js Hwin Hjs)
      as [smoothed ->].
    now eexists. }
  exists regions. unfold processContours. rewrite Hmap. now eexists.
Qed.

(** In particular it returns on every list of contours under the default
    settings (tolerance 2, smoothing 0.5, window 1). *)
Lemma processContours_default_returns (contours : list Contour) :
  exists regions out,
    mapM (make_region default_settings) contours = Some regions /\
    processContours default_settings contours = Some out.
Proof.
  apply processContours_returns; [reflexivity|].
  intros _. exists [-1; 0; 1]%Z. split; [vm_compute; reflexivity|].
  repeat constructor; lia.
Qed.

(** ** The depth bound of [simplifyContour] *)

Section SimplifyDepth.

Variable tol : float.

(** More depth does not change a result. *)
Lemma simplify_fuel_mono (fuel fuel' : nat) (points r : list Entry) :
  simplify_fuel fuel points tol = Some r ->
  (fuel <= fuel')%nat ->
  simplify_fuel fuel' points tol = Some r.
Proof.
  revert fuel' points r; induction fuel as [|fuel IH];
    intros fuel' points r; [discriminate|].
  intros Hr Hle. destruct fuel' as [|fuel']; [lia|].
  cbn [simplify_fuel] in *.
  destruct (length points <=? 2)%nat; auto.
  destruct (length (valid_points points) <=? 2)%nat; auto.
  destruct (valid_points points) as [|start rest]; auto.
  destruct (farthest _ _ _) as [maxDist maxIdx].
  destruct (JsNum.gt maxDist tol); auto.
  destruct (simplify_fuel fuel
              (map Pt (firstn (maxIdx + 1) (start :: rest))) tol)
    as [l|] eqn:Hl; [|discriminate].
  rewrite (IH fuel' _ l Hl) by lia.
  destruct (simplify_fuel fuel (map Pt (skipn maxIdx (start :: rest))) tol)
    as [rr|] eqn:Hrr; [|discriminate].
  rewrite (IH fuel' _ rr Hrr) by lia.
  exact Hr.
Qed.

(** A call that splits at index 0 calls itself on the same array and
    never returns. *)
Lemma simplify_fuel_split_at_0 (fuel : nat) (start : JsPoint)
  (rest : list JsPoint) :
  let pts := start :: rest in
  (2 < length pts)%nat ->
  JsNum.gt (fst (farthest pts start (last pts start))) tol = true ->
  snd (farthest pts start (last pts start)) = 0%nat ->
  simplify_fuel fuel (map Pt pts) tol = None.
Proof.
  intros pts Hlen Hgt Hidx. subst pts.
  induction fuel as [|fuel IH]; [reflexivity|].
  rewrite simplify_fuel_unfold by exact Hlen; cbv zeta.
  rewrite Hgt, Hidx. cbn [skipn]. rewrite IH.
  destruct (simplify_fuel fuel (map Pt (firstn (0 + 1) (start :: rest))) tol);
    reflexivity.
Qed.

(** Whenever some depth is enough, the depth [length points + 1] of
    [simplifyContour] is: [None] stands for a call that never returns
    under any depth. *)
Lemma simplify_fuel_adequate (fuel : nat) (points r : list Entry) :
  simplify_fuel fuel points tol = Some r ->
  forall fuel', (length points < fuel')%nat ->
    simplify_fuel fuel' points tol = Some r.
Proof.
  revert points r; induction fuel as [|fuel IH]; intros points r;
    [discriminate|].
  intros Hr fuel' Hfuel'. destruct fuel' as [|fuel']; [lia|].
  destruct (Nat.leb_spec (length points) 2) as [Hshort|Hlong].
  { cbn [simplify_fuel] in *.
    destruct (Nat.leb_spec (length points) 2); [exact Hr|lia]. }
  pose proof (valid_points_length points) as Hvalid.
  destruct (Nat.leb_spec (length (valid_points points)) 2) as [Hvs|Hvl].
  { cbn [simplify_fuel] in *.
    destruct (Nat.leb_spec (length points) 2); [lia|].
    destruct (Nat.leb_spec (length (valid_points points)) 2); [exact Hr|lia]. }
  assert (Heq : forall f,
    simplify_fuel (S f) points tol
    = simplify_fuel (S f) (map Pt (valid_points points)) tol).
  { intros f; cbn [simplify_fuel].
    rewrite valid_points_map_Pt, length_map.
    destruct (Nat.leb_spec (length points) 2); [lia|].
    destruct (Nat.leb_spec (length (valid_points points)) 2); [lia|].
    reflexivity. }
  rewrite Heq in Hr |- *.
  destruct (valid_points points) as [|start rest] eqn:Hpts;
    [cbn [length] in Hvl; lia|].
  rewrite simplify_fuel_unfold in Hr |- * by exact Hvl; cbv zeta in Hr |- *.
  set (pts := start :: rest) in *.
  destruct (JsNum.gt (fst (farthest pts start (last pts start))) tol) eqn:Hgt;
    [|exact Hr].
  destruct (farthest_range pts start (last pts start)) as [H0|[Hi1 Hi2]].
  { exfalso.
    assert (Hnone : simplify_fuel fuel (map Pt pts) tol = None).
    { apply (simplify_fuel_split_at_0 fuel start rest Hvl);
        [exact Hgt|].
      change (snd (farthest pts start (last pts start)) = 0%nat).
      now rewrite H0. }
    rewrite H0 in Hr; cbn [snd skipn] in Hr.
    rewrite Hnone in Hr.
    destruct (simplify_fuel fuel (map Pt (firstn (0 + 1) pts)) tol);
      discriminate. }
  set (maxIdx := snd (farthest pts start (last pts start))) in *.
  destruct (simplify_fuel fuel (map Pt (firstn (maxIdx + 1) pts)) tol)
    as [l|] eqn:Hl; [|discriminate].
  destruct (simplify_fuel fuel (map Pt (skipn maxIdx pts)) tol)
    as [rr|] eqn:Hrr; [|discriminate].
  rewrite (IH _ l Hl fuel')
    by (rewrite length_map, length_firstn; lia).
  rewrite (IH _ rr Hrr fuel')
    by (rewrite length_map, length_skipn; lia).
  exact Hr.
Qed.

End SimplifyDepth.

(** [simplifyContour] yields [None] only for a call that returns under
    no depth at all. *)
Lemma simplifyContour_none (points : list Entry) (tol : float) :
  simplifyContour points tol = None ->
  forall fuel, simplify_fuel fuel points tol = None.
Proof.
  intros Hnone fuel.
  destruct (simplify_fuel fuel points tol) as [r|] eqn:Hr; [|reflexivity].
  unfold simplifyContour in Hnone.
  rewrite (simplify_fuel_adequate tol fuel points r Hr) in Hnone by lia.
  discriminate.
Qed.

(* ================================================================== *)
(** * Further properties of the pipeline                               *)
(* ================================================================== *)

(** ** Stores into a [Uint8ClampedArray] *)

Lemma in_all_bytes (b : Z) : is_byte b -> In b all_bytes.
Proof.
  unfold is_byte, all_bytes; intros Hb.
  apply in_map_iff; exists (Z.to_nat b); split; [lia|].
  apply in_seq; lia.
Qed.

(** A property of bytes that holds on each of the 256 holds on all. *)
Lemma byte_enumeration (f : Z -> bool) :
  forallb f all_bytes = true -> forall b, is_byte b -> f b = true.
Proof.
  intros Hall b Hb. rewrite forallb_forall in Hall.
  now apply Hall, in_all_bytes.
Qed.

Section ClampRange.

Local Open Scope Z_scope.

(** The integer part of a number strictly between 0 and 255. *)
Lemma floorZ_below_255 (x : float) (f : Z) :
  (x <=? 0)%float = false ->
  (255 <=? x)%float = false ->
  JsNum.floorZ x = Some f ->
  0 <= f <= 254.
Proof.
  intros Hpos Hlt Hf.
  rewrite leb_spec in Hpos, Hlt.
  change (Prim2SF 0) with (S754_zero false) in Hpos.
  change (Prim2SF 255) with (S754_finite false 8972014882652160 (-45)) in Hlt.
  pose proof (Prim2SF_valid x) as Hvalid.
  unfold JsNum.floorZ in Hf.
  destruct (Prim2SF x) as [s|s| |s m e]; try discriminate.
  destruct s; [cbn in Hpos; discriminate|].
  inversion Hf; subst f; clear Hf.
  cbn [valid_binary] in Hvalid.
  destruct (canonical_digits m e Hvalid) as (_ & Hd & _).
  pose proof (digits2_pos_bounds m) as [_ Hm].
  assert (Hm53 : Zpos m < 2 ^ 53).
  { eapply Z.lt_le_trans; [exact Hm|].
    apply Z.pow_le_mono_r; unfold prec in Hd; lia. }
  unfold SFleb in Hlt; cbn [SFcompare] in Hlt.
  split; [apply Z.shiftl_nonneg; lia|].
  apply Z.lt_succ_r.
  destruct (Z.compare_spec (-45) e) as [He|He|He]; try discriminate.
  - subst e. change (Z.shiftl (Zpos m) (-45)) with (Z.shiftr (Zpos m) 45).
    rewrite Z.shiftr_div_pow2 by lia.
    change (Pos.compare_cont Eq 8972014882652160 m)
      with (Pos.compare 8972014882652160 m) in Hlt.
    destruct (Pos.compare_spec 8972014882652160 m) as [| |Hgt];
      try discriminate.
    apply Z.div_lt_upper_bound; [reflexivity|].
    exact Hgt.
  - replace e with (- (- e)) by lia.
    rewrite Z.shiftl_opp_r, Z.shiftr_div_pow2 by lia.
    apply Z.lt_le_trans with 128; [|discriminate].
    apply Z.div_lt_upper_bound; [apply Z.pow_pos_nonneg; lia|].
    apply Z.lt_le_trans with (2 ^ 53); [exact Hm53|].
    change (2 ^ 53) with (2 ^ 46 * 128).
    apply Z.mul_le_mono_nonneg_r; [discriminate|].
    apply Z.pow_le_mono_r; lia.
Qed.

(** Whatever number is stored, the array holds a byte. *)
Lemma to_uint8_clamp_range (x : float) : is_byte (JsNum.to_uint8_clamp x).
Proof.
  unfold JsNum.to_uint8_clamp, is_byte.
  destruct (is_nan x); [lia|].
  destruct (x <=? 0)%float eqn:Hpos; [lia|].
  destruct (255 <=? x)%float eqn:Hlt; [lia|].
  destruct (JsNum.floorZ x) as [f|] eqn:Hf; [|lia].
  pose proof (floorZ_below_255 x f Hpos Hlt Hf).
  destruct (_ <? x)%float; [lia|].
  destruct (x <? _)%float; [lia|].
  destruct (Z.even f); lia.
Qed.

End ClampRange.

(** ** Loops over the pixels of a buffer *)

Lemma array_set_nat_get (a : ByteArray) (i j : nat) (v : Z) :
  nth_error (array_set_nat a i v) j =
    if ((j =? i) && (i <? length a))%nat then Some v else nth_error a j.
Proof.
  destruct (Nat.eqb_spec j i) as [->|Hji]; cbn [andb].
  - destruct (Nat.ltb_spec i (length a)).
    + now apply array_set_nat_same.
    + now rewrite array_set_nat_beyond.
  - apply array_set_nat_other; congruence.
Qed.

Lemma byte_buffer_set (a : ByteArray) (i : nat) (v : Z) :
  byte_buffer a -> is_byte v -> byte_buffer (array_set_nat a i v).
Proof.
  unfold byte_buffer; intros Ha Hv.
  revert i; induction Ha as [|h t Hh Ht IH]; intros [|i];
    cbn [array_set_nat]; constructor; auto.
Qed.

Lemma byte_buffer_nth (a : ByteArray) (i : nat) (b : Z) :
  byte_buffer a -> nth_error a i = Some b -> is_byte b.
Proof.
  unfold byte_buffer; intros Ha Hb.
  rewrite Forall_forall in Ha. eapply Ha, nth_error_In; eauto.
Qed.

Section PixelLoop.

(** A loop [for (i = 0; i < data.length; i += 4)] whose body writes the
    three colour channels of pixel [i / 4] with values [out r g b c]
    computed from the reads [r], [g], [b] of that pixel. *)
Variable step : ByteArray -> nat -> ByteArray.
Variable out : option Z -> option Z -> option Z -> nat -> Z.

Hypothesis step_spec : forall d i j,
  nth_error (step d i) j =
    if ((i <=? j) && (j <=? i + 2) && (j <? length d))%nat
    then Some (out (nth_error d i) (nth_error d (i + 1))
                 (nth_error d (i + 2)) (j - i))
    else nth_error d j.

Lemma pixel_step_length (d : ByteArray) (i : nat) :
  length (step d i) = length d.
Proof.
  destruct (Nat.lt_trichotomy (length (step d i)) (length d))
    as [Hlt|[Heq|Hgt]]; auto; exfalso.
  - assert (Hn : nth_error (step d i) (length (step d i)) = None)
      by (apply nth_error_None; lia).
    rewrite step_spec in Hn.
    destruct (_ && _ && _); [discriminate|].
    apply nth_error_None in Hn; lia.
  - assert (Hn : nth_error (step d i) (length d) <> None)
      by (apply nth_error_Some; lia).
    rewrite step_spec, Nat.ltb_irrefl, Bool.andb_false_r in Hn.
    apply Hn, nth_error_None; lia.
Qed.

Lemma pixel_loop_prefix (d : ByteArray) (k : nat) :
  let d' := fold_left step (map (fun q => 4 * q)%nat (seq 0 k)) d in
  length d' = length d /\
  forall j,
    nth_error d' j =
      if ((j / 4 <? k) && (j mod 4 <? 3) && (j <? length d))%nat
      then Some (out (red_of d (j / 4)) (green_of d (j / 4))
                   (blue_of d (j / 4)) (j mod 4))
      else nth_error d j.
Proof.
  induction k as [|k IH]; cbv zeta in *.
  - simpl; split; auto.
  - rewrite seq_S, map_app, fold_left_app; cbn [map fold_left Nat.add].
    destruct IH as [Hlen IH].
    set (d' := fold_left step (map (fun q => (4 * q)%nat) (seq 0 k)) d) in *.
    split; [now rewrite pixel_step_length|].
    intro j.
    rewrite step_spec, Hlen.
    assert (Hdiv : forall c, (c < 4)%nat -> ((4 * k + c) / 4 = k)%nat).
    { intros c Hc; symmetry; apply Nat.div_unique with c; lia. }
    assert (Hread : forall c, (c < 4)%nat ->
              nth_error d' (4 * k + c) = nth_error d (4 * k + c)).
    { intros c Hc; rewrite IH, (Hdiv c Hc), Nat.ltb_irrefl. reflexivity. }
    pose proof (Hread 0%nat ltac:(lia)) as H0; rewrite Nat.add_0_r in H0.
    rewrite H0, (Hread 1%nat), (Hread 2%nat) by lia.
    rewrite IH.
    pose proof (Nat.div_mod_eq j 4) as Hdm.
    pose proof (Nat.mod_upper_bound j 4 ltac:(lia)) as Hm.
    destruct (Nat.ltb_spec j (length d)) as [Hj|Hj];
      rewrite ?Bool.andb_true_r, ?Bool.andb_false_r; auto.
    destruct (Nat.leb_spec (4 * k) j) as [H1|H1];
      destruct (Nat.leb_spec j (4 * k + 2)) as [H2|H2];
      destruct (Nat.ltb_spec (j / 4) (S k)) as [H3|H3];
      destruct (Nat.ltb_spec (j / 4) k) as [H4|H4];
      destruct (Nat.ltb_spec (j mod 4) 3) as [H5|H5];
      cbn [andb]; auto; try lia.
    unfold red_of, green_of, blue_of.
    replace (j / 4)%nat with k by lia.
    replace (j - 4 * k)%nat with (j mod 4) by lia. reflexivity.
Qed.

(** The array after the whole loop. *)
Lemma pixel_loop_spec (d : ByteArray) :
  let d' := fold_left step (stride4 (length d)) d in
  length d' = length d /\
  forall j,
    nth_error d' j =
      if ((j mod 4 <? 3) && (j <? length d))%nat
      then Some (out (red_of d (j / 4)) (green_of d (j / 4))
                   (blue_of d (j / 4)) (j mod 4))
      else nth_error d j.
Proof.
  cbv zeta. unfold stride4.
  destruct (pixel_loop_prefix d ((length d + 3) / 4)) as [Hlen H].
  split; [exact Hlen|]. intro j. rewrite H.
  destruct (Nat.ltb_spec j (length d)) as [Hj|Hj];
    rewrite ?Bool.andb_true_r, ?Bool.andb_false_r; auto.
  replace (j / 4 <? (length d + 3) / 4)%nat with true; [reflexivity|].
  symmetry; apply Nat.ltb_lt.
  pose proof (Nat.div_mod_eq j 4).
  pose proof (Nat.mod_upper_bound j 4 ltac:(lia)).
  pose proof (Nat.div_mod_eq (length d + 3) 4).
  pose proof (Nat.mod_upper_bound (length d + 3) 4 ltac:(lia)).
  lia.
Qed.

End PixelLoop.

(** ** NaN in arithmetic *)

Lemma is_nan_spec (x : float) : is_nan x = true <-> Prim2SF x = S754_nan.
Proof.
  unfold is_nan. rewrite eqb_spec.
  destruct (Prim2SF x) as [s|s| |s m e]; cbn.
  - split; discriminate.
  - destruct s; cbn; split; discriminate.
  - split; reflexivity.
  - unfold SFeqb, SFcompare.
    destruct s; rewrite Z.compare_refl, Pos.compare_cont_refl; cbn;
      split; discriminate.
Qed.

Lemma add_nan (a b : float) :
  is_nan a = true \/ is_nan b = true -> is_nan (a + b) = true.
Proof.
  rewrite !is_nan_spec, add_spec. intros [H|H]; rewrite H.
  - reflexivity.
  - destruct (Prim2SF a); reflexivity.
Qed.

Lemma mul_nan (a b : float) :
  is_nan a = true \/ is_nan b = true -> is_nan (a * b) = true.
Proof.
  rewrite !is_nan_spec, mul_spec. intros [H|H]; rewrite H.
  - reflexivity.
  - destruct (Prim2SF a); reflexivity.
Qed.

Lemma to_uint8_clamp_nan (x : float) :
  is_nan x = true -> JsNum.to_uint8_clamp x = 0%Z.
Proof.
  unfold JsNum.to_uint8_clamp; now intros ->.
Qed.

(** ** The colour loops of [toGrayscale], [invertImage] and [posterize] *)

Ltac nat_tests :=
  repeat match goal with
         | |- context [(?a =? ?b)%nat] =>
             first [ replace (a =? b)%nat with true
                       by (symmetry; apply Nat.eqb_eq; lia)
                   | replace (a =? b)%nat with false
                       by (symmetry; apply Nat.eqb_neq; lia) ]
         | |- context [(?a <=? ?b)%nat] =>
             first [ replace (a <=? b)%nat with true
                       by (symmetry; apply Nat.leb_le; lia)
                   | replace (a <=? b)%nat with false
                       by (symmetry; apply Nat.leb_gt; lia) ]
         | |- context [(?a <? ?b)%nat] =>
             first [ replace (a <? b)%nat with true
                       by (symmetry; apply Nat.ltb_lt; lia)
                   | replace (a <? b)%nat with false
                       by (symmetry; apply Nat.ltb_ge; lia) ]
         end.

(** The position of index [j] within the three colour bytes of the
    pixel that starts at [i]. *)
Lemma colour_position (i j : nat) :
  (j < i \/ j = i \/ j = i + 1 \/ j = i + 2 \/ i + 2 < j)%nat.
Proof. lia. Qed.

Lemma toGrayscale_step_spec (d : ByteArray) (i j : nat) :
  nth_error (Stage.toGrayscale_step d i) j =
    if ((i <=? j) && (j <=? i + 2) && (j <? length d))%nat
    then Some ((fun r g b (_ : nat) =>
                  JsNum.to_uint8_clamp (Stage.luminosity r g b))
                 (nth_error d i) (nth_error d (i + 1))
                 (nth_error d (i + 2)) (j - i)%nat)
    else nth_error d j.
Proof.
  unfold Stage.toGrayscale_step; cbv beta zeta.
  rewrite !array_set_nat_get, !array_set_nat_length.
  destruct (Nat.ltb_spec j (length d)) as [Hj|Hj];
    destruct (colour_position i j) as [H|[H|[H|[H|H]]]];
    try subst j; nat_tests; cbn [andb]; try reflexivity;
    symmetry; apply nth_error_None; lia.
Qed.

Lemma invertImage_step_spec (d : ByteArray) (i j : nat) :
  nth_error (Stage.invertImage_step d i) j =
    if ((i <=? j) && (j <=? i + 2) && (j <? length d))%nat
    then Some ((fun r g b c => Stage.inverted (channel r g b c))
                 (nth_error d i) (nth_error d (i + 1))
                 (nth_error d (i + 2)) (j - i)%nat)
    else nth_error d j.
Proof.
  unfold Stage.invertImage_step; cbv beta zeta.
  rewrite !array_set_nat_get, !array_set_nat_length.
  destruct (Nat.ltb_spec j (length d)) as [Hj|Hj];
    destruct (colour_position i j) as [H|[H|[H|[H|H]]]];
    try subst j; nat_tests; cbn [andb];
    rewrite ?Nat.sub_diag, ?Nat.add_sub_swap, ?Nat.sub_diag by lia;
    try reflexivity;
    try (symmetry; apply nth_error_None; lia).
Qed.

Lemma posterize_step_spec (step : float) (d : ByteArray) (i j : nat) :
  nth_error (Stage.posterize_step step d i) j =
    if ((i <=? j) && (j <=? i + 2) && (j <? length d))%nat
    then Some ((fun r g b c => Stage.quantized step (channel r g b c))
                 (nth_error d i) (nth_error d (i + 1))
                 (nth_error d (i + 2)) (j - i)%nat)
    else nth_error d j.
Proof.
  unfold Stage.posterize_step; cbv beta zeta.
  rewrite !array_set_nat_get, !array_set_nat_length.
  destruct (Nat.ltb_spec j (length d)) as [Hj|Hj];
    destruct (colour_position i j) as [H|[H|[H|[H|H]]]];
    try subst j; nat_tests; cbn [andb];
    rewrite ?Nat.sub_diag, ?Nat.add_sub_swap, ?Nat.sub_diag by lia;
    try reflexivity;
    try (symmetry; apply nth_error_None; lia).
Qed.

Lemma channel_read (d : ByteArray) (j : nat) :
  (j mod 4 < 3)%nat ->
  channel (red_of d (j / 4)) (green_of d (j / 4)) (blue_of d (j / 4))
    (j mod 4) = nth_error d j.
Proof.
  intros Hc. pose proof (Nat.div_mod_eq j 4) as Hj.
  unfold red_of, green_of, blue_of.
  destruct (j mod 4) as [|[|[|c]]]; cbn [channel]; try lia; f_equal; lia.
Qed.

(** The buffer after [toGrayscale]. *)
Lemma toGrayscale_spec (imageData : ImageData) (j : nat) :
  nth_error (data (Stage.toGrayscale imageData)) j =
    if ((j mod 4 <? 3) && (j <? length (data imageData)))%nat
    then Some (gray_of (data imageData) (j / 4))
    else nth_error (data imageData) j.
Proof.
  unfold Stage.toGrayscale; cbn [data].
  apply (pixel_loop_spec _ _ toGrayscale_step_spec (data imageData)).
Qed.

Lemma toGrayscale_length (imageData : ImageData) :
  length (data (Stage.toGrayscale imageData)) = length (data imageData).
Proof.
  unfold Stage.toGrayscale; cbn [data].
  apply (pixel_loop_spec _ _ toGrayscale_step_spec (data imageData)).
Qed.

(** The buffer after [invertImage]. *)
Lemma invertImage_spec (imageData : ImageData) (j : nat) :
  nth_error (data (Stage.invertImage imageData)) j =
    if ((j mod 4 <? 3) && (j <? length (data imageData)))%nat
    then Some (Stage.inverted (nth_error (data imageData) j))
    else nth_error (data imageData) j.
Proof.
  unfold Stage.invertImage; cbn [data].
  destruct (pixel_loop_spec _ _ invertImage_step_spec (data imageData))
    as [_ H].
  rewrite H. destruct (Nat.ltb_spec (j mod 4) 3) as [Hc|Hc]; auto.
  cbv beta. now rewrite channel_read.
Qed.

Lemma invertImage_length (imageData : ImageData) :
  length (data (Stage.invertImage imageData)) = length (data imageData).
Proof.
  unfold Stage.invertImage; cbn [data].
  apply (pixel_loop_spec _ _ invertImage_step_spec (data imageData)).
Qed.

(** The buffer after [posterize]. *)
Lemma posterize_spec (imageData : ImageData) (levels : float) (j : nat) :
  nth_error (data (Stage.posterize imageData levels)) j =
    if ((j mod 4 <? 3) && (j <? length (data imageData)))%nat
    then Some (Stage.quantized (255 / levels) (nth_error (data imageData) j))
    else nth_error (data imageData) j.
Proof.
  unfold Stage.posterize; cbn [data].
  destruct (pixel_loop_spec _ _ (posterize_step_spec (255 / levels))
              (data imageData)) as [_ H].
  rewrite H. destruct (Nat.ltb_spec (j mod 4) 3) as [Hc|Hc]; auto.
  cbv beta. now rewrite channel_read.
Qed.

Lemma posterize_length (imageData : ImageData) (levels : float) :
  length (data (Stage.posterize imageData levels)) = length (data imageData).
Proof.
  unfold Stage.posterize; cbn [data].
  apply (pixel_loop_spec _ _ (posterize_step_spec (255 / levels))
           (data imageData)).
Qed.

(** Two images with the same dimensions and the same bytes are equal. *)
Lemma image_ext (a b : ImageData) :
  width a = width b -> height a = height b ->
  (forall j, nth_error (data a) j = nth_error (data b) j) ->
  a = b.
Proof.
  destruct a as [wa ha da], b as [wb hb db]; cbn; intros -> -> H.
  f_equal. now apply nth_error_ext.
Qed.

(** ** Inversion *)

Lemma inverted_byte (b : Z) :
  is_byte b -> Stage.inverted (Some b) = (255 - b)%Z.
Proof.
  intros Hb. apply Z.eqb_eq.
  apply (byte_enumeration
           (fun b => Z.eqb (Stage.inverted (Some b)) (255 - b)));
    [vm_compute; reflexivity|exact Hb].
Qed.

(** X1.  [invertImage] replaces every colour byte [b] of a buffer of
    bytes by [255 - b] and leaves every alpha byte as it is. *)
Theorem invertImage_complement (imageData : ImageData) (j : nat) (b : Z) :
  byte_buffer (data imageData) ->
  nth_error (data imageData) j = Some b ->
  nth_error (data (Stage.invertImage imageData)) j =
    Some (if (j mod 4 <? 3)%nat then 255 - b else b)%Z.
Proof.
  intros Hbytes Hj. rewrite invertImage_spec, Hj.
  assert (Hlen : (j < length (data imageData))%nat)
    by (apply nth_error_Some; congruence).
  apply Nat.ltb_lt in Hlen; rewrite Hlen, Bool.andb_true_r.
  destruct (j mod 4 <? 3)%nat; [|reflexivity].
  f_equal. apply inverted_byte. eapply byte_buffer_nth; eauto.
Qed.

Lemma invertImage_complement_witness :
  byte_buffer (data two_pixels) /\
  nth_error (data two_pixels) 1 = Some 200%Z /\
  nth_error (data (Stage.invertImage two_pixels)) 1 = Some 55%Z.
Proof.
  assert (Hb : byte_buffer (data two_pixels)).
  { unfold byte_buffer, is_byte; cbn; repeat constructor; lia. }
  split; [exact Hb|]. split; [reflexivity|].
  exact (invertImage_complement two_pixels 1 200 Hb eq_refl).
Defined.

(** X2.  Inverting a buffer of bytes twice gives the buffer back:
    [invertImage] is its own inverse. *)
Theorem invertImage_involutive (imageData : ImageData) :
  byte_buffer (data imageData) ->
  Stage.invertImage (Stage.invertImage imageData) = imageData.
Proof.
  intros Hbytes. apply image_ext; try reflexivity.
  intro j. rewrite invertImage_spec, invertImage_length, invertImage_spec.
  destruct ((j mod 4 <? 3) && (j <? length (data imageData)))%nat eqn:Hc;
    [|reflexivity].
  apply andb_prop in Hc. destruct Hc as [_ Hlen]. apply Nat.ltb_lt in Hlen.
  destruct (nth_error (data imageData) j) as [b|] eqn:Hj;
    [|apply nth_error_None in Hj; lia].
  assert (Hb : is_byte b) by (eapply byte_buffer_nth; eauto).
  rewrite (inverted_byte b Hb), inverted_byte by (unfold is_byte in *; lia).
  f_equal; lia.
Qed.

Lemma invertImage_involutive_witness :
  byte_buffer (data two_pixels) /\
  Stage.invertImage (Stage.invertImage two_pixels) = two_pixels.
Proof.
  assert (Hb : byte_buffer (data two_pixels)).
  { unfold byte_buffer, is_byte; cbn; repeat constructor; lia. }
  split; [exact Hb|].
  exact (invertImage_involutive two_pixels Hb).
Defined.

(** ** Grayscale *)

Lemma luminosity_gray (v : Z) :
  is_byte v ->
  JsNum.to_uint8_clamp (Stage.luminosity (Some v) (Some v) (Some v)) = v.
Proof.
  intros Hv. apply Z.eqb_eq.
  apply (byte_enumeration
           (fun v => Z.eqb (JsNum.to_uint8_clamp
                              (Stage.luminosity (Some v) (Some v) (Some v)))
                       v));
    [vm_compute; reflexivity|exact Hv].
Qed.

(** A pixel with a channel outside the buffer gets the byte 0. *)
Lemma luminosity_undefined (r g b : option Z) :
  r = None \/ g = None \/ b = None ->
  JsNum.to_uint8_clamp (Stage.luminosity r g b) = 0%Z.
Proof.
  intros H. apply to_uint8_clamp_nan. unfold Stage.luminosity.
  destruct H as [H|[H|H]]; subst; cbn [byte_num].
  - apply add_nan; left; apply add_nan; left; apply mul_nan; now right.
  - apply add_nan; left; apply add_nan; right; apply mul_nan; now right.
  - apply add_nan; right; apply mul_nan; now right.
Qed.

Lemma mod4_channel (p c : nat) :
  (c < 4)%nat -> ((4 * p + c) mod 4 = c /\ (4 * p + c) / 4 = p)%nat.
Proof.
  intros Hc; split; symmetry.
  - apply Nat.mod_unique with p; lia.
  - apply Nat.div_unique with c; lia.
Qed.

(** The colour bytes of pixel [p] after [toGrayscale]. *)
Lemma toGrayscale_channel (imageData : ImageData) (p c : nat) :
  (c < 3)%nat ->
  nth_error (data (Stage.toGrayscale imageData)) (4 * p + c) =
    if (4 * p + c <? length (data imageData))%nat
    then Some (gray_of (data imageData) p) else None.
Proof.
  intros Hc. rewrite toGrayscale_spec.
  destruct (mod4_channel p c ltac:(lia)) as [Hmod Hdiv].
  rewrite Hmod, Hdiv.
  apply Nat.ltb_lt in Hc; rewrite Hc; cbn [andb].
  destruct (Nat.ltb_spec (4 * p + c) (length (data imageData)));
    [reflexivity|now apply nth_error_None].
Qed.

Lemma gray_of_toGrayscale (imageData : ImageData) (p : nat) :
  (4 * p < length (data imageData))%nat ->
  gray_of (data (Stage.toGrayscale imageData)) p =
    gray_of (data imageData) p.
Proof.
  intros Hp. unfold gray_of at 1. unfold red_of, green_of, blue_of.
  pose proof (toGrayscale_channel imageData p 0 ltac:(lia)) as Hr.
  rewrite Nat.add_0_r in Hr.
  rewrite Hr, !toGrayscale_channel by lia.
  destruct (Nat.ltb_spec (4 * p + 2) (length (data imageData))) as [H2|H2].
  - nat_tests. apply luminosity_gray, to_uint8_clamp_range.
  - rewrite luminosity_undefined by (right; right; reflexivity).
    symmetry; apply luminosity_undefined. right; right.
    unfold blue_of. now apply nth_error_None.
Qed.

(** X3.  [toGrayscale] is idempotent: converting an image that was
    already converted changes nothing, whatever the buffer holds. *)
Theorem toGrayscale_idempotent (imageData : ImageData) :
  Stage.toGrayscale (Stage.toGrayscale imageData) =
    Stage.toGrayscale imageData.
Proof.
  apply image_ext; try reflexivity.
  intro j. rewrite toGrayscale_spec, toGrayscale_length.
  rewrite (toGrayscale_spec imageData j).
  destruct ((j mod 4 <? 3) && (j <? length (data imageData)))%nat eqn:Hc;
    [|reflexivity].
  apply andb_prop in Hc. destruct Hc as [_ Hlen]. apply Nat.ltb_lt in Hlen.
  f_equal. apply gray_of_toGrayscale.
  pose proof (Nat.div_mod_eq j 4). lia.
Qed.

(** X4.  After [toGrayscale], the three colour channels of every whole
    pixel hold one and the same byte, and the alpha channel holds what
    it held before. *)
Theorem toGrayscale_equal_channels (imageData : ImageData) (p : nat) :
  (4 * p + 3 < length (data imageData))%nat ->
  let d' := data (Stage.toGrayscale imageData) in
  (exists v, is_byte v /\
     nth_error d' (4 * p) = Some v /\
     nth_error d' (4 * p + 1) = Some v /\
     nth_error d' (4 * p + 2) = Some v) /\
  nth_error d' (4 * p + 3) = nth_error (data imageData) (4 * p + 3).
Proof.
  intros Hp; cbv zeta. split.
  - exists (gray_of (data imageData) p).
    split; [apply to_uint8_clamp_range|].
    pose proof (toGrayscale_channel imageData p 0 ltac:(lia)) as Hr.
    rewrite Nat.add_0_r in Hr.
    rewrite Hr, !toGrayscale_channel by lia. nat_tests. auto.
  - rewrite toGrayscale_spec.
    destruct (mod4_channel p 3 ltac:(lia)) as [Hmod _].
    rewrite Hmod. reflexivity.
Qed.

Lemma toGrayscale_equal_channels_witness :
  nth_error (data (Stage.toGrayscale two_pixels)) (4 * 1) =
    nth_error (data (Stage.toGrayscale two_pixels)) (4 * 1 + 2) /\
  nth_error (data (Stage.toGrayscale two_pixels)) (4 * 1 + 3) = Some 7%Z.
Proof.
  destruct (toGrayscale_equal_channels two_pixels 1 ltac:(cbn; lia))
    as [(v & _ & Hr & _ & Hb) Ha].
  split; [now rewrite Hr, Hb|exact Ha].
Defined.

(** X5.  A pixel that is gray already, its three colour channels
    holding the same byte [v], keeps its bytes under [toGrayscale]: the
    rounded weights [0.299], [0.587] and [0.114] never move a gray
    value. *)
Theorem toGrayscale_keeps_gray (imageData : ImageData) (p c : nat) (v : Z) :
  is_byte v ->
  red_of (data imageData) p = Some v ->
  green_of (data imageData) p = Some v ->
  blue_of (data imageData) p = Some v ->
  (c < 3)%nat ->
  nth_error (data (Stage.toGrayscale imageData)) (4 * p + c) = Some v.
Proof.
  intros Hv Hr Hg Hb Hc.
  assert (Hlen : (4 * p + 2 < length (data imageData))%nat)
    by (apply nth_error_Some; unfold blue_of in Hb; congruence).
  rewrite toGrayscale_channel by exact Hc. nat_tests.
  unfold gray_of. rewrite Hr, Hg, Hb. f_equal. now apply luminosity_gray.
Qed.

Lemma toGrayscale_keeps_gray_witness :
  nth_error (data (Stage.toGrayscale (mkImageData 1 1 [77; 77; 77; 9]%Z))) 1
  = Some 77%Z.
Proof.
  apply (toGrayscale_keeps_gray (mkImageData 1 1 [77; 77; 77; 9]%Z) 0 1 77);
    try reflexivity; unfold is_byte; lia.
Defined.

(** ** Binarizing twice *)

Lemma byte_num_bounds (b : Z) :
  is_byte b ->
  JsNum.le (JsNum.of_Z 0) (JsNum.of_Z b) = true /\
  JsNum.le (JsNum.of_Z b) (JsNum.of_Z 255) = true.
Proof.
  intros Hb. apply andb_prop.
  apply (byte_enumeration
           (fun b => JsNum.le (JsNum.of_Z 0) (JsNum.of_Z b)
                     && JsNum.le (JsNum.of_Z b) (JsNum.of_Z 255)));
    [vm_compute; reflexivity|exact Hb].
Qed.

Lemma num_lt_le_trans (a b c : float) :
  JsNum.lt a b = true -> JsNum.le b c = true -> JsNum.lt a c = true.
Proof. intros; key_order. Qed.

Lemma binarized_twice (thresh : float) (b : Z) :
  is_byte b ->
  binarized thresh (Some (binarized thresh (Some b))) =
    binarized thresh (Some b).
Proof.
  intros Hb. destruct (byte_num_bounds b Hb) as [H0 H255].
  unfold binarized, byte_gt, JsNum.gt.
  destruct (thresh <? JsNum.of_Z b)%float eqn:Hgt.
  - pose proof (num_lt_le_trans thresh (JsNum.of_Z b) (JsNum.of_Z 255)
                  Hgt H255) as H.
    unfold JsNum.lt in H. now rewrite H.
  - destruct (thresh <? JsNum.of_Z 0)%float eqn:H; [|reflexivity].
    pose proof (num_lt_le_trans thresh (JsNum.of_Z 0) (JsNum.of_Z b)
                  H H0) as H'.
    unfold JsNum.lt in H'. congruence.
Qed.

(** X6.  [threshold] is idempotent on a buffer of bytes: binarizing the
    binarized image again at the same level, whatever the level,
    changes nothing. *)
Theorem threshold_idempotent (imageData : ImageData) (level : float) :
  byte_buffer (data imageData) ->
  threshold (threshold imageData level) level = threshold imageData level.
Proof.
  intros Hbytes. apply image_ext; try reflexivity.
  intro j.
  destruct (Nat.ltb_spec j (length (data imageData))) as [Hj|Hj].
  2:{ transitivity (@None Z); [|symmetry];
      apply nth_error_None; rewrite !threshold_length; lia. }
  pose proof (Nat.div_mod_eq j 4) as Hdm.
  pose proof (Nat.mod_upper_bound j 4 ltac:(lia)) as Hm.
  set (p := (j / 4)%nat) in *. set (c := (j mod 4)%nat) in *.
  rewrite Hdm.
  destruct (Nat.eq_dec c 3) as [->|Hc].
  - now rewrite !threshold_alpha.
  - rewrite (threshold_channel (threshold imageData level) level p c)
      by (rewrite ?threshold_length; lia).
    rewrite (threshold_channel imageData level p c) by lia.
    pose proof (threshold_channel imageData level p 0 ltac:(lia)) as Hr.
    rewrite Nat.add_0_r in Hr. rewrite Hr by lia.
    destruct (nth_error (data imageData) (4 * p)) as [b|] eqn:Hb;
      [|apply nth_error_None in Hb; lia].
    f_equal. apply binarized_twice. eapply byte_buffer_nth; eauto.
Qed.

Lemma threshold_idempotent_witness :
  byte_buffer (data two_pixels) /\
  threshold (threshold two_pixels 50) 50 = threshold two_pixels 50.
Proof.
  assert (Hb : byte_buffer (data two_pixels)).
  { unfold byte_buffer, is_byte; cbn; repeat constructor; lia. }
  split; [exact Hb|].
  exact (threshold_idempotent two_pixels 50 Hb).
Defined.

(** ** Posterizing *)

(** A property of the integers of a loop range that holds on each holds
    on all. *)
Lemma range_enumeration (f : Z -> bool) (lo hi : Z) :
  forallb f (zrange lo hi) = true ->
  forall z, (lo <= z < hi)%Z -> f z = true.
Proof.
  intros Hall z Hz. rewrite forallb_forall in Hall.
  now apply Hall, in_zrange.
Qed.

Lemma quantized_twice (levels b : Z) :
  (1 <= levels <= 8)%Z -> is_byte b ->
  let step := (255 / JsNum.of_Z levels)%float in
  Stage.quantized step (Some (Stage.quantized step (Some b))) =
    Stage.quantized step (Some b).
Proof.
  intros Hl Hb; cbv zeta. apply Z.eqb_eq.
  revert b Hb. apply byte_enumeration.
  revert levels Hl.
  assert (H : forall levels, (1 <= levels < 9)%Z ->
            forallb
              (fun b =>
                 Z.eqb
                   (Stage.quantized (255 / JsNum.of_Z levels)
                      (Some (Stage.quantized (255 / JsNum.of_Z levels)
                               (Some b))))
                   (Stage.quantized (255 / JsNum.of_Z levels) (Some b)))
              all_bytes = true).
  { apply (range_enumeration
             (fun levels =>
                forallb
                  (fun b =>
                     Z.eqb
                       (Stage.quantized (255 / JsNum.of_Z levels)
                          (Some (Stage.quantized (255 / JsNum.of_Z levels)
                                   (Some b))))
                       (Stage.quantized (255 / JsNum.of_Z levels) (Some b)))
                  all_bytes)).
    vm_compute. reflexivity. }
  intros levels Hl. apply H. lia.
Qed.

Lemma quantized_level (levels b : Z) :
  (1 <= levels <= 8)%Z -> is_byte b ->
  let step := (255 / JsNum.of_Z levels)%float in
  existsb
    (fun k => Z.eqb (Stage.quantized step (Some b))
                (JsNum.to_uint8_clamp (JsNum.of_Z k * step)))
    (zrange 0 (levels + 1)) = true.
Proof.
  intros Hl Hb; cbv zeta.
  revert b Hb. apply byte_enumeration.
  revert levels Hl.
  assert (H : forall levels, (1 <= levels < 9)%Z ->
            forallb
              (fun b =>
                 existsb
                   (fun k =>
                      Z.eqb
                        (Stage.quantized (255 / JsNum.of_Z levels) (Some b))
                        (JsNum.to_uint8_clamp
                           (JsNum.of_Z k * (255 / JsNum.of_Z levels))))
                   (zrange 0 (levels + 1)))
              all_bytes = true).
  { apply (range_enumeration
             (fun levels =>
                forallb
                  (fun b =>
                     existsb
                       (fun k =>
                          Z.eqb
                            (Stage.quantized (255 / JsNum.of_Z levels)
                               (Some b))
                            (JsNum.to_uint8_clamp
                               (JsNum.of_Z k * (255 / JsNum.of_Z levels))))
                       (zrange 0 (levels + 1)))
                  all_bytes)).
    vm_compute. reflexivity. }
  intros levels Hl. apply H. lia.
Qed.

(** X7.  For a whole number of levels from 1 to 8 (the range of the
    setting), [posterize] is idempotent on a buffer of bytes: every
    byte it produces is one of its own fixed points. *)
Theorem posterize_idempotent (imageData : ImageData) (levels : Z) :
  (1 <= levels <= 8)%Z ->
  byte_buffer (data imageData) ->
  Stage.posterize (Stage.posterize imageData (JsNum.of_Z levels))
    (JsNum.of_Z levels) =
  Stage.posterize imageData (JsNum.of_Z levels).
Proof.
  intros Hl Hbytes. apply image_ext; try reflexivity.
  intro j. rewrite posterize_spec, posterize_length.
  rewrite (posterize_spec imageData _ j).
  destruct ((j mod 4 <? 3) && (j <? length (data imageData)))%nat eqn:Hc;
    [|reflexivity].
  apply andb_prop in Hc. destruct Hc as [_ Hlen]. apply Nat.ltb_lt in Hlen.
  destruct (nth_error (data imageData) j) as [b|] eqn:Hj;
    [|apply nth_error_None in Hj; lia].
  f_equal. apply (quantized_twice levels b Hl).
  eapply byte_buffer_nth; eauto.
Qed.

Lemma posterize_idempotent_witness :
  (1 <= 4 <= 8)%Z /\ byte_buffer (data two_pixels) /\
  Stage.posterize (Stage.posterize two_pixels (JsNum.of_Z 4)) (JsNum.of_Z 4)
  = Stage.posterize two_pixels (JsNum.of_Z 4).
Proof.
  assert (Hb : byte_buffer (data two_pixels)).
  { unfold byte_buffer, is_byte; cbn; repeat constructor; lia. }
  split; [lia|]. split; [exact Hb|].
  exact (posterize_idempotent two_pixels 4 ltac:(lia) Hb).
Defined.

(** Each colour value is a fixed point of the quantization, so a byte
    that holds it is stored back as it is. *)
Lemma quantized_level_value (levels k : Z) :
  (1 <= levels <= 8)%Z -> (0 <= k <= levels)%Z ->
  Stage.quantized (255 / JsNum.of_Z levels) (Some (level_value levels k)) =
    level_value levels k.
Proof.
  intros Hl Hk. apply Z.eqb_eq.
  assert (H : forall levels, (1 <= levels < 9)%Z ->
            forallb
              (fun k =>
                 Z.eqb
                   (Stage.quantized (255 / JsNum.of_Z levels)
                      (Some (level_value levels k)))
                   (level_value levels k))
              (zrange 0 (levels + 1)) = true).
  { apply (range_enumeration
             (fun levels =>
                forallb
                  (fun k =>
                     Z.eqb
                       (Stage.quantized (255 / JsNum.of_Z levels)
                          (Some (level_value levels k)))
                       (level_value levels k))
                  (zrange 0 (levels + 1)))).
    vm_compute. reflexivity. }
  specialize (H levels ltac:(lia)). rewrite forallb_forall in H.
  apply H. apply in_zrange. lia.
Qed.

(** The colour values grow with their number. *)
Lemma level_value_increasing (levels k1 k2 : Z) :
  (1 <= levels <= 8)%Z -> (0 <= k1)%Z -> (k1 < k2)%Z -> (k2 <= levels)%Z ->
  (level_value levels k1 < level_value levels k2)%Z.
Proof.
  intros Hl H0 H12 H2. apply Z.ltb_lt.
  assert (H : forall levels, (1 <= levels < 9)%Z ->
            forallb
              (fun k1 =>
                 forallb
                   (fun k2 =>
                      implb (k1 <? k2)%Z
                        (level_value levels k1 <? level_value levels k2)%Z)
                   (zrange 0 (levels + 1)))
              (zrange 0 (levels + 1)) = true).
  { apply (range_enumeration
             (fun levels =>
                forallb
                  (fun k1 =>
                     forallb
                       (fun k2 =>
                          implb (k1 <? k2)%Z
                            (level_value levels k1
                             <? level_value levels k2)%Z)
                       (zrange 0 (levels + 1)))
                  (zrange 0 (levels + 1)))).
    vm_compute. reflexivity. }
  specialize (H levels ltac:(lia)). rewrite forallb_forall in H.
  specialize (H k1 ltac:(apply in_zrange; lia)).
  rewrite forallb_forall in H.
  specialize (H k2 ltac:(apply in_zrange; lia)).
  replace (k1 <? k2)%Z with true in H by (symmetry; apply Z.ltb_lt; lia).
  exact H.
Qed.

(** X8.  With a whole number [levels] from 1 to 8, [posterize] leaves
    exactly [levels + 1] colour values, not [levels].  Every colour
    byte of the result is one of the values [level_value levels k], the
    stored value of [k * (255 / levels)], for a whole [k] from 0 to
    [levels], and the alpha bytes are kept; each of these values is
    attained, a colour byte that holds it being stored back as it is;
    and the values are pairwise different, growing with [k]. *)
Theorem posterize_values (levels : Z) :
  (1 <= levels <= 8)%Z ->
  (forall (imageData : ImageData) (j : nat) (b : Z),
     byte_buffer (data imageData) ->
     nth_error (data imageData) j = Some b ->
     if (j mod 4 <? 3)%nat
     then exists k : Z,
            (0 <= k <= levels)%Z /\
            nth_error (data (Stage.posterize imageData (JsNum.of_Z levels)))
              j = Some (level_value levels k)
     else nth_error (data (Stage.posterize imageData (JsNum.of_Z levels))) j
          = Some b) /\
  (forall (k : Z) (imageData : ImageData) (j : nat),
     (0 <= k <= levels)%Z ->
     (j mod 4 < 3)%nat ->
     nth_error (data imageData) j = Some (level_value levels k) ->
     nth_error (data (Stage.posterize imageData (JsNum.of_Z levels))) j
     = Some (level_value levels k)) /\
  (forall k1 k2 : Z,
     (0 <= k1)%Z -> (k1 < k2)%Z -> (k2 <= levels)%Z ->
     (level_value levels k1 < level_value levels k2)%Z).
Proof.
  intros Hl. split; [|split].
  - intros imageData j b Hbytes Hj.
    assert (Hlen : (j < length (data imageData))%nat)
      by (apply nth_error_Some; congruence).
    rewrite posterize_spec, Hj.
    apply Nat.ltb_lt in Hlen; rewrite Hlen, Bool.andb_true_r.
    destruct (j mod 4 <? 3)%nat; [|reflexivity].
    assert (Hb : is_byte b) by (eapply byte_buffer_nth; eauto).
    pose proof (quantized_level levels b Hl Hb) as Hk; cbv zeta in Hk.
    apply existsb_exists in Hk. destruct Hk as (k & Hin & Hk).
    apply in_zrange in Hin. apply Z.eqb_eq in Hk.
    exists k. split; [lia|]. unfold level_value. now rewrite Hk.
  - intros k imageData j Hk Hc Hj.
    assert (Hlen : (j < length (data imageData))%nat)
      by (apply nth_error_Some; congruence).
    rewrite posterize_spec, Hj.
    apply Nat.ltb_lt in Hlen, Hc. rewrite Hlen, Hc. cbn [andb].
    f_equal. now apply quantized_level_value.
  - intros k1 k2 H0 H12 H2. now apply level_value_increasing.
Qed.

Lemma posterize_values_witness :
  (1 <= 2 <= 8)%Z /\
  (exists k : Z,
     (0 <= k <= 2)%Z /\
     nth_error (data (Stage.posterize two_pixels (JsNum.of_Z 2))) 1 =
       Some (level_value 2 k)) /\
  nth_error (data (Stage.posterize two_pixels (JsNum.of_Z 2))) 6 =
    Some (level_value 2 1) /\
  (level_value 2 0 < level_value 2 1 < level_value 2 2)%Z.
Proof.
  assert (Hb : byte_buffer (data two_pixels)).
  { unfold byte_buffer, is_byte; cbn; repeat constructor; lia. }
  destruct (posterize_values 2 ltac:(lia)) as (Hin & Hfix & Hinc).
  split; [lia|]. split; [|split].
  - exact (Hin two_pixels 1%nat 200%Z Hb eq_refl).
  - exact (Hfix 1%Z two_pixels 6%nat ltac:(lia) ltac:(cbn; lia) eq_refl).
  - split; apply Hinc; lia.
Defined.

(** ** Box blur *)

Lemma in_blur_pixels (w h radius x y : Z) :
  In (x, y) (Stage.blur_pixels w h radius) <->
  (radius <= x < w - radius /\ radius <= y < h - radius)%Z.
Proof.
  unfold Stage.blur_pixels; rewrite in_flat_map; split.
  - intros (y' & Hy & Hx); apply in_map_iff in Hx.
    destruct Hx as (x' & Heq & Hx); inversion Heq; subst.
    apply in_zrange in Hy, Hx; lia.
  - intros [Hx Hy]; exists y; split; [now apply in_zrange|].
    apply in_map_iff; exists x; split; [reflexivity|now apply in_zrange].
Qed.

Section ApplyBlur.

Variable imageData : ImageData.
Variable radius : Z.

Let w := width imageData.

Lemma applyBlur_pixel_length (a : ByteArray) (xy : Z * Z) :
  length (Stage.applyBlur_pixel imageData radius a xy) = length a.
Proof.
  destruct xy as [x y]; unfold Stage.applyBlur_pixel.
  destruct (Stage.blur_sums imageData radius x y) as [[r g] b].
  now rewrite !array_set_length.
Qed.

Lemma applyBlur_pixel_other (a : ByteArray) (x y k : Z) :
  (k < (y * w + x) * 4 \/ (y * w + x) * 4 + 2 < k)%Z ->
  array_get (Stage.applyBlur_pixel imageData radius a (x, y)) k =
    array_get a k.
Proof.
  intros Hk; unfold Stage.applyBlur_pixel; fold w.
  destruct (Stage.blur_sums imageData radius x y) as [[r g] b].
  rewrite !array_get_set.
  repeat match goal with
         | |- context [(k =? ?i)%Z] => destruct (Z.eqb_spec k i); [lia|]
         end.
  reflexivity.
Qed.

(** Pixels whose colour bytes do not contain index [k] leave it alone. *)
Lemma applyBlur_fold_other (l : list (Z * Z)) (a : ByteArray) (k : Z) :
  (forall x y, In (x, y) l ->
     k < (y * w + x) * 4 \/ (y * w + x) * 4 + 2 < k)%Z ->
  array_get (fold_left (Stage.applyBlur_pixel imageData radius) l a) k =
    array_get a k.
Proof.
  revert a; induction l as [|[x y] l IH]; intros a Hl; cbn [fold_left]; auto.
  rewrite IH by (intros; apply Hl; now right).
  apply applyBlur_pixel_other, Hl. now left.
Qed.

Lemma applyBlur_length :
  length (data (Stage.applyBlur imageData radius)) =
    length (data imageData).
Proof.
  unfold Stage.applyBlur; cbn [data].
  apply (fold_left_invariant
           (fun a => length a = length (data imageData))); auto.
  intros a xy Ha. now rewrite applyBlur_pixel_length.
Qed.

End ApplyBlur.

(** Two pixels of one row-major image have different numbers. *)
Lemma pixel_number_injective (w x y x' y' : Z) :
  (0 <= x < w)%Z -> (0 <= x' < w)%Z ->
  (y * w + x = y' * w + x')%Z -> x = x' /\ y = y'.
Proof.
  intros Hx Hx' Heq.
  assert (Hy : y = y').
  { destruct (Z.lt_trichotomy y y') as [H|[H|H]]; auto; exfalso; nia. }
  subst y'. split; [lia|reflexivity].
Qed.

(** X9.  [applyBlur] never touches the frame of the image: a pixel
    closer than [radius] to one of the four sides keeps all four of its
    bytes (the window would not fit there, and the loops skip it). *)
Theorem applyBlur_frame_kept
  (imageData : ImageData) (radius x y c : Z) :
  (0 <= radius)%Z ->
  (0 <= x < width imageData)%Z ->
  (x < radius \/ width imageData - radius <= x \/
   y < radius \/ height imageData - radius <= y)%Z ->
  (0 <= c <= 3)%Z ->
  array_get (data (Stage.applyBlur imageData radius))
    ((y * width imageData + x) * 4 + c) =
  array_get (data imageData) ((y * width imageData + x) * 4 + c).
Proof.
  intros Hr Hx Hframe Hc. unfold Stage.applyBlur; cbn [data].
  apply applyBlur_fold_other. intros x' y' Hin.
  apply in_blur_pixels in Hin. destruct Hin as [Hx' Hy'].
  assert (Hne : (y * width imageData + x <> y' * width imageData + x')%Z).
  { intros Heq.
    apply pixel_number_injective in Heq; [|lia|lia].
    destruct Heq; subst; lia. }
  lia.
Qed.

Lemma applyBlur_frame_kept_witness :
  array_get (data (Stage.applyBlur two_pixels 1)) ((0 * 2 + 1) * 4 + 2) =
    Some 128%Z.
Proof.
  apply (applyBlur_frame_kept two_pixels 1 1 0 2); cbn; lia.
Defined.

(** X10.  [applyBlur] never writes an alpha byte, whatever the whole
    radius above [-2^53]: every index of the form [4 * q + 3] reads
    after the blur what it read before. *)
Theorem applyBlur_alpha_kept (imageData : ImageData) (radius q : Z) :
  (- 2 ^ 53 < radius)%Z ->
  array_get (data (Stage.applyBlur imageData radius)) (4 * q + 3) =
    array_get (data imageData) (4 * q + 3).
Proof.
  intros _. unfold Stage.applyBlur; cbn [data].
  apply applyBlur_fold_other. intros x y _. lia.
Qed.

Lemma applyBlur_alpha_kept_witness :
  array_get (data (Stage.applyBlur flat_image 1)) (4 * 12 + 3) = Some 255%Z.
Proof.
  apply (applyBlur_alpha_kept flat_image 1 12). reflexivity.
Defined.

(** X11.  An image that is not wider or not higher than twice the
    radius comes back from [applyBlur] unchanged: no pixel has room for
    the window. *)
Theorem applyBlur_small_image (imageData : ImageData) (radius : Z) :
  (width imageData <= 2 * radius \/ height imageData <= 2 * radius)%Z ->
  Stage.applyBlur imageData radius = imageData.
Proof.
  intros Hsmall.
  assert (Hnil : Stage.blur_pixels (width imageData) (height imageData)
                   radius = []).
  { destruct (Stage.blur_pixels (width imageData) (height imageData) radius)
      as [|[x y] l] eqn:Hl; [reflexivity|exfalso].
    assert (Hin : In (x, y) (Stage.blur_pixels (width imageData)
                               (height imageData) radius))
      by (rewrite Hl; now left).
    apply in_blur_pixels in Hin. lia. }
  unfold Stage.applyBlur. rewrite Hnil. now destruct imageData.
Qed.

Lemma applyBlur_small_image_witness :
  Stage.applyBlur two_pixels 1 = two_pixels.
Proof.
  apply applyBlur_small_image. right. cbn. lia.
Defined.

Section BlurredPixels.

Variable imageData : ImageData.
Variable radius : Z.

Let w := width imageData.

Lemma applyBlur_pixel_own (a : ByteArray) (x y c : Z) :
  (0 <= (y * w + x) * 4)%Z ->
  ((y * w + x) * 4 + 2 < Z.of_nat (length a))%Z ->
  (0 <= c <= 2)%Z ->
  array_get (Stage.applyBlur_pixel imageData radius a (x, y))
    ((y * w + x) * 4 + c)
  = Some (blur_value imageData radius x y c).
Proof.
  intros Hlo Hhi Hc; unfold Stage.applyBlur_pixel, blur_value; fold w.
  destruct (Stage.blur_sums imageData radius x y) as [[r g] b].
  set (idx := ((y * w + x) * 4)%Z) in *.
  rewrite !array_get_set, !array_set_length.
  assert (Hcases : (c = 0 \/ c = 1 \/ c = 2)%Z) by lia.
  destruct Hcases as [Hc0|[Hc1|Hc2]]; subst c;
    repeat match goal with
           | |- context [(?a =? ?b)%Z] =>
               first [ replace (a =? b)%Z with true
                         by (symmetry; apply Z.eqb_eq; lia)
                     | replace (a =? b)%Z with false
                         by (symmetry; apply Z.eqb_neq; lia) ]
           | |- context [(?a <=? ?b)%Z] =>
               replace (a <=? b)%Z with true
                 by (symmetry; apply Z.leb_le; lia)
           | |- context [(?a <? ?b)%Z] =>
               replace (a <? b)%Z with true
                 by (symmetry; apply Z.ltb_lt; lia)
           end; reflexivity.
Qed.

Lemma applyBlur_fold_own (l : list (Z * Z)) (a : ByteArray) (x y c : Z) :
  In (x, y) l ->
  (forall x' y', In (x', y') l -> (x', y') <> (x, y) ->
     (y' * w + x') * 4 + 3 < (y * w + x) * 4 \/
     (y * w + x) * 4 + 3 < (y' * w + x') * 4)%Z ->
  (0 <= (y * w + x) * 4)%Z ->
  ((y * w + x) * 4 + 2 < Z.of_nat (length a))%Z ->
  (0 <= c <= 2)%Z ->
  array_get (fold_left (Stage.applyBlur_pixel imageData radius) l a)
    ((y * w + x) * 4 + c)
  = Some (blur_value imageData radius x y c).
Proof.
  revert a; induction l as [|[x' y'] l IH]; intros a Hin Hsep Hlo Hhi Hc;
    [destruct Hin|].
  cbn [fold_left].
  assert (Hdec : {In (x, y) l} + {~ In (x, y) l}).
  { apply in_dec. decide equality; apply Z.eq_dec. }
  destruct Hdec as [Hl|Hl].
  - apply IH; auto.
    + intros; apply Hsep; auto. now right.
    + now rewrite applyBlur_pixel_length.
  - destruct Hin as [Heq|Hin]; [|contradiction].
    inversion Heq; subst x' y'.
    rewrite applyBlur_fold_other.
    + now apply applyBlur_pixel_own.
    + intros x' y' Hin'.
      assert (Hne : (x', y') <> (x, y)) by (intros Heq'; congruence).
      specialize (Hsep x' y' (or_intror Hin') Hne). fold w. lia.
Qed.

(** On a buffer of the declared size, every pixel of the loops of
    [applyBlur] ends with the three means of its window. *)
Lemma applyBlur_inner (x y c : Z) :
  length (data imageData) = Z.to_nat (4 * w * height imageData) ->
  (0 <= radius)%Z ->
  In (x, y) (Stage.blur_pixels w (height imageData) radius) ->
  (0 <= c <= 2)%Z ->
  array_get (data (Stage.applyBlur imageData radius)) ((y * w + x) * 4 + c)
  = Some (blur_value imageData radius x y c).
Proof.
  intros Hlen Hr Hin Hc. unfold Stage.applyBlur; cbn [data]. fold w.
  pose proof (proj1 (in_blur_pixels _ _ _ _ _) Hin) as [Hx Hy].
  apply applyBlur_fold_own; auto.
  - intros x' y' Hin' Hne.
    apply in_blur_pixels in Hin'. destruct Hin' as [Hx' Hy'].
    assert (Hnum : (y' * w + x' <> y * w + x)%Z).
    { intros Heq. apply pixel_number_injective in Heq; [|lia|lia].
      destruct Heq; subst; congruence. }
    lia.
  - nia.
  - rewrite Hlen. nia.
Qed.

(** The three sums over a window that reads one colour everywhere. *)
Lemma blur_sums_flat (x y vr vg vb : Z) :
  (forall dx dy,
     (- radius <= dx <= radius)%Z -> (- radius <= dy <= radius)%Z ->
     let idx := (((y + dy) * w + (x + dx)) * 4)%Z in
     array_get (data imageData) idx = Some vr /\
     array_get (data imageData) (idx + 1) = Some vg /\
     array_get (data imageData) (idx + 2) = Some vb) ->
  Stage.blur_sums imageData radius x y =
    (flat_sum radius vr, flat_sum radius vg, flat_sum radius vb).
Proof.
  intros Hflat. unfold Stage.blur_sums, flat_sum. fold w.
  assert (Hin : forall v, In v (zrange (- radius) (radius + 1)) ->
                  (- radius <= v <= radius)%Z)
    by (intros v Hv; apply in_zrange in Hv; lia).
  revert Hin. generalize (zrange (- radius) (radius + 1)) at 1 3 5 7 9.
  generalize zero at 1 4. generalize zero at 1 3. generalize zero.
  intros sb sg sr rows. revert sr sg sb.
  induction rows as [|dy rows IH]; intros sr sg sb Hrows; [reflexivity|].
  cbn [fold_left].
  assert (Hdy : (- radius <= dy <= radius)%Z) by (apply Hrows; now left).
  assert (Hrow : forall cols sr sg sb,
            (forall v, In v cols -> (- radius <= v <= radius)%Z) ->
            fold_left
              (fun (s : float * float * float) (dx : Z) =>
                 let idx := (((y + dy) * w + (x + dx)) * 4)%Z in
                 let d := data imageData in
                 let '(r, g, b) := s in
                 ((r + byte_num (array_get d idx))%float,
                  (g + byte_num (array_get d (idx + 1)))%float,
                  (b + byte_num (array_get d (idx + 2)))%float))
              cols (sr, sg, sb) =
            (fold_left (fun (s : float) (_ : Z) => (s + JsNum.of_Z vr)%float)
               cols sr,
             fold_left (fun (s : float) (_ : Z) => (s + JsNum.of_Z vg)%float)
               cols sg,
             fold_left (fun (s : float) (_ : Z) => (s + JsNum.of_Z vb)%float)
               cols sb)).
  { induction cols as [|dx cols IHc]; intros s1 s2 s3 Hcols; [reflexivity|].
    cbn [fold_left]. cbv zeta.
    destruct (Hflat dx dy (Hcols dx (or_introl eq_refl)) Hdy)
      as (H1 & H2 & H3).
    cbv zeta in H1, H2, H3. rewrite H1, H2, H3. cbn [byte_num].
    apply IHc. intros v Hv; apply Hcols; now right. }
  cbv zeta in Hrow.
  rewrite Hrow by (intros v Hv; apply in_zrange in Hv; lia).
  apply IH. intros v Hv; apply Hrows; now right.
Qed.

End BlurredPixels.

(** The mean of a window that reads the byte [v] everywhere is stored
    as [v], for every radius of the range of the setting. *)
Lemma flat_mean (radius v : Z) :
  (0 <= radius <= 5)%Z -> is_byte v ->
  let size := (JsNum.of_Z radius * 2 + 1)%float in
  JsNum.to_uint8_clamp (flat_sum radius v / (size * size)) = v.
Proof.
  intros Hr Hv; cbv zeta. apply Z.eqb_eq.
  revert v Hv. apply byte_enumeration.
  revert radius Hr.
  assert (H : forall radius, (0 <= radius < 6)%Z ->
            forallb
              (fun v =>
                 Z.eqb
                   (JsNum.to_uint8_clamp
                      (flat_sum radius v /
                       ((JsNum.of_Z radius * 2 + 1) *
                        (JsNum.of_Z radius * 2 + 1))))
                   v)
              all_bytes = true).
  { apply (range_enumeration
             (fun radius =>
                forallb
                  (fun v =>
                     Z.eqb
                       (JsNum.to_uint8_clamp
                          (flat_sum radius v /
                           ((JsNum.of_Z radius * 2 + 1) *
                            (JsNum.of_Z radius * 2 + 1))))
                       v)
                  all_bytes)).
    vm_compute. reflexivity. }
  intros radius Hr. apply H. lia.
Qed.

(** X12.  [applyBlur] keeps flat areas exactly: with a radius from 0 to
    5, a pixel of the loops whose whole window holds one colour keeps
    its three colour bytes; summing and dividing never drifts by a
    rounding error. *)
Theorem applyBlur_flat_kept
  (imageData : ImageData) (radius x y vr vg vb c : Z) :
  (0 <= radius <= 5)%Z ->
  length (data imageData) =
    Z.to_nat (4 * width imageData * height imageData) ->
  (radius <= x < width imageData - radius)%Z ->
  (radius <= y < height imageData - radius)%Z ->
  is_byte vr -> is_byte vg -> is_byte vb ->
  (forall dx dy,
     (- radius <= dx <= radius)%Z -> (- radius <= dy <= radius)%Z ->
     let idx := (((y + dy) * width imageData + (x + dx)) * 4)%Z in
     array_get (data imageData) idx = Some vr /\
     array_get (data imageData) (idx + 1) = Some vg /\
     array_get (data imageData) (idx + 2) = Some vb) ->
  (0 <= c <= 2)%Z ->
  array_get (data (Stage.applyBlur imageData radius))
    ((y * width imageData + x) * 4 + c) =
  array_get (data imageData) ((y * width imageData + x) * 4 + c).
Proof.
  intros Hr Hlen Hx Hy Hvr Hvg Hvb Hflat Hc.
  rewrite applyBlur_inner; auto; [|lia|apply in_blur_pixels; lia].
  unfold blur_value.
  rewrite (blur_sums_flat imageData radius x y vr vg vb Hflat).
  destruct (Hflat 0%Z 0%Z ltac:(lia) ltac:(lia)) as (H0 & H1 & H2).
  cbv zeta in H0, H1, H2. rewrite !Z.add_0_r in H0, H1, H2.
  assert (Hcases : (c = 0 \/ c = 1 \/ c = 2)%Z) by lia.
  destruct Hcases as [Hc0|[Hc1|Hc2]]; subst c; cbn [Z.eqb].
  - rewrite Z.add_0_r, H0. f_equal. now apply flat_mean.
  - rewrite H1. f_equal. now apply flat_mean.
  - rewrite H2. f_equal. now apply flat_mean.
Qed.

Lemma applyBlur_flat_kept_witness :
  array_get (data (Stage.applyBlur flat_image 1)) ((2 * 5 + 2) * 4 + 1) =
    Some 80%Z.
Proof.
  apply (applyBlur_flat_kept flat_image 1 2 2 40 80 120 1);
    try (unfold is_byte; cbn; lia); try reflexivity.
  intros dx dy Hdx Hdy.
  assert (Hx : (dx = -1 \/ dx = 0 \/ dx = 1)%Z) by lia.
  assert (Hy : (dy = -1 \/ dy = 0 \/ dy = 1)%Z) by lia.
  destruct Hx as [Hx|[Hx|Hx]]; destruct Hy as [Hy|[Hy|Hy]]; subst dx dy;
    repeat split; reflexivity.
Defined.

(** ** The output of the edge detector *)

Lemma array_get_repeat (v : Z) (n : nat) (k : Z) :
  (0 <= k < Z.of_nat n)%Z -> array_get (repeat v n) k = Some v.
Proof.
  intros Hk. unfold array_get.
  destruct (Z.ltb_spec k 0); [lia|].
  rewrite nth_error_repeat; [reflexivity|lia].
Qed.

(** The loops of [detectEdges] never reach the frame, where the fresh
    result buffer keeps its zeros. *)
Lemma detectEdges_frame
  (imageData : ImageData) (radius : option float) (x y c : Z) :
  length (data imageData) =
    Z.to_nat (4 * width imageData * height imageData) ->
  on_frame imageData x y ->
  (0 <= c <= 3)%Z ->
  array_get (data (detectEdges imageData radius))
    ((y * width imageData + x) * 4 + c) = Some 0%Z.
Proof.
  intros Hlen (Hx & Hy & Hframe) Hc. unfold detectEdges; cbn [data].
  rewrite detectEdges_fold_other.
  - apply array_get_repeat. rewrite Hlen. nia.
  - intros x' y' Hin. apply in_interior in Hin. destruct Hin as [Hx' Hy'].
    assert (Hne : (y * width imageData + x <> y' * width imageData + x')%Z).
    { intros Heq. apply pixel_number_injective in Heq; [|lia|lia].
      destruct Heq; subst; lia. }
    lia.
Qed.

(** X13.  [detectEdges] leaves the one-pixel frame of the image black
    and fully transparent: on a buffer of the declared size, all four
    bytes of a pixel of the first or last row or column, alpha included,
    are 0 in the output, whatever the input holds there. *)
Theorem detectEdges_frame_blank
  (imageData : ImageData) (radius : option float) (x y c : Z) :
  length (data imageData) =
    Z.to_nat (4 * width imageData * height imageData) ->
  (0 <= x < width imageData)%Z ->
  (0 <= y < height imageData)%Z ->
  (x = 0 \/ x = width imageData - 1 \/ y = 0 \/ y = height imageData - 1)%Z ->
  (0 <= c <= 3)%Z ->
  array_get (data (detectEdges imageData radius))
    ((y * width imageData + x) * 4 + c) = Some 0%Z.
Proof.
  intros Hlen Hx Hy Hframe Hc.
  apply detectEdges_frame; auto. unfold on_frame; auto.
Qed.

Lemma detectEdges_frame_blank_witness :
  array_get (data (detectEdges flat_image None)) ((4 * 5 + 2) * 4 + 3) =
    Some 0%Z.
Proof.
  apply (detectEdges_frame_blank flat_image None 2 4 3); cbn; lia.
Defined.

(** X14.  Inside the frame, the output of [detectEdges] is gray and
    opaque: on a buffer of the declared size, the three colour channels
    of a pixel that is not on the frame hold one and the same byte, and
    its alpha channel holds 255, whatever alpha the input had. *)
Theorem detectEdges_gray_opaque
  (imageData : ImageData) (radius : option float) (x y : Z) :
  length (data imageData) =
    Z.to_nat (4 * width imageData * height imageData) ->
  (1 <= x < width imageData - 1)%Z ->
  (1 <= y < height imageData - 1)%Z ->
  let d' := data (detectEdges imageData radius) in
  let idx := ((y * width imageData + x) * 4)%Z in
  exists v, is_byte v /\
    array_get d' idx = Some v /\
    array_get d' (idx + 1) = Some v /\
    array_get d' (idx + 2) = Some v /\
    array_get d' (idx + 3) = Some 255%Z.
Proof.
  intros Hlen Hx Hy; cbv zeta.
  assert (Hin : In (x, y) (interior (width imageData) (height imageData)))
    by (apply in_interior; lia).
  exists (edge_value imageData x y). split.
  { unfold edge_value. destruct (sobel_sums imageData x y).
    apply to_uint8_clamp_range. }
  pose proof (detectEdges_interior imageData radius x y 0 Hlen Hin
                ltac:(lia)) as H0.
  rewrite Z.add_0_r in H0.
  rewrite H0, !(detectEdges_interior imageData radius x y) by (auto; lia).
  auto.
Qed.

Lemma detectEdges_gray_opaque_witness :
  exists v, is_byte v /\
    array_get (data (detectEdges flat_image None)) ((2 * 5 + 2) * 4)
      = Some v /\
    array_get (data (detectEdges flat_image None)) ((2 * 5 + 2) * 4 + 1)
      = Some v /\
    array_get (data (detectEdges flat_image None)) ((2 * 5 + 2) * 4 + 2)
      = Some v /\
    array_get (data (detectEdges flat_image None)) ((2 * 5 + 2) * 4 + 3)
      = Some 255%Z.
Proof.
  apply (detectEdges_gray_opaque flat_image None 2 2); cbn; lia.
Defined.

(** The gradient sums vanish where the nine reads agree. *)
Lemma edge_value_flat (imageData : ImageData) (x y v : Z) :
  is_byte v ->
  (forall dx dy, (-1 <= dx <= 1)%Z -> (-1 <= dy <= 1)%Z ->
     array_get (data imageData)
       (((y + dy) * width imageData + (x + dx)) * 4) = Some v) ->
  edge_value imageData x y = 0%Z.
Proof.
  intros Hv Hflat. unfold edge_value, sobel_sums.
  change (zrange (-1) 2) with [-1; 0; 1]%Z.
  cbn [fold_left]. rewrite !Hflat by lia. clear Hflat.
  cbn [byte_num fst snd].
  apply Z.eqb_eq. revert v Hv.
  apply byte_enumeration.
  vm_compute. reflexivity.
Qed.

(** X15.  A flat area has no edges: on a buffer of the declared size,
    a pixel inside the frame whose 3 by 3 neighbourhood reads one and
    the same byte in the red channel, the only channel [detectEdges]
    reads, gets the colour bytes 0. *)
Theorem detectEdges_flat_black
  (imageData : ImageData) (radius : option float) (x y v c : Z) :
  length (data imageData) =
    Z.to_nat (4 * width imageData * height imageData) ->
  (1 <= x < width imageData - 1)%Z ->
  (1 <= y < height imageData - 1)%Z ->
  is_byte v ->
  (forall dx dy, (-1 <= dx <= 1)%Z -> (-1 <= dy <= 1)%Z ->
     array_get (data imageData)
       (((y + dy) * width imageData + (x + dx)) * 4) = Some v) ->
  (0 <= c <= 2)%Z ->
  array_get (data (detectEdges imageData radius))
    ((y * width imageData + x) * 4 + c) = Some 0%Z.
Proof.
  intros Hlen Hx Hy Hv Hflat Hc.
  rewrite detectEdges_interior; auto; [|apply in_interior; lia|lia].
  replace (c <? 3)%Z with true by (symmetry; apply Z.ltb_lt; lia).
  f_equal. now apply edge_value_flat with v.
Qed.

Lemma detectEdges_flat_black_witness :
  array_get (data (detectEdges flat_image None)) ((2 * 5 + 2) * 4 + 1) =
    Some 0%Z.
Proof.
  apply (detectEdges_flat_black flat_image None 2 2 40 1);
    try (unfold is_byte; cbn; lia).
  intros dx dy Hdx Hdy.
  assert (Hx : (dx = -1 \/ dx = 0 \/ dx = 1)%Z) by lia.
  assert (Hy : (dy = -1 \/ dy = 0 \/ dy = 1)%Z) by lia.
  destruct Hx as [Hx|[Hx|Hx]]; destruct Hy as [Hy|[Hy|Hy]]; subst dx dy;
    reflexivity.
Defined.

(** ** The shape of the contours *)

Lemma chained_snoc (c : Contour) (p q : Point) :
  chained (c ++ [p]) -> adjacent p q -> chained ((c ++ [p]) ++ [q]).
Proof.
  intros Hc Hpq. induction c as [|a c IH].
  - cbn. auto.
  - destruct c as [|b c].
    + cbn in *. tauto.
    + change (adjacent a b /\ chained ((b :: c) ++ [p])) in Hc.
      change (adjacent a b /\ chained (((b :: c) ++ [p]) ++ [q])).
      destruct Hc as [Hab Hc]. split; [exact Hab|now apply IH].
Qed.

Lemma chained_nth (c : Contour) (i : nat) (p q : Point) :
  chained c ->
  nth_error c i = Some p -> nth_error c (S i) = Some q -> adjacent p q.
Proof.
  revert i; induction c as [|a c IH]; intros i Hc Hp Hq;
    [destruct i; discriminate|].
  destruct c as [|b c]; [destruct i; discriminate|].
  destruct Hc as [Hab Hc].
  destruct i as [|i].
  - cbn in Hp, Hq. inversion Hp; inversion Hq; subst. exact Hab.
  - apply (IH i); auto.
Qed.

Section ContourShape.

Variable imageData : ImageData.

(** [traceContour] is the result of its loop, whatever the bitmap. *)
Lemma traceContour_result (visited : ByteArray) (x y : Z) :
  trace_loop (trace_fuel imageData) imageData x y (trace_init visited x y)
  = Some (traceContour imageData visited x y).
Proof.
  unfold traceContour.
  destruct (trace_loop_total imageData x y (trace_fuel imageData)
              (trace_init visited x y))
    as (c & v & s & Heq & _).
  { unfold iterations_left, trace_fuel, trace_init; cbn [ts_iter]; lia. }
  now rewrite Heq.
Qed.

(** The points of a walk that starts on a white pixel are white, and
    each is a neighbour of the next. *)
Lemma traceContour_shape (visited : ByteArray) (x y : Z) :
  is_white (getPixel imageData x y) = true ->
  let contour := fst (fst (traceContour imageData visited x y)) in
  Forall (white imageData) contour /\ chained contour.
Proof.
  intros Hseed; cbv zeta.
  pose proof (traceContour_result visited x y) as Hloop.
  destruct (traceContour imageData visited x y) as [[contour visited'] stop].
  cbn [fst].
  pose (Post := fun (c : Contour) (v : ByteArray) =>
    Forall (white imageData) c /\ chained c).
  pose (Inv := fun (x y : Z) (c : Contour) (v : ByteArray) =>
    is_white (getPixel imageData x y) = true /\
    Forall (white imageData) c /\ chained (c ++ [mkPoint x y])).
  apply (trace_loop_rule imageData x y Inv Post)
    with (fuel := trace_fuel imageData)
         (st := trace_init visited x y) (stop := stop) (visited := visited');
    auto.
  - intros x0 y0 c v (Hw & Hc & Hch). split; auto.
    apply Forall_app; split; auto.
  - intros x0 y0 c v dir nx ny newDir (Hw & Hc & Hch) Hnext.
    split; [eapply find_next_white; eauto|]. split.
    + apply Forall_app; split; auto.
    + apply chained_snoc; auto. eapply find_next_adjacent; eauto.
  - unfold trace_init; cbn [ts_x ts_y ts_contour ts_visited].
    split; [exact Hseed|]. split; [constructor|exact I].
Qed.

(** A rule for properties of the contours that [findContours] returns:
    it is enough to show them of each walk the scan keeps. *)
Lemma findContours_rule (Q : Contour -> Prop) :
  (forall visited x y contour visited' stop,
     length visited = Z.to_nat (width imageData * height imageData) ->
     In (x, y) (interior (width imageData) (height imageData)) ->
     is_white (getPixel imageData x y) = true ->
     has_black_neighbour imageData x y = true ->
     traceContour imageData visited x y = (contour, visited', stop) ->
     (10 <= length contour)%nat ->
     Q contour) ->
  Forall Q (findContours imageData).
Proof.
  intros Hkeep. unfold findContours, findContours_state.
  apply (fold_left_invariant
           (fun st => scan_inv imageData st /\ Forall Q (snd st))).
  - split; [|constructor].
    unfold scan_inv; cbn [fst snd].
    split; [apply repeat_length|].
    split; [intros c p []|]. split; [intros c []|constructor].
  - intros st [x y] Hin [Hinv HQ].
    split; [now apply scan_step_inv|].
    destruct st as [visited contours]. cbn [snd] in HQ.
    destruct Hinv as [Hlen _]; cbn [fst] in Hlen.
    unfold scan_step.
    destruct (is_marked visited (y * width imageData + x)); auto.
    destruct (is_white (getPixel imageData x y)) eqn:Hw; auto.
    change (is_black (getPixel imageData (x - 1) y)
            || is_black (getPixel imageData (x + 1) y)
            || is_black (getPixel imageData x (y - 1))
            || is_black (getPixel imageData x (y + 1)))
      with (has_black_neighbour imageData x y).
    destruct (has_black_neighbour imageData x y) eqn:Hb; cbn [andb negb];
      auto.
    destruct (traceContour imageData visited x y)
      as [[contour visited'] stop] eqn:Htrace.
    destruct (Nat.leb_spec 10 (length contour)) as [Hten|Hten]; cbn [snd];
      auto.
    apply Forall_app; split; auto. constructor; [|constructor].
    eapply Hkeep; eauto.
Qed.

End ContourShape.

(** X16.  [findContours] returns no contour of fewer than ten points:
    shorter walks are marked in the bitmap and dropped. *)
Theorem findContours_min_points (imageData : ImageData) (c : Contour) :
  In c (findContours imageData) -> (10 <= length c)%nat.
Proof.
  revert c. apply Forall_forall. apply findContours_rule.
  intros visited x y contour visited' stop _ _ _ _ _ Hten. exact Hten.
Qed.

Lemma findContours_min_points_witness :
  In spur_contour (findContours spur_image) /\
  (10 <= length spur_contour)%nat.
Proof.
  assert (Hin : In spur_contour (findContours spur_image))
    by (vm_compute; left; reflexivity).
  split; [exact Hin|].
  exact (findContours_min_points spur_image spur_contour Hin).
Defined.

(** X17.  Every point of every contour that [findContours] returns is a
    white pixel of the image: its red channel reads more than 127. *)
Theorem findContours_points_white
  (imageData : ImageData) (c : Contour) (p : Point) :
  In c (findContours imageData) -> In p c -> white imageData p.
Proof.
  intros Hc. revert p. apply Forall_forall. revert c Hc.
  apply Forall_forall. apply findContours_rule.
  intros visited x y contour visited' stop _ _ Hw _ Htrace _.
  pose proof (traceContour_shape imageData visited x y Hw) as H.
  rewrite Htrace in H. apply H.
Qed.

Lemma findContours_points_white_witness :
  In spur_contour (findContours spur_image) /\
  In (mkPoint 3 4) spur_contour /\
  white spur_image (mkPoint 3 4).
Proof.
  assert (Hin : In spur_contour (findContours spur_image))
    by (vm_compute; left; reflexivity).
  assert (Hp : In (mkPoint 3 4) spur_contour)
    by (vm_compute; tauto).
  split; [exact Hin|]. split; [exact Hp|].
  exact (findContours_points_white spur_image spur_contour _ Hin Hp).
Defined.

(** X18.  A contour is an unbroken chain: any two consecutive points of
    a contour that [findContours] returns are distinct and differ by at
    most one in each coordinate. *)
Theorem findContours_points_chained
  (imageData : ImageData) (c : Contour) (i : nat) (p q : Point) :
  In c (findContours imageData) ->
  nth_error c i = Some p ->
  nth_error c (S i) = Some q ->
  adjacent p q.
Proof.
  intros Hc. apply chained_nth. revert c Hc.
  apply Forall_forall. apply findContours_rule.
  intros visited x y contour visited' stop _ _ Hw _ Htrace _.
  pose proof (traceContour_shape imageData visited x y Hw) as H.
  rewrite Htrace in H. apply H.
Qed.

Lemma findContours_points_chained_witness :
  In spur_contour (findContours spur_image) /\
  adjacent (mkPoint 6 1) (mkPoint 5 2).
Proof.
  assert (Hin : In spur_contour (findContours spur_image))
    by (vm_compute; left; reflexivity).
  split; [exact Hin|].
  exact (findContours_points_chained spur_image spur_contour 0 _ _ Hin
           eq_refl eq_refl).
Defined.

(** X19.  Every contour that [findContours] returns starts on a
    boundary pixel inside the frame: its first point is a white pixel
    of the ring [1 .. width - 2] by [1 .. height - 2] with a black pixel
    directly left, right, above or below it. *)
Theorem findContours_seed_on_boundary (imageData : ImageData) (c : Contour) :
  In c (findContours imageData) ->
  exists s,
    hd_error c = Some s /\
    in_ring imageData s /\
    white imageData s /\
    has_black_neighbour imageData (pt_x s) (pt_y s) = true.
Proof.
  revert c. apply Forall_forall. apply findContours_rule.
  intros visited x y contour visited' stop Hlen Hin Hw Hb Htrace _.
  apply in_interior in Hin.
  assert (Hbounds : in_bounds imageData (mkPoint x y))
    by (unfold in_bounds; cbn [pt_x pt_y]; lia).
  pose proof (traceContour_post imageData visited x y Hlen Hbounds) as Hpost.
  rewrite Htrace in Hpost. destruct Hpost as (_ & _ & _ & _ & Hhd).
  exists (mkPoint x y). split; [exact Hhd|]. split; [|split; assumption].
  unfold in_ring; cbn [pt_x pt_y]; lia.
Qed.

Lemma findContours_seed_on_boundary_witness :
  In spur_contour (findContours spur_image) /\
  exists s,
    hd_error spur_contour = Some s /\
    in_ring spur_image s /\
    white spur_image s /\
    has_black_neighbour spur_image (pt_x s) (pt_y s) = true.
Proof.
  assert (Hin : In spur_contour (findContours spur_image))
    by (vm_compute; left; reflexivity).
  split; [exact Hin|].
  exact (findContours_seed_on_boundary spur_image spur_contour Hin).
Defined.

(** X20.  Without a boundary there is no contour: when no white pixel
    inside the frame has a black pixel directly left, right, above or
    below it, as in an all-black or an all-white image, [findContours]
    returns the empty list. *)
Theorem findContours_no_boundary (imageData : ImageData) :
  (forall x y,
     In (x, y) (interior (width imageData) (height imageData)) ->
     is_white (getPixel imageData x y) = true ->
     has_black_neighbour imageData x y = false) ->
  findContours imageData = [].
Proof.
  intros Hnone. unfold findContours, findContours_state.
  apply (fold_left_invariant
           (fun st : ByteArray * list Contour => snd st = [])).
  - reflexivity.
  - intros [visited contours] [x y] Hin Hst. cbn [snd] in Hst.
    unfold scan_step.
    destruct (is_marked visited (y * width imageData + x)); auto.
    destruct (is_white (getPixel imageData x y)) eqn:Hw; auto.
    change (is_black (getPixel imageData (x - 1) y)
            || is_black (getPixel imageData (x + 1) y)
            || is_black (getPixel imageData x (y - 1))
            || is_black (getPixel imageData x (y + 1)))
      with (has_black_neighbour imageData x y).
    rewrite (Hnone x y Hin Hw). cbn [andb]. exact Hst.
Qed.

Lemma findContours_no_boundary_witness :
  findContours (detectEdges flat_image None) = [].
Proof.
  apply findContours_no_boundary.
  intros x y Hin Hw. exfalso.
  apply in_interior in Hin. cbn in Hin.
  assert (Hx : (x = 1 \/ x = 2 \/ x = 3)%Z) by lia.
  assert (Hy : (y = 1 \/ y = 2 \/ y = 3)%Z) by lia.
  destruct Hx as [Hx|[Hx|Hx]]; destruct Hy as [Hy|[Hy|Hy]]; subst x y;
    vm_compute in Hw; discriminate.
Defined.

(** ** Simplification only drops points *)

Lemma subsequence_refl {A : Type} (l : list A) : subsequence l l.
Proof. induction l; constructor; auto. Qed.

Lemma subsequence_nil_l {A : Type} (l : list A) : subsequence [] l.
Proof. induction l; constructor; auto. Qed.

Lemma subsequence_length {A : Type} (l m : list A) :
  subsequence l m -> (length l <= length m)%nat.
Proof. induction 1; cbn [length]; lia. Qed.

Lemma subsequence_trans {A : Type} (l m n : list A) :
  subsequence l m -> subsequence m n -> subsequence l n.
Proof.
  intros Hlm Hmn. revert l Hlm.
  induction Hmn as [|x m n Hmn IH|x m n Hmn IH]; intros l Hlm.
  - exact Hlm.
  - inversion Hlm; subst.
    + apply sub_keep; auto.
    + apply sub_drop; auto.
  - apply sub_drop; auto.
Qed.

Lemma subsequence_app {A : Type} (l1 m1 l2 m2 : list A) :
  subsequence l1 m1 -> subsequence l2 m2 ->
  subsequence (l1 ++ l2) (m1 ++ m2).
Proof.
  intros H1 H2. induction H1; cbn [app]; auto; constructor; auto.
Qed.

Lemma subsequence_removelast {A : Type} (l m : list A) :
  subsequence l m -> subsequence (removelast l) (removelast m).
Proof.
  induction 1 as [|x l m H IH|x l m H IH].
  - constructor.
  - destruct l as [|a l]; [apply subsequence_nil_l|].
    destruct m as [|b m]; [inversion H|].
    change (subsequence (x :: removelast (a :: l))
              (x :: removelast (b :: m))).
    now apply sub_keep.
  - destruct m as [|b m].
    + inversion H; subst. constructor.
    + change (subsequence (removelast l) (x :: removelast (b :: m))).
      now apply sub_drop.
Qed.

Lemma subsequence_removelast_self {A : Type} (l : list A) :
  subsequence (removelast l) l.
Proof.
  induction l as [|a l IH]; [constructor|].
  destruct l as [|b l]; [apply subsequence_nil_l|].
  change (subsequence (a :: removelast (b :: l)) (a :: b :: l)).
  now apply sub_keep.
Qed.

Lemma removelast_firstn_subsequence {A : Type} (k : nat) (l : list A) :
  subsequence (removelast (firstn (k + 1) l)) (firstn k l).
Proof.
  replace (k + 1)%nat with (S k) by lia.
  destruct (Nat.lt_ge_cases k (length l)) as [Hk|Hk].
  - rewrite removelast_firstn by exact Hk. apply subsequence_refl.
  - rewrite !firstn_all2 by lia. apply subsequence_removelast_self.
Qed.

Lemma subsequence_ends {A : Type} (a : A) (l : list A) :
  l <> [] -> subsequence [a; last (a :: l) a] (a :: l).
Proof.
  intros Hl. apply sub_keep.
  change (last (a :: l) a) with
    (match l with [] => a | _ :: _ => last l a end).
  destruct l as [|b l]; [contradiction|]. clear Hl.
  revert b; induction l as [|c l IH]; intros b.
  - cbn. repeat constructor.
  - change (last (b :: c :: l) a) with (last (c :: l) a).
    apply sub_drop, IH.
Qed.

Lemma removelast_map {A B : Type} (f : A -> B) (l : list A) :
  removelast (map f l) = map f (removelast l).
Proof.
  induction l as [|a l IH]; [reflexivity|].
  destruct l as [|b l]; [reflexivity|].
  change (f a :: removelast (map f (b :: l)) =
          f a :: map f (removelast (b :: l))).
  now rewrite IH.
Qed.

(** Every call returns points of its argument, in their order. *)
Lemma simplify_fuel_subsequence (tol : float) (fuel : nat)
  (pts : list JsPoint) (r : list Entry) :
  simplify_fuel fuel (map Pt pts) tol = Some r ->
  exists l, r = map Pt l /\ subsequence l pts.
Proof.
  revert pts r; induction fuel as [|fuel IH]; intros pts r; [discriminate|].
  destruct (Nat.leb_spec (length pts) 2) as [Hshort|Hlong].
  { cbn [simplify_fuel]; rewrite length_map.
    destruct (Nat.leb_spec (length pts) 2); [|lia].
    intros Heq; inversion Heq; subst.
    exists pts; split; [reflexivity|apply subsequence_refl]. }
  destruct pts as [|start rest]; [simpl in Hlong; lia|].
  rewrite simplify_fuel_unfold by exact Hlong; cbv zeta.
  set (pts := start :: rest) in *.
  set (end_ := last pts start).
  destruct (JsNum.gt (fst (farthest pts start end_)) tol).
  - set (maxIdx := snd (farthest pts start end_)).
    destruct (simplify_fuel fuel (map Pt (firstn (maxIdx + 1) pts)) tol)
      as [left_|] eqn:Hleft; [|discriminate].
    destruct (simplify_fuel fuel (map Pt (skipn maxIdx pts)) tol)
      as [right_|] eqn:Hright; [|discriminate].
    intros Heq; inversion Heq; subst r.
    destruct (IH _ _ Hleft) as (l1 & Hl1 & Hs1).
    destruct (IH _ _ Hright) as (l2 & Hl2 & Hs2).
    subst left_ right_.
    exists (removelast l1 ++ l2). split.
    + now rewrite map_app, removelast_map.
    + apply subsequence_trans with (firstn maxIdx pts ++ skipn maxIdx pts);
        [|rewrite firstn_skipn; apply subsequence_refl].
      apply subsequence_app; [|exact Hs2].
      eapply subsequence_trans; [apply subsequence_removelast, Hs1|].
      apply removelast_firstn_subsequence.
  - intros Heq; inversion Heq; subst r.
    exists [start; end_]. split; [reflexivity|].
    apply subsequence_ends. destruct rest; [simpl in Hlong; lia|discriminate].
Qed.

(** X21.  Simplification only drops points: for a tolerance of at least
    0, [simplifyContour] returns, and the points of its result are
    points of its argument, none of them new or moved, in the order the
    argument has them. *)
Theorem simplifyContour_subsequence (c : list Entry) (tol : float) :
  JsNum.le 0%float tol = true ->
  exists r,
    simplifyContour c tol = Some r /\
    subsequence (valid_points r) (valid_points c).
Proof.
  intros Htol.
  destruct (simplifyContour_returns tol Htol c) as (r & Hr & _ & Hshort & _).
  exists r. split; [exact Hr|].
  destruct (Nat.leb_spec (length c) 2) as [Hle|Hlong].
  { rewrite (Hshort Hle). apply subsequence_refl. }
  unfold simplifyContour in Hr.
  assert (Heq : simplify_fuel (S (length c)) c tol
                = simplify_fuel (S (length c)) (map Pt (valid_points c)) tol).
  { cbn [simplify_fuel].
    rewrite valid_points_map_Pt, length_map.
    destruct (Nat.leb_spec (length c) 2); [lia|].
    destruct (Nat.leb_spec (length (valid_points c)) 2); reflexivity. }
  rewrite Heq in Hr.
  destruct (simplify_fuel_subsequence tol _ _ _ Hr) as (l & Hl & Hsub).
  subst r. now rewrite valid_points_map_Pt.
Qed.

Lemma simplifyContour_subsequence_witness :
  exists r,
    simplifyContour zigzag 2 = Some r /\
    subsequence (valid_points r) (valid_points zigzag).
Proof.
  exact (simplifyContour_subsequence zigzag 2 eq_refl).
Defined.

(** ** The window of the smoothing loop *)

Section SmoothWindow.

Variable pts : list JsPoint.

(** With a window of at most the number of points, every index
    [(i + j + n) % n] of the smoothing loop falls inside the array. *)
Lemma smooth_point_within (js : list Z) (i : nat) :
  (1 <= length pts)%nat ->
  Forall (fun j => (- Z.of_nat (length pts) <= j)%Z) js ->
  exists p, smooth_point pts js i = Some p.
Proof.
  intros Hn Hjs. unfold smooth_point.
  set (step := fun (acc : option (float * float * float)) (j : Z) => _).
  assert (Hsome : exists s, fold_left step js (Some (zero, zero, zero)) = Some s).
  { apply fold_left_invariant with
      (P := fun acc : option (float * float * float) => exists s, acc = Some s).
    - now eexists.
    - intros acc j Hj [[[sx sy] cnt] ->].
      rewrite Forall_forall in Hjs; specialize (Hjs j Hj).
      unfold step.
      set (n := Z.of_nat (length pts)).
      assert (Hrem : (0 <= Z.rem (Z.of_nat i + j + n) n < n)%Z).
      { apply Z.rem_bound_pos; unfold n; lia. }
      set (k := Z.rem (Z.of_nat i + j + n) n) in *.
      destruct (Z.ltb_spec k 0); [lia|].
      destruct (nth_error pts (Z.to_nat k)) eqn:Hnth; [now eexists|].
      apply nth_error_None in Hnth. unfold n in *. lia. }
  destruct Hsome as [[[sx sy] cnt] ->]. now eexists.
Qed.

(** With a larger window, the first point already reads
    [validPoints[-1]], which is undefined, and the read of its field
    throws. *)
Lemma smooth_point_throws (js : list Z) :
  (2 <= length pts)%nat ->
  In (- Z.of_nat (length pts) - 1)%Z js ->
  smooth_point pts js 0 = None.
Proof.
  intros Hn Hin. unfold smooth_point.
  set (step := fun (acc : option (float * float * float)) (j : Z) => _).
  assert (Hnone : forall l, fold_left step l None = None).
  { induction l as [|a l IHl]; [reflexivity|exact IHl]. }
  assert (Hthrow : forall acc,
            step acc (- Z.of_nat (length pts) - 1)%Z = None).
  { intros [[[sx sy] cnt]|]; [|reflexivity]. unfold step.
    replace (Z.of_nat 0 + (- Z.of_nat (length pts) - 1)
             + Z.of_nat (length pts))%Z with (-1)%Z by lia.
    assert (Hrem : Z.rem (-1) (Z.of_nat (length pts)) = (-1)%Z)
      by (apply Z.rem_small_iff; lia).
    rewrite Hrem. reflexivity. }
  assert (Hfold : forall l acc,
            In (- Z.of_nat (length pts) - 1)%Z l ->
            fold_left step l acc = None).
  { induction l as [|a l IHl]; intros acc Hl; [destruct Hl|].
    cbn [fold_left].
    destruct (Z.eq_dec a (- Z.of_nat (length pts) - 1)) as [->|Hne].
    - rewrite Hthrow. apply Hnone.
    - apply IHl. destruct Hl as [Hl|Hl]; [contradiction|exact Hl]. }
  now rewrite Hfold.
Qed.

End SmoothWindow.

(** X22.  [smoothContour] returns exactly when its window fits the
    contour: for an array with [n >= 3] valid points and a window [w =
    Math.max(1, Math.floor(factor * 3))], it returns [n] points when
    [w <= n], and throws when [w > n], reading a field of the undefined
    [validPoints[-1]] (a factor of 2 gives the window 6, too large for
    a contour simplified to a triangle). *)
Theorem smoothContour_window (c : list Entry) (factor : float) (w : Z) :
  (3 <= length (valid_points c))%nat ->
  JsNum.to_Z (smoothing_window factor) = Some w ->
  if (w <=? Z.of_nat (length (valid_points c)))%Z
  then exists r,
         smoothContour c factor = Some r /\
         length r = length (valid_points c)
  else smoothContour c factor = None.
Proof.
  intros Hn Hw.
  pose proof (valid_points_length c) as Hvalid.
  unfold smoothContour.
  destruct (Nat.ltb_spec (length c) 3) as [Hc|_]; [lia|].
  destruct (Nat.ltb_spec (length (valid_points c)) 3) as [Hc|_]; [lia|].
  fold (smoothing_window factor).
  unfold window_range. rewrite Hw.
  set (n := length (valid_points c)) in *.
  destruct (Z.leb_spec w (Z.of_nat n)) as [Hfit|Hlarge].
  - destruct (mapM_total
                (smooth_point (valid_points c) (zrange (- w) (w + 1)))
                (seq 0 n)) as [ps Hps].
    { intros i _. apply smooth_point_within; [fold n; lia|].
      apply Forall_forall. intros j Hj. apply in_zrange in Hj.
      fold n. lia. }
    rewrite Hps. exists (map Pt ps). split; [reflexivity|].
    destruct (mapM_nth _ _ _ Hps) as [Hlen _].
    now rewrite length_map, Hlen, length_seq.
  - destruct n as [|n'] eqn:Hn'; [lia|].
    cbn [seq mapM].
    rewrite smooth_point_throws; [reflexivity|lia|].
    apply in_zrange. lia.
Qed.

Lemma smoothContour_window_witness :
  smoothContour triangle 2 = None.
Proof.
  apply (smoothContour_window triangle 2 6); [cbn; lia|reflexivity].
Defined.

(** ** The regions of [processContours] *)

Lemma mapM_in {A B : Type} (f : A -> option B) (l : list A) (bs : list B)
  (b : B) :
  mapM f l = Some bs -> In b bs -> exists a, In a l /\ f a = Some b.
Proof.
  revert bs; induction l as [|a l IH]; intros bs; cbn [mapM].
  - intros Heq; inversion Heq; subst. intros [].
  - destruct (f a) as [b'|] eqn:Hb; [|discriminate].
    destruct (mapM f l) as [bs'|]; [|discriminate].
    intros Heq; inversion Heq; subst. intros [<-|Hin].
    + exists a. split; [now left|exact Hb].
    + destruct (IH bs' eq_refl Hin) as (a' & Ha' & Hf).
      exists a'. split; [now right|exact Hf].
Qed.

(** Whatever the tolerance, a result of [simplifyContour] is no longer
    than its argument. *)
Lemma simplifyContour_length (c r : list Entry) (tol : float) :
  simplifyContour c tol = Some r -> (length r <= length c)%nat.
Proof.
  unfold simplifyContour. intros Hr.
  destruct (Nat.leb_spec (length c) 2) as [Hle|Hlong].
  { cbn [simplify_fuel] in Hr.
    destruct (Nat.leb_spec (length c) 2); [|lia].
    inversion Hr; subst. lia. }
  assert (Heq : simplify_fuel (S (length c)) c tol
                = simplify_fuel (S (length c)) (map Pt (valid_points c)) tol).
  { cbn [simplify_fuel].
    rewrite valid_points_map_Pt, length_map.
    destruct (Nat.leb_spec (length c) 2); [lia|].
    destruct (Nat.leb_spec (length (valid_points c)) 2); reflexivity. }
  rewrite Heq in Hr.
  destruct (simplify_fuel_subsequence tol _ _ _ Hr) as (l & Hl & Hsub).
  subst r. rewrite length_map.
  apply subsequence_length in Hsub.
  pose proof (valid_points_length c). lia.
Qed.

(** A result of [smoothContour] is no longer than its argument. *)
Lemma smoothContour_length (c r : list Entry) (factor : float) :
  smoothContour c factor = Some r -> (length r <= length c)%nat.
Proof.
  unfold smoothContour. pose proof (valid_points_length c) as Hvalid.
  destruct (length c <? 3)%nat.
  { intros Heq; inversion Heq; subst. lia. }
  destruct (length (valid_points c) <? 3)%nat.
  { intros Heq; inversion Heq; subst. now rewrite length_map. }
  destruct (window_range _) as [js|]; [|discriminate].
  destruct (mapM _ _) as [ps|] eqn:Hps; [|discriminate].
  cbn [option_map]. intros Heq; inversion Heq; subst.
  destruct (mapM_nth _ _ _ Hps) as [Hlen _].
  now rewrite length_map, Hlen, length_seq.
Qed.

(** X23.  The bookkeeping of a region is sound: for every region that
    [processContours] returns, [simplifiedLength] is the number of
    entries of its [points], [originalLength] is the number of points of
    one of the contours handed in, simplification and smoothing never
    add points ([simplifiedLength <= originalLength]), and there are no
    more regions than contours. *)
Theorem processContours_lengths
  (settings : Settings) (contours : list Contour) (out : list Region)
  (r : Region) :
  processContours settings contours = Some out ->
  In r out ->
  simplifiedLength r = length (points r) /\
  (simplifiedLength r <= originalLength r)%nat /\
  (exists c, In c contours /\ originalLength r = length c) /\
  (length out <= length contours)%nat.
Proof.
  unfold processContours.
  destruct (mapM (make_region settings) contours) as [regions|] eqn:Hmap;
    [|discriminate].
  intros Heq Hin; inversion Heq; subst out; clear Heq.
  pose proof (js_sort_perm by_area_desc (filter (keeps settings) regions))
    as Hperm.
  assert (Hr : In r regions).
  { apply (Permutation_in _ Hperm) in Hin.
    apply filter_In in Hin. tauto. }
  destruct (mapM_in _ _ _ _ Hmap Hr) as (c & Hc & Hmake).
  unfold make_region in Hmake.
  destruct (simplifyContour _ _) as [simplified|] eqn:Hsimp; [|discriminate].
  apply simplifyContour_length in Hsimp.
  rewrite !length_map in Hsimp.
  assert (Hsmooth : forall smoothed,
            (if JsNum.gt (smoothing settings) 0
             then smoothContour simplified (smoothing settings)
             else Some simplified) = Some smoothed ->
            (length smoothed <= length simplified)%nat).
  { intros smoothed.
    destruct (JsNum.gt (smoothing settings) 0).
    - apply smoothContour_length.
    - intros Heq; inversion Heq; subst. lia. }
  destruct (if JsNum.gt (smoothing settings) 0 then _ else _)
    as [smoothed|]; [|discriminate].
  specialize (Hsmooth smoothed eq_refl).
  inversion Hmake; subst r; cbn [simplifiedLength originalLength points].
  split; [reflexivity|]. split; [lia|]. split; [now exists c|].
  rewrite (Permutation_length Hperm).
  destruct (mapM_nth _ _ _ Hmap) as [Hlen _]. rewrite <- Hlen.
  apply filter_length_le.
Qed.

Lemma processContours_lengths_witness :
  exists out r,
    processContours default_settings sample_contours = Some out /\
    In r out /\
    simplifiedLength r = length (points r) /\
    (simplifiedLength r <= originalLength r)%nat /\
    (exists c, In c sample_contours /\ originalLength r = length c) /\
    (length out <= length sample_contours)%nat.
Proof.
  destruct (processContours default_settings sample_contours)
    as [out|] eqn:Hout; [|vm_compute in Hout; discriminate].
  destruct out as [|r out]; [vm_compute in Hout; discriminate|].
  exists (r :: out), r.
  split; [reflexivity|]. split; [now left|].
  exact (processContours_lengths default_settings sample_contours
           (r :: out) r Hout (or_introl eq_refl)).
Defined.

(** ** Every stage keeps the shape of the image *)

Lemma byte_buffer_array_set (a : ByteArray) (i v : Z) :
  byte_buffer a -> is_byte v -> byte_buffer (array_set a i v).
Proof.
  intros Ha Hv. unfold array_set.
  destruct (i <? 0)%Z; [exact Ha|now apply byte_buffer_set].
Qed.

Lemma byte_buffer_repeat (n : nat) : byte_buffer (repeat 0%Z n).
Proof.
  unfold byte_buffer. apply Forall_forall. intros b Hb.
  apply repeat_spec in Hb. subst. unfold is_byte. lia.
Qed.

Lemma binarized_byte (thresh : float) (r : option Z) :
  is_byte (binarized thresh r).
Proof.
  unfold binarized, is_byte. destruct (byte_gt r thresh); lia.
Qed.

Lemma edge_value_byte (imageData : ImageData) (x y : Z) :
  is_byte (edge_value imageData x y).
Proof.
  unfold edge_value. destruct (sobel_sums imageData x y).
  apply to_uint8_clamp_range.
Qed.

Lemma detectEdges_length (imageData : ImageData) (radius : option float) :
  length (data (detectEdges imageData radius)) = length (data imageData).
Proof.
  unfold detectEdges; cbn [data].
  apply (fold_left_invariant
           (fun a => length a = length (data imageData))).
  - apply repeat_length.
  - intros a xy _ Ha. now rewrite detectEdges_pixel_length.
Qed.

Lemma same_shape_refl (a : ImageData) :
  byte_buffer (data a) -> same_shape a a.
Proof. unfold same_shape; auto. Qed.

Lemma same_shape_clone (a b : ImageData) :
  same_shape a b -> same_shape a (Stage.cloneImageData b).
Proof. unfold same_shape, Stage.cloneImageData; cbn; auto. Qed.

Lemma same_shape_toGrayscale (a b : ImageData) :
  same_shape a b -> same_shape a (Stage.toGrayscale b).
Proof.
  intros (Hw & Hh & Hl & Hb). unfold same_shape.
  rewrite toGrayscale_length. repeat split; auto.
  unfold Stage.toGrayscale; cbn [data].
  apply fold_left_invariant; auto.
  intros d i _ Hd. unfold Stage.toGrayscale_step.
  repeat apply byte_buffer_set; auto; apply to_uint8_clamp_range.
Qed.

Lemma same_shape_applyBlur (a b : ImageData) (radius : Z) :
  same_shape a b -> same_shape a (Stage.applyBlur b radius).
Proof.
  intros (Hw & Hh & Hl & Hb). unfold same_shape.
  rewrite applyBlur_length. repeat split; auto.
  unfold Stage.applyBlur; cbn [data].
  apply fold_left_invariant; auto.
  intros d [x y] _ Hd. unfold Stage.applyBlur_pixel.
  destruct (Stage.blur_sums b radius x y) as [[sr sg] sb].
  repeat apply byte_buffer_array_set; auto; apply to_uint8_clamp_range.
Qed.

Lemma same_shape_posterize (a b : ImageData) (levels : float) :
  same_shape a b -> same_shape a (Stage.posterize b levels).
Proof.
  intros (Hw & Hh & Hl & Hb). unfold same_shape.
  rewrite posterize_length. repeat split; auto.
  unfold Stage.posterize; cbn [data].
  apply fold_left_invariant; auto.
  intros d i _ Hd. unfold Stage.posterize_step, Stage.quantized.
  repeat apply byte_buffer_set; auto; apply to_uint8_clamp_range.
Qed.

Lemma same_shape_detectEdges (a b : ImageData) (radius : option float) :
  same_shape a b -> same_shape a (detectEdges b radius).
Proof.
  intros (Hw & Hh & Hl & Hb). unfold same_shape.
  rewrite detectEdges_length. repeat split; auto.
  unfold detectEdges; cbn [data].
  apply fold_left_invariant; [apply byte_buffer_repeat|].
  intros d [x y] _ Hd. unfold detectEdges_pixel.
  repeat apply byte_buffer_array_set; auto;
    try apply edge_value_byte; unfold is_byte; lia.
Qed.

Lemma same_shape_invertImage (a b : ImageData) :
  same_shape a b -> same_shape a (Stage.invertImage b).
Proof.
  intros (Hw & Hh & Hl & Hb). unfold same_shape.
  rewrite invertImage_length. repeat split; auto.
  unfold Stage.invertImage; cbn [data].
  apply fold_left_invariant; auto.
  intros d i _ Hd. unfold Stage.invertImage_step, Stage.inverted.
  repeat apply byte_buffer_set; auto; apply to_uint8_clamp_range.
Qed.

Lemma same_shape_threshold (a b : ImageData) (level : float) :
  same_shape a b -> same_shape a (threshold b level).
Proof.
  intros (Hw & Hh & Hl & Hb). unfold same_shape.
  rewrite threshold_length. repeat split; auto.
  unfold threshold; cbn [data].
  apply fold_left_invariant; auto.
  intros d i _ Hd. unfold threshold_step.
  repeat apply byte_buffer_set; auto; apply binarized_byte.
Qed.

Create HintDb stages.

#[local] Hint Resolve same_shape_refl same_shape_clone same_shape_toGrayscale
  same_shape_applyBlur same_shape_posterize same_shape_detectEdges
  same_shape_invertImage same_shape_threshold : stages.

(** ** The pipeline *)

(** Case analysis on the optional stages of [processImage]. *)
Ltac pipeline_cases H :=
  unfold processImage in H;
  destruct (grayscale _);
  destruct (JsNum.gt (blur _) 0);
  try destruct (JsNum.to_Z (blur _));
  try discriminate H;
  destruct (JsNum.gt (posterize _) 0);
  destruct (invert _);
  cbv beta iota zeta in H;
  destruct (processContours _ _) eqn:?; try discriminate H;
  inversion H; subst; clear H.

(** X24.  Every image that [processImage] pushes on [steps] is a
    well-formed image of the size of the input: whatever stages the
    settings switch on (the blur radius being a whole number), each
    snapshot has the width, the height and the buffer length of the
    input, and its buffer holds bytes. *)
Theorem processImage_snapshots
  (settings : Settings) (imageData : ImageData) (res : Conversion)
  (name : StepName) (d : ImageData) :
  byte_buffer (data imageData) ->
  processImage settings imageData = Some res ->
  In (Snapshot name d) (conv_steps res) ->
  same_shape imageData d.
Proof.
  intros Hb Hres Hin.
  pipeline_cases Hres; cbn [conv_steps app] in Hin;
    repeat (destruct Hin as [Hin|Hin];
            [try discriminate Hin; inversion Hin; subst;
             auto 12 with stages|]);
    destruct Hin.
Qed.

Lemma processImage_snapshots_witness :
  exists res d,
    processImage default_settings flat_image = Some res /\
    In (Snapshot SThreshold d) (conv_steps res) /\
    same_shape flat_image d.
Proof.
  assert (Hb : byte_buffer (data flat_image)).
  { unfold byte_buffer, is_byte; cbn; repeat constructor; lia. }
  destruct (processImage default_settings flat_image) as [res|] eqn:Hres;
    [|vm_compute in Hres; discriminate].
  assert (Hin : exists d, In (Snapshot SThreshold d) (conv_steps res)).
  { vm_compute in Hres. inversion Hres. cbn [conv_steps].
    eexists. do 4 right. left. reflexivity. }
  destruct Hin as [d Hin]. exists res, d.
  split; [reflexivity|]. split; [exact Hin|].
  exact (processImage_snapshots default_settings flat_image res SThreshold d
           Hb Hres Hin).
Defined.

(** A colour byte of a thresholded image is 0 or 255. *)
Lemma threshold_binary (imageData : ImageData) (level : float) (j : nat)
  (b : Z) :
  (j mod 4 < 3)%nat ->
  nth_error (data (threshold imageData level)) j = Some b ->
  b = 0%Z \/ b = 255%Z.
Proof.
  intros Hc Hj.
  assert (Hlen : (j < length (data imageData))%nat).
  { rewrite <- (threshold_length imageData level).
    apply nth_error_Some. congruence. }
  pose proof (Nat.div_mod_eq j 4) as Hdm.
  pose proof (threshold_channel imageData level (j / 4) (j mod 4) Hc
                ltac:(lia)) as H.
  rewrite <- Hdm, Hj in H. inversion H; subst b.
  unfold binarized. destruct (byte_gt _ _); auto.
Qed.

(** X25.  The processed preview is always the black-and-white image:
    when [processImage] returns (the blur radius being a whole number),
    the last entry of [steps] that carries an image, which is what
    [showProcessedPreview] draws, is the ['Threshold'] snapshot, and
    each of its colour bytes is 0 or 255. *)
Theorem processImage_preview
  (settings : Settings) (imageData : ImageData) (res : Conversion) :
  processImage settings imageData = Some res ->
  exists d,
    lastImageStep (conv_steps res) = Some (Snapshot SThreshold d) /\
    forall j b,
      (j mod 4 < 3)%nat -> nth_error (data d) j = Some b ->
      b = 0%Z \/ b = 255%Z.
Proof.
  intros Hres.
  pipeline_cases Hres; unfold lastImageStep;
    cbn [conv_steps app filter has_data map last];
    (eexists; split; [reflexivity|]);
    intros j b; unfold Stage.cloneImageData; cbn [data];
    apply threshold_binary.
Qed.

Lemma processImage_preview_witness :
  exists res d,
    processImage default_settings flat_image = Some res /\
    lastImageStep (conv_steps res) = Some (Snapshot SThreshold d) /\
    forall j b,
      (j mod 4 < 3)%nat -> nth_error (data d) j = Some b ->
      b = 0%Z \/ b = 255%Z.
Proof.
  destruct (processImage default_settings flat_image) as [res|] eqn:Hres;
    [|vm_compute in Hres; discriminate].
  destruct (processImage_preview default_settings flat_image res Hres)
    as (d & Hlast & Hbin).
  exists res, d. split; [reflexivity|]. split; [exact Hlast|exact Hbin].
Defined.

(** The frame of the image that is traced, from the edge image on. *)
Lemma traced_frame (imageData : ImageData) (radius : option float)
  (inv : bool) (level : float) (x y c : Z) :
  length (data imageData) =
    Z.to_nat (4 * width imageData * height imageData) ->
  on_frame imageData x y ->
  (0 <= c <= 2)%Z ->
  (if inv then JsNum.lt (level * JsNum.lit_2_55) 255
   else negb (JsNum.lt (level * JsNum.lit_2_55) 0)) = true ->
  array_get
    (data (threshold
             (if inv then Stage.invertImage (detectEdges imageData radius)
              else detectEdges imageData radius) level))
    ((y * width imageData + x) * 4 + c) =
  Some (if inv then 255 else 0)%Z.
Proof.
  intros Hlen Hframe Hc Hlevel.
  pose proof (detectEdges_frame imageData radius x y 0 Hlen Hframe
                ltac:(lia)) as Hred.
  destruct Hframe as (Hx & Hy & _).
  set (w := width imageData) in *. set (h := height imageData) in *.
  assert (Hp : (0 <= y * w + x < w * h)%Z) by nia.
  set (p := Z.to_nat (y * w + x)).
  assert (Hk : Z.to_nat ((y * w + x) * 4 + c) = (4 * p + Z.to_nat c)%nat)
    by (unfold p; lia).
  assert (Hk0 : Z.to_nat ((y * w + x) * 4 + 0) = (4 * p)%nat)
    by (unfold p; lia).
  unfold array_get in *.
  destruct (Z.ltb_spec ((y * w + x) * 4 + c) 0) as [Hneg|_]; [lia|].
  destruct (Z.ltb_spec ((y * w + x) * 4 + 0) 0) as [Hneg|_]; [lia|].
  rewrite Hk. rewrite Hk0 in Hred.
  assert (Hlen' : length (data (detectEdges imageData radius))
                  = Z.to_nat (4 * w * h))
    by (now rewrite detectEdges_length).
  destruct inv.
  - rewrite threshold_channel
      by (rewrite ?invertImage_length, ?Hlen'; lia).
    rewrite invertImage_spec, Hred.
    destruct (mod4_channel p 0 ltac:(lia)) as [Hmod _].
    rewrite Nat.add_0_r in Hmod. rewrite Hmod.
    replace (4 * p <? length (data (detectEdges imageData radius)))%nat
      with true by (symmetry; apply Nat.ltb_lt; rewrite Hlen'; lia).
    cbn [andb Nat.ltb Nat.leb].
    change (Stage.inverted (Some 0%Z)) with 255%Z.
    unfold binarized, byte_gt, JsNum.gt.
    change (JsNum.of_Z 255) with 255%float.
    unfold JsNum.lt in Hlevel. now rewrite Hlevel.
  - rewrite threshold_channel by (rewrite ?Hlen'; lia).
    rewrite Hred.
    unfold binarized, byte_gt, JsNum.gt.
    change (JsNum.of_Z 0) with 0%float.
    unfold JsNum.lt in Hlevel.
    destruct (level * JsNum.lit_2_55 <? 0)%float; [discriminate|reflexivity].
Qed.

(** X26.  The image that is traced has a frame of one colour: on a
    buffer of the declared size, when [processImage] returns (the blur
    radius being a whole number), the colour bytes of every pixel of the
    first and last row and column of the ['Threshold'] snapshot are 255
    when [invert] is on and the cutoff [edgeThreshold * 2.55] is below
    255, and 0 when [invert] is off and the cutoff is not negative,
    whatever the picture shows there. *)
Theorem processImage_frame
  (settings : Settings) (imageData : ImageData) (res : Conversion)
  (d : ImageData) (x y c : Z) :
  length (data imageData) =
    Z.to_nat (4 * width imageData * height imageData) ->
  processImage settings imageData = Some res ->
  In (Snapshot SThreshold d) (conv_steps res) ->
  on_frame imageData x y ->
  (0 <= c <= 2)%Z ->
  (if invert settings
   then JsNum.lt (edgeThreshold settings * JsNum.lit_2_55) 255
   else negb (JsNum.lt (edgeThreshold settings * JsNum.lit_2_55) 0)) = true ->
  array_get (data d) ((y * width imageData + x) * 4 + c) =
    Some (if invert settings then 255 else 0)%Z.
Proof.
  intros Hlen Hres Hin Hframe Hc Hlevel.
  unfold processImage in Hres.
  destruct (invert settings) eqn:Hinv;
    destruct (grayscale settings);
    destruct (JsNum.gt (blur settings) 0);
    try destruct (JsNum.to_Z (blur settings));
    try discriminate Hres;
    destruct (JsNum.gt (posterize settings) 0);
    cbv beta iota zeta in Hres;
    destruct (processContours _ _); try discriminate Hres;
    inversion Hres; subst; clear Hres;
    cbn [conv_steps app] in Hin;
    repeat (destruct Hin as [Hin|Hin];
            [try discriminate Hin; inversion Hin; subst; clear Hin|]);
    try destruct Hin;
    unfold Stage.cloneImageData; cbn [data];
    match goal with
    | |- context [threshold (Stage.invertImage (detectEdges ?E ?r)) ?l] =>
        apply (traced_frame E r true l x y c);
          rewrite ?posterize_length, ?applyBlur_length, ?toGrayscale_length;
          auto
    | |- context [threshold (detectEdges ?E ?r) ?l] =>
        apply (traced_frame E r false l x y c);
          rewrite ?posterize_length, ?applyBlur_length, ?toGrayscale_length;
          auto
    end.
Qed.

Lemma processImage_frame_witness :
  exists res d,
    processImage default_settings flat_image = Some res /\
    In (Snapshot SThreshold d) (conv_steps res) /\
    array_get (data d) ((4 * 5 + 2) * 4 + 1) = Some 255%Z.
Proof.
  destruct (processImage default_settings flat_image) as [res|] eqn:Hres;
    [|vm_compute in Hres; discriminate].
  assert (Hin : exists d, In (Snapshot SThreshold d) (conv_steps res)).
  { vm_compute in Hres. inversion Hres. cbn [conv_steps].
    eexists. do 4 right. left. reflexivity. }
  destruct Hin as [d Hin]. exists res, d.
  split; [reflexivity|]. split; [exact Hin|].
  apply (processImage_frame default_settings flat_image res d 2 4 1);
    auto; try reflexivity; try lia.
  unfold on_frame; cbn; lia.
Defined.

Lemma processContours_count (settings : Settings) (contours : list Contour)
  (out : list Region) :
  processContours settings contours = Some out ->
  (length out <= length contours)%nat.
Proof.
  unfold processContours.
  destruct (mapM (make_region settings) contours) as [regions|] eqn:Hmap;
    [|discriminate].
  intros Heq; inversion Heq; subst out.
  rewrite (Permutation_length (js_sort_perm by_area_desc _)).
  destruct (mapM_nth _ _ _ Hmap) as [Hlen _]. rewrite <- Hlen.
  apply filter_length_le.
Qed.

(** X27.  [processImage] returns for every image when the blur radius is
    a whole number (or blur is off), the simplification tolerance is at
    least 0 and the smoothing window (if smoothing is on) is at most 3,
    as under the default settings; the result carries the dimensions of
    the input, between three and seven steps, the last of which is the
    number of contours found, and no more regions than that. *)
Theorem processImage_returns (settings : Settings) (imageData : ImageData) :
  (JsNum.gt (blur settings) 0 = true ->
   exists radius, JsNum.to_Z (blur settings) = Some radius) ->
  JsNum.le 0 (simplifyTolerance settings) = true ->
  (JsNum.gt (smoothing settings) 0 = true ->
   exists w, JsNum.to_Z (smoothing_window (smoothing settings)) = Some w /\
             (w <= 3)%Z) ->
  exists res n,
    processImage settings imageData = Some res /\
    conv_dimensions res = (width imageData, height imageData) /\
    (3 <= length (conv_steps res) <= 7)%nat /\
    last (conv_steps res) (Count SContours 0) = Count SContours n /\
    (length (conv_regions res) <= n)%nat.
Proof.
  intros Hblur Htol Hsmooth.
  assert (Hregions : forall contours,
            exists out, processContours settings contours = Some out).
  { intros contours.
    destruct (processContours_returns settings contours Htol)
      as (regions & out & _ & Hout); [|now exists out].
    intros Hgt. destruct (Hsmooth Hgt) as (w & Hw & Hle).
    exists (zrange (- w) (w + 1)). split.
    - unfold window_range. fold (smoothing_window (smoothing settings)).
      now rewrite Hw.
    - apply Forall_forall. intros j Hj. apply in_zrange in Hj. lia. }
  unfold processImage.
  destruct (grayscale settings);
    destruct (JsNum.gt (blur settings) 0);
    try (destruct (Hblur eq_refl) as [radius Hradius]; rewrite Hradius);
    destruct (JsNum.gt (posterize settings) 0);
    destruct (invert settings);
    cbv beta iota zeta;
    match goal with
    | |- context [processContours settings ?cs] =>
        destruct (Hregions cs) as [out Hout]; rewrite Hout
    end;
    eexists; eexists;
    (split; [reflexivity|]); (split; [reflexivity|]);
    cbn [conv_steps conv_regions app length last];
    (split; [lia|]); (split; [reflexivity|]);
    eapply processContours_count; eauto.
Qed.

Lemma processImage_returns_witness :
  exists res n,
    processImage default_settings flat_image = Some res /\
    conv_dimensions res = (5, 5)%Z /\
    (3 <= length (conv_steps res) <= 7)%nat /\
    last (conv_steps res) (Count SContours 0) = Count SContours n /\
    (length (conv_regions res) <= n)%nat.
Proof.
  apply (processImage_returns default_settings flat_image).
  - intros _. exists 1%Z. reflexivity.
  - reflexivity.
  - intros _. exists 1%Z. split; [reflexivity|lia].
Defined.

(** ** Raising the threshold *)

Lemma cutoff_step (level : Z) :
  (0 <= level <= 100)%Z ->
  JsNum.le (cutoff level) (cutoff level) = true /\
  JsNum.le (cutoff level) (cutoff (level + 1)) = true.
Proof.
  intros Hl. apply andb_prop.
  apply (range_enumeration
           (fun level => JsNum.le (cutoff level) (cutoff level)
                         && JsNum.le (cutoff level) (cutoff (level + 1)))
           0 101); [vm_compute; reflexivity|lia].
Qed.

Lemma cutoff_monotone (l1 l2 : Z) :
  (0 <= l1 <= l2)%Z -> (l2 <= 100)%Z ->
  JsNum.le (cutoff l1) (cutoff l2) = true.
Proof.
  intros H1 H2.
  replace l2 with (l1 + Z.of_nat (Z.to_nat (l2 - l1)))%Z by lia.
  assert (Hn : (l1 + Z.of_nat (Z.to_nat (l2 - l1)) <= 100)%Z) by lia.
  revert Hn. generalize (Z.to_nat (l2 - l1)) as n.
  induction n as [|n IH]; intros Hn.
  - rewrite Z.add_0_r. apply cutoff_step. lia.
  - apply num_le_trans with (cutoff (l1 + Z.of_nat n)); [apply IH; lia|].
    replace (l1 + Z.of_nat (S n))%Z with (l1 + Z.of_nat n + 1)%Z by lia.
    apply cutoff_step. lia.
Qed.

(** X28.  A higher threshold never turns a black pixel white: for whole
    levels [0 <= l1 <= l2 <= 100], every byte of the image binarized at
    [l2] is at most the byte at the same place of the image binarized
    at [l1]. *)
Theorem threshold_monotone
  (imageData : ImageData) (l1 l2 : Z) (j : nat) (b1 b2 : Z) :
  (0 <= l1 <= l2)%Z -> (l2 <= 100)%Z ->
  nth_error (data (threshold imageData (JsNum.of_Z l1))) j = Some b1 ->
  nth_error (data (threshold imageData (JsNum.of_Z l2))) j = Some b2 ->
  (b2 <= b1)%Z.
Proof.
  intros H1 H2 Hb1 Hb2.
  assert (Hlen : (j < length (data imageData))%nat).
  { rewrite <- (threshold_length imageData (JsNum.of_Z l1)).
    apply nth_error_Some. congruence. }
  pose proof (cutoff_monotone l1 l2 H1 H2) as Hle. unfold cutoff in Hle.
  pose proof (Nat.div_mod_eq j 4) as Hdm.
  pose proof (Nat.mod_upper_bound j 4 ltac:(lia)) as Hm.
  destruct (Nat.eq_dec (j mod 4) 3) as [Hc|Hc].
  - rewrite Hdm, Hc, threshold_alpha in Hb1, Hb2.
    assert (b1 = b2) by congruence. lia.
  - pose proof (threshold_channel imageData (JsNum.of_Z l1) (j / 4)
                  (j mod 4) ltac:(lia) ltac:(lia)) as E1.
    pose proof (threshold_channel imageData (JsNum.of_Z l2) (j / 4)
                  (j mod 4) ltac:(lia) ltac:(lia)) as E2.
    rewrite <- Hdm in E1, E2. rewrite Hb1 in E1. rewrite Hb2 in E2.
    remember (nth_error (data imageData) (4 * (j / 4))) as r0 eqn:Hr0.
    assert (Eb1 : b1 = binarized (JsNum.of_Z l1 * JsNum.lit_2_55) r0)
      by congruence.
    assert (Eb2 : b2 = binarized (JsNum.of_Z l2 * JsNum.lit_2_55) r0)
      by congruence.
    subst b1 b2. clear E1 E2 Hb1 Hb2 Hr0.
    unfold binarized, byte_gt.
    destruct r0 as [r|]; [|lia].
    destruct (JsNum.gt (JsNum.of_Z r) (JsNum.of_Z l2 * JsNum.lit_2_55))
      eqn:Hgt;
      [|destruct (JsNum.gt (JsNum.of_Z r) (JsNum.of_Z l1 * JsNum.lit_2_55));
        lia].
    unfold JsNum.gt in *.
    pose proof (num_le_lt_trans _ _ _ Hle Hgt) as Hlt.
    unfold JsNum.lt in Hlt. rewrite Hlt. lia.
Qed.

Lemma threshold_monotone_witness :
  let pixel := mkImageData 1 1 [200; 0; 0; 255]%Z in
  (0 <= 10 <= 90)%Z /\ (90 <= 100)%Z /\
  nth_error (data (threshold pixel (JsNum.of_Z 10))) 0 = Some 255%Z /\
  nth_error (data (threshold pixel (JsNum.of_Z 90))) 0 = Some 0%Z /\
  (0 <= 255)%Z.
Proof.
  cbv zeta.
  split; [lia|]. split; [lia|]. split; [reflexivity|]. split; [reflexivity|].
  exact (threshold_monotone (mkImageData 1 1 [200; 0; 0; 255]%Z) 10 90 0
           255 0 ltac:(lia) ltac:(lia) eq_refl eq_refl).
Defined.

(** ** The area of a region *)

Lemma abs_not_negative (x : float) : (abs x <? 0)%float = false.
Proof.
  rewrite ltb_spec, abs_spec.
  change (Prim2SF 0) with (S754_zero false).
  destruct (Prim2SF x) as [s|s| |s m e]; reflexivity.
Qed.

(** X29.  The area of a region is never negative: whatever the
    orientation of the contour, [processContours] stores the absolute
    value of half the shoelace sum. *)
Theorem processContours_area_not_negative
  (settings : Settings) (contours : list Contour) (out : list Region)
  (r : Region) :
  processContours settings contours = Some out ->
  In r out ->
  JsNum.lt (area r) 0 = false.
Proof.
  unfold processContours.
  destruct (mapM (make_region settings) contours) as [regions|] eqn:Hmap;
    [|discriminate].
  intros Heq Hin; inversion Heq; subst out; clear Heq.
  apply (Permutation_in _ (js_sort_perm by_area_desc _)) in Hin.
  apply filter_In in Hin. destruct Hin as [Hr _].
  destruct (mapM_in _ _ _ _ Hmap Hr) as (c & _ & Hmake).
  unfold make_region in Hmake.
  destruct (simplifyContour _ _) as [simplified|]; [|discriminate].
  destruct (if JsNum.gt (smoothing settings) 0 then _ else _)
    as [smoothed|]; [|discriminate].
  inversion Hmake; subst r; cbn [area].
  unfold contour_area, JsNum.lt. apply abs_not_negative.
Qed.

Lemma processContours_area_not_negative_witness :
  exists out r,
    processContours default_settings sample_contours = Some out /\
    In r out /\
    JsNum.lt (area r) 0 = false.
Proof.
  destruct (processContours default_settings sample_contours)
    as [out|] eqn:Hout; [|vm_compute in Hout; discriminate].
  destruct out as [|r out]; [vm_compute in Hout; discriminate|].
  exists (r :: out), r.
  split; [reflexivity|]. split; [now left|].
  exact (processContours_area_not_negative default_settings sample_contours
           (r :: out) r Hout (or_introl eq_refl)).
Defined.

(** ** What the edge detector reads *)

Lemma fold_left_ext {S X : Type} (f g : S -> X -> S) (l : list X) (s : S) :
  (forall s x, f s x = g s x) -> fold_left f l s = fold_left g l s.
Proof.
  intros Hfg. revert s; induction l as [|x l IH]; intros s; cbn [fold_left];
    [reflexivity|].
  now rewrite Hfg, IH.
Qed.

(** X30.  [detectEdges] reads the red channel only: two images of the
    same size whose red bytes agree have the same edge image, whatever
    their green, blue and alpha bytes are (when grayscale conversion is
    switched off, green and blue play no part in the edges). *)
Theorem detectEdges_reads_red_only
  (a b : ImageData) (radius : option float) :
  width a = width b ->
  height a = height b ->
  length (data a) = length (data b) ->
  (forall k, array_get (data a) (k * 4) = array_get (data b) (k * 4)) ->
  detectEdges a radius = detectEdges b radius.
Proof.
  intros Hw Hh Hlen Hred.
  assert (Hsums : forall x y, sobel_sums a x y = sobel_sums b x y).
  { intros x y. unfold sobel_sums. rewrite Hw.
    apply fold_left_ext. intros g dy.
    apply fold_left_ext. intros g' dx.
    now rewrite Hred. }
  unfold detectEdges. rewrite Hw, Hh, Hlen. f_equal.
  apply fold_left_ext. intros result [x y].
  unfold detectEdges_pixel, edge_value. now rewrite Hsums, Hw.
Qed.

Lemma detectEdges_reads_red_only_witness :
  detectEdges red_twin_a None = detectEdges red_twin_b None.
Proof.
  apply detectEdges_reads_red_only; try reflexivity.
  intros k. unfold array_get.
  destruct (Z.ltb_spec (k * 4) 0) as [Hneg|Hpos]; [reflexivity|].
  assert (Hk : (k = 0 \/ k = 1 \/ k = 2 \/ k = 3 \/ k = 4 \/ k = 5 \/
                k = 6 \/ k = 7 \/ k = 8 \/ 9 <= k)%Z) by lia.
  destruct Hk as [Hk|[Hk|[Hk|[Hk|[Hk|[Hk|[Hk|[Hk|[Hk|Hk]]]]]]]]];
    try (subst k; reflexivity).
  transitivity (@None Z); [|symmetry]; apply nth_error_None; cbn; lia.
Defined.
